(** * Cuban Double-9 dominoes: the round engine and its properties

    A shallow embedding of [utils/gameLogic.ts] (tiles, legality, starter,
    bot heuristic, scoring) and of the round state machine held by the
    [App] component ([startGame], [applyMove], [handlePass],
    [handleRoundEnd], the game-loop effect, [executeBotTurn],
    [onUserTileClick], [getVisualChain]), with what the render derives
    from the state for the user's hand and the score board, and the dot
    grid of [components/DominoTile.tsx].

    Conventions of the embedding:
    - a JS [number] that holds a pip, a score, a seat or a team is a [Z];
    - [number | null] is [option Z];
    - a call that would raise a [TypeError] (reading a field of
      [undefined], spreading [undefined]) returns [None];
    - a React state updater [setGameState (prev => next)] is the function
      from [prev] to [next]; an action the game loop schedules with
      [setTimeout] runs on the state it was scheduled in;
    - [Math.random] is an explicit sequence of draws;
    - [passHistory], a JS object keyed by seat, is a [gmap Z (list Z)]. *)

From stdpp Require Import gmap strings list pretty.
From Stdlib Require Import ZArith Lia.

Local Open Scope Z_scope.

(** * The program *)

(** ** Types ([types.ts]) *)

(** [type Tile = [number, number]] *)
Definition Tile : Type := Z * Z.

(** ['left' | 'right'] *)
Inductive Side : Type := SideLeft | SideRight.

Global Instance Side_eq_dec : EqDecision Side.
Proof. solve_decision. Defined.

(** [interface Move { tile; side }] *)
Record Move : Type := mkMove { tile : Tile; side : Side }.

Global Instance Move_eq_dec : EqDecision Move.
Proof. solve_decision. Defined.

(** [interface Player { id; name; isBot; hand; team }]; the field [id] is
    spelled [pid] and [name] is [pname]. *)
Record Player : Type := mkPlayer {
  pid : Z;
  pname : string;
  isBot : bool;
  hand : list Tile;
  team : Z
}.

(** ['idle' | 'playing' | 'round_over'] *)
Inductive Status : Type := idle | playing | round_over.

Global Instance Status_eq_dec : EqDecision Status.
Proof. solve_decision. Defined.

(** ['domino' | 'tranque'] *)
Inductive Reason : Type := domino | tranque.

(** The [winner] record of [GameState]. *)
Record Winner : Type := mkWinner {
  wteam : Z;
  reason : Reason;
  points : Z
}.

(** [interface GameState] *)
Record GameState : Type := mkGameState {
  players : list Player;
  board : list Tile;
  boneyard : list Tile;
  leftEnd : option Z;
  rightEnd : option Z;
  currentPlayerIndex : Z;
  status : Status;
  logs : list string;
  winner : option Winner;
  passHistory : gmap Z (list Z)
}.

(** [arr[i]] for a JS number [i]: [undefined] outside the array. *)
Definition at_index {A : Type} (l : list A) (i : Z) : option A :=
  if i <? 0 then None else l !! Z.to_nat i.

(** ** Tiles and deck ([gameLogic.ts]) *)

Definition generateDeck : list Tile :=
  flat_map (fun i => map (fun j => (i, j)) (seqZ i (10 - i))) (seqZ 0 10).

(** [[newDeck[i], newDeck[j]] = [newDeck[j], newDeck[i]]], for indices
    inside the array. *)
Definition swapAt (newDeck : list Tile) (i j : nat) : list Tile :=
  match newDeck !! i, newDeck !! j with
  | Some x, Some y => <[j := x]> (<[i := y]> newDeck)
  | _, _ => newDeck
  end.

(** The loop [for (i = ...; i > 0; i--)] of [shuffleDeck]; [draw i] is the
    value [Math.floor (Math.random () * (i + 1))] takes at index [i], a
    number from 0 to [i]. *)
Fixpoint shuffleLoop (draw : nat -> nat) (i : nat) (newDeck : list Tile) : list Tile :=
  match i with
  | O => newDeck
  | S i' => shuffleLoop draw i' (swapAt newDeck i (draw i))
  end.

Definition shuffleDeck (draw : nat -> nat) (deck : list Tile) : list Tile :=
  shuffleLoop draw (length deck - 1) deck.

Definition getTileSum (t : Tile) : Z := t.1 + t.2.

Definition isDouble (t : Tile) : bool := t.1 =? t.2.

Definition areTilesEqual (t1 t2 : Tile) : bool :=
  ((t1.1 =? t2.1) && (t1.2 =? t2.2)) || ((t1.1 =? t2.2) && (t1.2 =? t2.1)).

(** ** Starter determination *)

Record Starter : Type := mkStarter { starterIndex : Z; startTile : Tile }.

(** The inner loop [for (pIndex = 0; pIndex < players.length; pIndex++)]
    of the doubles scan, started at seat [pIndex]. *)
Fixpoint findHolder (target : Tile) (ps : list Player) (pIndex : Z)
  : option Starter :=
  match ps with
  | [] => None
  | p :: ps' =>
      if existsb (fun t => areTilesEqual t target) (hand p)
      then Some (mkStarter pIndex
                   (default target
                      (List.find (fun t => areTilesEqual t target) (hand p))))
      else findHolder target ps' (pIndex + 1)
  end.

(** The outer loop [for (i = 9; i >= 0; i--)], as [scanDoubles 10]:
    [scanDoubles n] tries the doubles [n-1], ..., [0] in that order. *)
Fixpoint scanDoubles (n : nat) (ps : list Player) : option Starter :=
  match n with
  | O => None
  | S k =>
      match findHolder (Z.of_nat k, Z.of_nat k) ps 0 with
      | Some r => Some r
      | None => scanDoubles k ps
      end
  end.

(** The three locals [highestSum], [starterIndex], [startTile] of the
    fallback scan. *)
Record Highest : Type := mkHighest { highestSum : Z; hIndex : Z; hTile : Tile }.

(** Body of the inner [p.hand.forEach]. *)
Definition highestTile (idx : Z) (acc : Highest) (t : Tile) : Highest :=
  let s := getTileSum t in
  if s >? highestSum acc then mkHighest s idx t else acc.

(** [players.forEach((p, idx) => ...)] from seat [idx] on. *)
Fixpoint highestScan (ps : list Player) (idx : Z) (acc : Highest) : Highest :=
  match ps with
  | [] => acc
  | p :: ps' => highestScan ps' (idx + 1) (fold_left (highestTile idx) (hand p) acc)
  end.

Definition determineStarter (ps : list Player) (boneyard : list Tile) : Starter :=
  match scanDoubles 10 ps with
  | Some r => r
  | None =>
      let h := highestScan ps 0 (mkHighest (-1) 0 (0, 0)) in
      mkStarter (hIndex h) (hTile h)
  end.

(** ** Legality *)

(** The test [a === end || b === end] on a tile [[a, b]]. *)
Definition fits (e : Z) (t : Tile) : bool := (t.1 =? e) || (t.2 =? e).

(** Body of [hand.forEach] in [getValidMoves]. The [uniqueTiles] set of the
    source is only ever written, so it is left out. *)
Definition pushMoves (l r : Z) (moves : list Move) (t : Tile) : list Move :=
  let moves := if fits l t then moves ++ [mkMove t SideLeft] else moves in
  if fits r t then moves ++ [mkMove t SideRight] else moves.

Definition getValidMoves (hand : list Tile) (leftEnd rightEnd : option Z)
  : list Move :=
  match leftEnd, rightEnd with
  | Some l, Some r => fold_left (pushMoves l r) hand []
  | _, _ => map (fun t => mkMove t SideLeft) hand
  end.

(** ** Bot heuristic *)

Record Scored : Type := mkScored { move : Move; score : Z }.

(** [x === e] for [x : number] and [e : number | null]. *)
Definition eqEnd (x : Z) (e : option Z) : bool :=
  match e with Some v => x =? v | None => false end.

(** [arr.includes(x)] on numbers. *)
Definition includes (x : Z) (l : list Z) : bool := existsb (Z.eqb x) l.

(** The callback of [validMoves.map] in [calculateBotMove]. *)
Definition scoreMove (leftEnd rightEnd : option Z) (passHistory : gmap Z (list Z))
    (nextPlayerId : Z) (m : Move) : Scored :=
  let score := 0 in
  let t := tile m in
  let pipSum := getTileSum t in
  let score := score + pipSum in
  let currentEnd := match side m with SideLeft => leftEnd | SideRight => rightEnd end in
  let newOpenEnd := if eqEnd t.1 currentEnd then t.2 else t.1 in
  let nextPlayerPasses := default [] (passHistory !! nextPlayerId) in
  let score := if includes newOpenEnd nextPlayerPasses then score + 25 else score in
  let score := if isDouble t then score + 10 else score in
  mkScored m score.

(** [Array.prototype.sort] is a stable sort; with a comparator that is a
    consistent order its result is the unique stable arrangement, computed
    here by insertion from the right. [cmp a b <= 0] keeps [a], which came
    first, in front of [b]. *)
Fixpoint insertBy {A : Type} (cmp : A -> A -> Z) (x : A) (l : list A) : list A :=
  match l with
  | [] => [x]
  | y :: l' => if cmp x y <=? 0 then x :: l else y :: insertBy cmp x l'
  end.

Definition sortBy {A : Type} (cmp : A -> A -> Z) (l : list A) : list A :=
  foldr (insertBy cmp) [] l.

Definition calculateBotMove (hand : list Tile) (leftEnd rightEnd : option Z)
    (passHistory : gmap Z (list Z)) (nextPlayerId : Z) : option Move :=
  let validMoves := getValidMoves hand leftEnd rightEnd in
  match validMoves with
  | [] => None
  | [m] => Some m
  | _ =>
      let scoredMoves := map (scoreMove leftEnd rightEnd passHistory nextPlayerId) validMoves in
      let scoredMoves := sortBy (fun a b => score b - score a) scoredMoves in
      move <$> head scoredMoves
  end.

(** ** Scoring *)

Record Scores : Type := mkScores { team0 : Z; team1 : Z }.

(** [hand.reduce((acc, t) => acc + getTileSum(t), 0)] *)
Definition handPips (h : list Tile) : Z :=
  fold_left (fun acc t => acc + getTileSum t) h 0.

(** Body of [players.forEach] in [calculateScores]. *)
Definition scoreStep (sc : Scores) (p : Player) : Scores :=
  let pips := handPips (hand p) in
  if team p =? 0 then mkScores (team0 sc + pips) (team1 sc)
  else mkScores (team0 sc) (team1 sc + pips).

Definition calculateScores (ps : list Player) : Scores :=
  fold_left scoreStep ps (mkScores 0 0).

(** ** The round state machine ([App.tsx]) *)

Definition initialPassHistory : gmap Z (list Z) :=
  <[0 := []]> (<[1 := []]> (<[2 := []]> (<[3 := []]> ∅))).

Definition initialGameState : GameState :=
  {| players := []; board := []; boneyard := [];
     leftEnd := None; rightEnd := None;
     currentPlayerIndex := 0; status := idle; logs := [];
     winner := None; passHistory := initialPassHistory |}.

(** [(current - 1 + 4) % 4]; the JS remainder takes the sign of the
    dividend, like [Z.rem]. *)
Definition getNextPlayerIndex (current : Z) : Z := Z.rem (current - 1 + 4) 4.

(** [arr.slice(a, b)] for [0 <= a <= b]. *)
Definition slice {A : Type} (a b : nat) (l : list A) : list A :=
  take (b - a)%nat (drop a l).

(** [`[${t[0]}|${t[1]}]`] *)
Definition showTile (t : Tile) : string :=
  "[" +:+ pretty t.1 +:+ "|" +:+ pretty t.2 +:+ "]".

Definition showSide (sd : Side) : string :=
  match sd with SideLeft => "left" | SideRight => "right" end.

Definition setHand (p : Player) (h : list Tile) : Player :=
  {| pid := pid p; pname := pname p; isBot := isBot p; hand := h; team := team p |}.

(** [startGame], for the random draws [shuffleDeck] makes. The assignment
    [starter.hand = ...] writes through to the object stored in
    [players]. *)
Definition startGame (draw : nat -> nat) : option GameState :=
  let deck := shuffleDeck draw generateDeck in
  let players :=
    [ mkPlayer 0 "You" false (slice 0 10 deck) 0;
      mkPlayer 1 "Bot 1 (Left)" true (slice 10 20 deck) 1;
      mkPlayer 2 "Bot 2 (Partner)" true (slice 20 30 deck) 0;
      mkPlayer 3 "Bot 3 (Right)" true (slice 30 40 deck) 1 ] in
  let boneyard := drop 40 deck in
  let st := determineStarter players boneyard in
  match at_index players (starterIndex st) with
  | None => None
  | Some starter =>
      let startTile := startTile st in
      let starter :=
        setHand starter
          (List.filter (fun t => negb (areTilesEqual t startTile)) (hand starter)) in
      let players := <[Z.to_nat (starterIndex st) := starter]> players in
      let actualNextIndex := getNextPlayerIndex (starterIndex st) in
      Some {| players := players;
              board := [startTile];
              boneyard := boneyard;
              leftEnd := Some startTile.1;
              rightEnd := Some startTile.2;
              currentPlayerIndex := actualNextIndex;
              status := playing;
              logs := ["Game Started. " +:+ pname starter +:+ " leads with "
                         +:+ showTile startTile +:+ "."];
              winner := None;
              passHistory := initialPassHistory |}
  end.

(** The list [missed] built by [handlePass]. *)
Definition missedEnds (l r : option Z) : list Z :=
  let missed := match l with Some x => [x] | None => [] end in
  match r with
  | Some y => if bool_decide (r ≠ l) then missed ++ [y] else missed
  | None => missed
  end.

(** The updater of [handlePass]; spreading [prev.passHistory[player.id]]
    raises when the seat has no entry. *)
Definition handlePass (player : Player) (prev : GameState) : option GameState :=
  let missed := missedEnds (leftEnd prev) (rightEnd prev) in
  match passHistory prev !! pid player with
  | None => None
  | Some h =>
      let newPassHistory := <[pid player := h ++ missed]> (passHistory prev) in
      Some {| players := players prev;
              board := board prev;
              boneyard := boneyard prev;
              leftEnd := leftEnd prev;
              rightEnd := rightEnd prev;
              currentPlayerIndex := getNextPlayerIndex (currentPlayerIndex prev);
              status := status prev;
              logs := logs prev ++ [pname player +:+ " passes (Knock)."];
              winner := winner prev;
              passHistory := newPassHistory |}
  end.

(** The updater of [handleRoundEnd]. *)
Definition handleRoundEnd (reason : Reason) (winningTeam : Z) (prev : GameState)
  : GameState :=
  let scores := calculateScores (players prev) in
  let points := if winningTeam =? 0 then team1 scores else team0 scores in
  {| players := players prev;
     board := board prev;
     boneyard := boneyard prev;
     leftEnd := leftEnd prev;
     rightEnd := rightEnd prev;
     currentPlayerIndex := currentPlayerIndex prev;
     status := round_over;
     logs := logs prev ++
       ["Round Over! " +:+ (if winningTeam =? 0 then "Your team" else "Opponents")
          +:+ " won via " +:+ (match reason with domino => "domino" | tranque => "tranque" end)
          +:+ ". Points: " +:+ pretty points +:+ "."];
     winner := Some (mkWinner winningTeam reason points);
     passHistory := passHistory prev |}.

(** The end an [applyMove] branch computes: the other pip of the tile when
    one of its pips [===] the current end, the current end otherwise. *)
Definition newEnd (t : Tile) (e : option Z) : option Z :=
  if eqEnd t.1 e then Some t.2
  else if eqEnd t.2 e then Some t.1
  else e.

(** The updater of [applyMove]; [player.hand] raises when no player has
    the given id. *)
Definition applyMove (playerId : Z) (tile : Tile) (side : Side) (prev : GameState)
  : option GameState :=
  match List.find (fun p => pid p =? playerId) (players prev) with
  | None => None
  | Some player =>
      let newHand := List.filter (fun t => negb (areTilesEqual t tile)) (hand player) in
      let newPlayers :=
        map (fun p => if pid p =? playerId then setHand p newHand else p) (players prev) in
      let newLeft := leftEnd prev in
      let newRight := rightEnd prev in
      let newBoard := board prev in
      let '(newLeft, newRight, newBoard) :=
        match side with
        | SideLeft => (newEnd tile newLeft, newRight, tile :: newBoard)
        | SideRight => (newLeft, newEnd tile newRight, newBoard ++ [tile])
        end in
      Some {| players := newPlayers;
              board := newBoard;
              boneyard := boneyard prev;
              leftEnd := newLeft;
              rightEnd := newRight;
              currentPlayerIndex := getNextPlayerIndex (currentPlayerIndex prev);
              status := status prev;
              logs := logs prev ++
                [pname player +:+ " plays " +:+ showTile tile +:+ " on the "
                   +:+ showSide side +:+ "."];
              winner := winner prev;
              passHistory := passHistory prev |}
  end.

(** [executeBotTurn]: the bot reads the state it was scheduled in, which is
    the state the updater then receives. *)
Definition executeBotTurn (bot : Player) (s : GameState) : option GameState :=
  let nextPlayerId := getNextPlayerIndex (pid bot) in
  match calculateBotMove (hand bot) (leftEnd s) (rightEnd s) (passHistory s) nextPlayerId with
  | Some m => applyMove (pid bot) (tile m) (side m) s
  | None => handlePass bot s
  end.

(** [onUserTileClick]; [choice] is what [window.confirm] answers when it is
    asked. A click that is ignored returns the state as it was. *)
Definition onUserTileClick (t : Tile) (choice : bool) (s : GameState)
  : option GameState :=
  if negb (currentPlayerIndex s =? 0) || negb (bool_decide (status s = playing))
  then Some s
  else
    match getValidMoves [t] (leftEnd s) (rightEnd s) with
    | [] => Some s
    | [m] => applyMove 0 t (side m) s
    | _ =>
        if bool_decide (leftEnd s = rightEnd s) then applyMove 0 t SideLeft s
        else applyMove 0 t (if choice then SideLeft else SideRight) s
    end.

(** The callback of [board.map] in [getVisualChain], with the local
    [expectedMatch] threaded through the walk. *)
Fixpoint orientFrom (expectedMatch : option Z) (b : list Tile) : list Tile :=
  match b with
  | [] => []
  | t :: b' =>
      if eqEnd t.1 expectedMatch
      then (t.1, t.2) :: orientFrom (Some t.2) b'
      else (t.2, t.1) :: orientFrom (Some t.1) b'
  end.

Definition getVisualChain (s : GameState) : list Tile :=
  if (length (board s) =? 0)%nat then []
  else orientFrom (leftEnd s) (board s).

(** The two locals [minPips], [winningTeam] of the tranque scan. *)
Record Lowest : Type := mkLowest { minPips : Z; winningTeam : Z }.

Definition lowestStep (acc : Lowest) (p : Player) : Lowest :=
  let pips := handPips (hand p) in
  if pips <? minPips acc then mkLowest pips (team p)
  else if pips =? minPips acc then mkLowest (minPips acc) (team p)
  else acc.

(** What one run of the game-loop effect does. *)
Inductive Effect : Type :=
  | NoEffect                                  (* returns without acting *)
  | RoundEnd (r : Reason) (winningTeam : Z)   (* handleRoundEnd (r, winningTeam) *)
  | BotTurn (bot : Player)                    (* schedules executeBotTurn *)
  | AutoPass (player : Player).               (* schedules handlePass *)

(** The game-loop effect; [currentPlayer.hand] raises when the turn
    pointer is outside [players]. *)
Definition gameLoop (s : GameState) : option Effect :=
  match status s with
  | playing =>
      match at_index (players s) (currentPlayerIndex s) with
      | None => None
      | Some currentPlayer =>
          if (length (hand currentPlayer) =? 0)%nat
          then Some (RoundEnd domino (team currentPlayer))
          else
            let anyValidMove :=
              existsb (fun p =>
                 (0 <? length (getValidMoves (hand p) (leftEnd s) (rightEnd s)))%nat)
                (players s) in
            if negb anyValidMove && (0 <? length (board s))%nat
            then
              let low := fold_left lowestStep (players s) (mkLowest 1000 (-1)) in
              Some (RoundEnd tranque (winningTeam low))
            else if isBot currentPlayer then Some (BotTurn currentPlayer)
            else
              let validMoves :=
                getValidMoves (hand currentPlayer) (leftEnd s) (rightEnd s) in
              if (length validMoves =? 0)%nat && (0 <? length (board s))%nat
              then Some (AutoPass currentPlayer)
              else Some NoEffect
      end
  | _ => Some NoEffect
  end.

(** One transition of the application: a press on the start button, shown
    while no round is being played, with some random draws; the action the
    game loop takes; or a click of the user on a tile of their hand. *)
Inductive step : GameState -> GameState -> Prop :=
  | step_start s draw s' :
      status s <> playing ->
      (forall i, (draw i <= i)%nat) ->
      startGame draw = Some s' ->
      step s s'
  | step_round_end s r w :
      gameLoop s = Some (RoundEnd r w) ->
      step s (handleRoundEnd r w s)
  | step_bot s bot s' :
      gameLoop s = Some (BotTurn bot) ->
      executeBotTurn bot s = Some s' ->
      step s s'
  | step_auto_pass s p s' :
      gameLoop s = Some (AutoPass p) ->
      handlePass p s = Some s' ->
      step s s'
  | step_click s user t choice s' :
      at_index (players s) 0 = Some user ->
      t ∈ hand user ->
      onUserTileClick t choice s = Some s' ->
      step s s'.

Inductive reachable : GameState -> Prop :=
  | reachable_init : reachable initialGameState
  | reachable_step s s' : reachable s -> step s s' -> reachable s'.

(** ** Running the application *)

(** What drives the application: a press on Start with the random draws
    of the shuffle, listed by index, the action the game loop has
    scheduled, a click on a tile. *)
Inductive Action : Type :=
  | Start (draws : list nat)
  | Loop
  | Click (t : Tile) (choice : bool).

Definition drawOf (draws : list nat) (i : nat) : nat := default O (draws !! i).

Definition drawsOk (draws : list nat) : bool :=
  forallb (fun i => (drawOf draws i <=? i)%nat) (seq 0 (length draws)).

Definition act (a : Action) (s : GameState) : option GameState :=
  match a with
  | Start draws =>
      if bool_decide (status s <> playing) && drawsOk draws
      then startGame (drawOf draws) else None
  | Loop =>
      match gameLoop s with
      | Some (RoundEnd r w) => Some (handleRoundEnd r w s)
      | Some (BotTurn bot) => executeBotTurn bot s
      | Some (AutoPass p) => handlePass p s
      | _ => None
      end
  | Click t choice =>
      match at_index (players s) 0 with
      | Some user =>
          if bool_decide (t ∈ hand user) then onUserTileClick t choice s else None
      | None => None
      end
  end.

Fixpoint run (acts : list Action) (s : GameState) : option GameState :=
  match acts with
  | [] => Some s
  | a :: acts' =>
      match act a s with
      | Some s' => run acts' s'
      | None => None
      end
  end.

(** The draws of a shuffle used in the examples below, the deck they
    give, and the round played from it: the user clicks, the bots follow
    the game loop. *)
Definition exampleDraws : list nat :=
  [0; 0; 2; 0; 4; 1; 4; 3; 8; 7; 1; 3; 5; 0; 10; 3; 12; 12; 2; 3; 8; 3; 12; 15;
   13; 16; 8; 22; 0; 24; 7; 31; 5; 25; 12; 31; 24; 29; 31; 29; 1; 41; 25; 13;
   32; 15; 8; 5; 2; 45; 12; 8; 24; 23; 14]%nat.

Definition exampleDeck : list Tile :=
  [(3, 9); (0, 9); (1, 9); (4, 7); (0, 6); (9, 9); (0, 4); (1, 2); (2, 3); (3, 6);
   (5, 5); (8, 9); (5, 9); (3, 4); (1, 1); (2, 2); (1, 8); (3, 3); (6, 9); (2, 4);
   (2, 9); (0, 3); (4, 4); (7, 7); (5, 8); (1, 7); (6, 7); (2, 5); (0, 0); (4, 6);
   (0, 7); (4, 5); (6, 8); (5, 7); (7, 8); (4, 8); (8, 8); (4, 9); (3, 7); (3, 5);
   (0, 1); (5, 6); (2, 8); (1, 4); (3, 8); (1, 6); (7, 9); (0, 5); (0, 2); (6, 6);
   (1, 3); (0, 8); (2, 7); (2, 6); (1, 5)].

Definition exampleRound : list Action :=
  [Start exampleDraws; Loop; Loop; Loop;
   Click (0, 4) true; Loop; Loop; Loop;
   Click (0, 9) true; Loop; Loop; Loop;
   Click (4, 7) false; Loop; Loop; Loop;
   Click (3, 6) false; Loop; Loop; Loop;
   Click (1, 2) true; Loop; Loop; Loop;
   Click (0, 6) false; Loop; Loop; Loop;
   Click (2, 3) true; Loop; Loop; Loop;
   Click (1, 9) false; Loop; Loop; Loop;
   Click (3, 9) false; Loop; Loop; Loop].

(** A second shuffle, and a round from it that locks after seven plays. *)
Definition lockedDraws : list nat :=
  [0; 0; 1; 0; 2; 5; 5; 5; 5; 9; 3; 7; 11; 8; 13; 4; 4; 14; 13; 1; 8; 4; 14; 5;
   24; 23; 12; 6; 12; 28; 1; 15; 2; 28; 9; 20; 5; 16; 21; 27; 28; 39; 26; 40;
   30; 44; 3; 1; 34; 32; 33; 18; 26; 45; 31]%nat.

Definition lockedDeck : list Tile :=
  [(9, 9); (1, 1); (2, 2); (0, 0); (7, 7); (5, 6); (5, 7); (1, 8); (2, 8); (6, 9);
   (6, 7); (0, 7); (1, 2); (4, 5); (7, 9); (4, 7); (4, 8); (2, 5); (1, 4); (8, 9);
   (0, 8); (0, 4); (1, 5); (4, 6); (2, 7); (2, 6); (3, 5); (0, 6); (1, 3); (7, 8);
   (6, 8); (1, 6); (0, 2); (5, 8); (0, 9); (2, 3); (0, 5); (1, 7); (2, 4); (3, 3);
   (3, 4); (4, 9); (8, 8); (5, 5); (3, 6); (5, 9); (0, 3); (0, 1); (4, 4); (3, 8);
   (3, 9); (1, 9); (2, 9); (6, 6); (3, 7)].

Definition lockedRound : list Action :=
  [Start lockedDraws; Loop; Loop; Loop; Click (6, 9) true; Loop; Loop; Loop].

(** A third shuffle, dealing the hands of [lockedDeck] with one tile of
    seat 2 exchanged for one of the boneyard; the same round locks with
    seats 2 and 3 both holding the lowest total. *)
Definition tiedDraws : list nat :=
  [0; 0; 1; 0; 2; 5; 5; 7; 7; 9; 3; 7; 11; 8; 13; 4; 4; 14; 13; 1; 8; 4; 14; 12;
   24; 23; 5; 6; 12; 5; 1; 15; 2; 5; 9; 20; 5; 16; 21; 27; 36; 39; 26; 40; 30;
   44; 3; 1; 34; 32; 33; 18; 26; 45; 31]%nat.

Definition tiedRound : list Action :=
  [Start tiedDraws; Loop; Loop; Loop; Click (6, 9) true; Loop; Loop; Loop].

(** ** The tile component and the user's hand ([DominoTile.tsx], [App.tsx]) *)

(** [cells.forEach (i => pips[i] = true)] *)
Definition setPips (cells : list nat) (pips : list bool) : list bool :=
  fold_left (fun acc i => <[i := true]> acc) cells pips.

(** The array [pips] that [Pips] builds for a half tile: nine cells of a
    3 x 3 grid, row by row, [true] where a dot is drawn. *)
Definition Pips (number : Z) : list bool :=
  let pips := replicate 9 false in
  let pips := if number =? 1 then setPips [4]%nat pips else pips in
  let pips := if number =? 2 then setPips [0; 8]%nat pips else pips in
  let pips := if number =? 3 then setPips [0; 4; 8]%nat pips else pips in
  let pips := if number =? 4 then setPips [0; 2; 6; 8]%nat pips else pips in
  let pips := if number =? 5 then setPips [0; 2; 4; 6; 8]%nat pips else pips in
  let pips := if number =? 6 then setPips [0; 2; 3; 5; 6; 8]%nat pips else pips in
  let pips := if number =? 7 then setPips [0; 2; 3; 4; 5; 6; 8]%nat pips else pips in
  let pips := if number =? 8 then setPips [0; 1; 2; 3; 5; 6; 7; 8]%nat pips else pips in
  let pips := if number =? 9 then setPips [0; 1; 2; 3; 4; 5; 6; 7; 8]%nat pips else pips in
  pips.

(** The flag [isValid] the render computes for a tile of the user's hand. *)
Definition isValid (s : GameState) (t : Tile) : bool :=
  (currentPlayerIndex s =? 0) && bool_decide (status s = playing) &&
  (0 <? length (getValidMoves [t] (leftEnd s) (rightEnd s)))%nat.

(** The [disabled] property the render passes to that tile. *)
Definition disabled (s : GameState) (t : Tile) : bool :=
  negb (currentPlayerIndex s =? 0) || negb (bool_decide (status s = playing)) ||
  (negb (isValid s t) && (0 <? length (board s))%nat).

(** What a click on the tile does: [onClick={!disabled ? onClick : undefined}]
    with [onClick = () => onUserTileClick (tile)]. *)
Definition tileOnClick (t : Tile) (choice : bool) (s : GameState) : option GameState :=
  if disabled s t then Some s else onUserTileClick t choice s.

(** ** The score board ([App.tsx]) *)

(** The two numbers of the score board, for team 0 and for team 1:
    [winner?.team === k ? `+${winner.points}` : '0']. *)
Definition scoreBoard (s : GameState) : string * string :=
  (match winner s with
   | Some w => if wteam w =? 0 then "+" +:+ pretty (points w) else "0"
   | None => "0"
   end,
   match winner s with
   | Some w => if wteam w =? 1 then "+" +:+ pretty (points w) else "0"
   | None => "0"
   end).

(** * Vocabulary of the statements *)

Definition isLeft (m : Move) : bool :=
  match side m with SideLeft => true | SideRight => false end.

Definition isRight (m : Move) : bool := negb (isLeft m).

(** The entries one hand tile contributes on a board with both ends set. *)
Definition entries (l r : Z) (t : Tile) : list Move :=
  (if fits l t then [mkMove t SideLeft] else []) ++
  (if fits r t then [mkMove t SideRight] else []).

(** The score the bot gives a move. *)
Definition moveScore (le re : option Z) (ph : gmap Z (list Z)) (next : Z)
    (m : Move) : Z :=
  score (scoreMove le re ph next m).

Definition sumZ (l : list Z) : Z := foldr Z.add 0 l.

(** Sum of [getTileSum] over the tiles in the hands of team [k]. *)
Definition teamPips (k : Z) (ps : list Player) : Z :=
  sumZ (map (fun p => sumZ (map getTileSum (hand p)))
          (List.filter (fun p => team p =? k) ps)).

(** A tile as an unordered pair. *)
Definition canon (t : Tile) : Tile := (Z.min t.1 t.2, Z.max t.1 t.2).

(** No two tiles of the hand are equal as unordered pairs. *)
Definition distinctTiles (h : list Tile) : Prop := NoDup (canon <$> h).

(** Both pips are between 0 and 9. *)
Definition inRange (t : Tile) : Prop := (0 <= t.1 <= 9) /\ (0 <= t.2 <= 9).

Global Instance inRange_dec t : Decision (inRange t).
Proof. unfold inRange. apply _. Defined.

(** A hand as a deal can leave it: distinct tiles of the double-9 set, ten
    at most. *)
Record handOk (h : list Tile) : Prop := mkHandOk {
  hand_distinct : distinctTiles h;
  hand_range : Forall inRange h;
  hand_size : (length h <= 10)%nat
}.

(** [Chain l b r]: read from left to right, the tiles of [b] can be laid
    so that the first shows [l] outwards, each two neighbours meet on a
    common pip, and the last shows [r] outwards. *)
Inductive Chain : Z -> list Tile -> Z -> Prop :=
  | chain_nil a : Chain a [] a
  | chain_cons a b ts c : Chain b ts c -> Chain a ((a, b) :: ts) c
  | chain_flip a b ts c : Chain b ts c -> Chain a ((b, a) :: ts) c.

(** The boolean form of [Chain]. *)
Fixpoint chained (l : Z) (b : list Tile) (r : Z) : bool :=
  match b with
  | [] => l =? r
  | t :: b' => ((t.1 =? l) && chained t.2 b' r) || ((t.2 =? l) && chained t.1 b' r)
  end.

(** [Oriented l b r]: the tiles of [b], laid as written, run from [l] to
    [r] with each right pip equal to the next left pip. *)
Inductive Oriented : Z -> list Tile -> Z -> Prop :=
  | oriented_nil a : Oriented a [] a
  | oriented_cons a b ts c : Oriented b ts c -> Oriented a ((a, b) :: ts) c.

(** What holds of the state from the first deal on. *)
Record good (s : GameState) : Prop := mkGood {
  good_ids : pid <$> players s = [0; 1; 2; 3];
  good_teams : team <$> players s = [0; 1; 0; 1];
  good_hands : forall p, p ∈ players s -> handOk (hand p);
  good_chain : exists l r,
      leftEnd s = Some l /\ rightEnd s = Some r /\ Chain l (board s) r;
  good_board : board s <> [];
  good_passes : forall k, 0 <= k < 4 -> is_Some (passHistory s !! k);
  good_turn : 0 <= currentPlayerIndex s < 4
}.

(** Every tile the state holds: the hands in seat order, the board, the
    boneyard. *)
Definition allTiles (s : GameState) : list Tile :=
  flat_map hand (players s) ++ board s ++ boneyard s.

(** Playing [m] on a board with ends [le] and [re] would leave, on the side
    played, an end that is among the passes recorded for seat [next]. *)
Definition blocksNext (le re : option Z) (ph : gmap Z (list Z)) (next : Z)
    (m : Move) : bool :=
  match newEnd (tile m) (match side m with SideLeft => le | SideRight => re end) with
  | Some x => includes x (default [] (ph !! next))
  | None => false
  end.

(** The number of cells with a dot. *)
Definition dots (pips : list bool) : nat := length (List.filter id pips).

(** What more holds of the state from the first deal on: the tiles of the
    deck are all there, once each, fifteen of them in the boneyard; seat 0
    is the user and the other seats are bots; and a pip in the pass
    history of a seat is a pip that seat's hand does not hold. *)
Record settled (s : GameState) : Prop := mkSettled {
  settled_tiles : allTiles s ≡ₚ generateDeck;
  settled_boneyard : length (boneyard s) = 15%nat;
  settled_bots : isBot <$> players s = [false; true; true; true];
  settled_passes : forall p h v t,
      p ∈ players s -> passHistory s !! pid p = Some h -> v ∈ h -> t ∈ hand p ->
      fits v t = false
}.

(** The seat has a legal move on the current ends: the test the game loop
    makes for every player. *)
Definition canPlay (s : GameState) (p : Player) : bool :=
  (0 <? length (getValidMoves (hand p) (leftEnd s) (rightEnd s)))%nat.

(** How many seats in a row, from seat [c] on in turn order and [n] at
    most, have no legal move. *)
Fixpoint waiting (s : GameState) (n : nat) (c : Z) : nat :=
  match n with
  | O => O
  | S n' =>
      match at_index (players s) c with
      | Some p => if canPlay s p then O else S (waiting s n' (getNextPlayerIndex c))
      | None => O
      end
  end.

(** A bound on what is left of the round: five for every tile still in a
    hand, and one for every seat that has to pass before a seat can play. *)
Definition roundMeasure (s : GameState) : nat :=
  (5 * length (flat_map hand (players s)) + waiting s 4 (currentPlayerIndex s))%nat.

(** What the state records of the round: nothing before the first deal, no
    winner while a round is played, and after it a winner, team 0 or team
    1, with the pips left in the hands of the other team as points. *)
Definition recorded (s : GameState) : Prop :=
  match status s with
  | idle => s = initialGameState
  | playing => winner s = None
  | round_over =>
      exists w, winner s = Some w /\ (wteam w = 0 \/ wteam w = 1) /\
                points w = teamPips (1 - wteam w) (players s) /\ 0 <= points w
  end.

(** [later s s']: the state [s'] continues the round of [s]. The players
    are the same, each with some of the tiles they had, in the order they
    had them; the board has the tiles it had, in their order; the boneyard
    is the same; the log and every pass history have grown at their end. *)
Record later (s s' : GameState) : Prop := mkLater {
  later_players :
    Forall2 (fun p p' => pid p' = pid p /\ pname p' = pname p /\ isBot p' = isBot p /\
                         team p' = team p /\ hand p' `sublist_of` hand p)
            (players s) (players s');
  later_board : board s `sublist_of` board s';
  later_boneyard : boneyard s' = boneyard s;
  later_logs : logs s `prefix_of` logs s';
  later_passes : forall k h, passHistory s !! k = Some h ->
                   exists h', passHistory s' !! k = Some h' /\ h `prefix_of` h'
}.

(** * Tactics *)

(** Case analysis on membership in a list given by its elements. *)
Ltac in_cases H :=
  repeat (apply elem_of_cons in H as [-> | H]);
  [.. | by apply elem_of_nil in H].

(** * Legality: [getValidMoves] *)

Lemma pushMoves_entries l r moves t :
  pushMoves l r moves t = moves ++ entries l r t.
Proof.
  unfold pushMoves, entries.
  destruct (fits l t), (fits r t); simpl;
    rewrite <- ?app_assoc, ?app_nil_r; reflexivity.
Qed.

Lemma fold_pushMoves l r hand acc :
  fold_left (pushMoves l r) hand acc = acc ++ flat_map (entries l r) hand.
Proof.
  revert acc. induction hand as [|t hand IH]; intros acc; simpl.
  - by rewrite app_nil_r.
  - rewrite IH, pushMoves_entries, <- app_assoc. reflexivity.
Qed.

Lemma getValidMoves_flat hand l r :
  getValidMoves hand (Some l) (Some r) = flat_map (entries l r) hand.
Proof. unfold getValidMoves. by rewrite fold_pushMoves. Qed.

Lemma getValidMoves_null hand le re :
  le = None \/ re = None ->
  getValidMoves hand le re = map (fun t => mkMove t SideLeft) hand.
Proof.
  intros [-> | ->]; unfold getValidMoves; [reflexivity|].
  destruct le; reflexivity.
Qed.

Lemma flat_entries_left l r hand :
  List.filter isLeft (flat_map (entries l r) hand)
  = map (fun t => mkMove t SideLeft) (List.filter (fits l) hand).
Proof.
  induction hand as [|t hand IH]; simpl; [done|].
  rewrite List.filter_app, IH. unfold entries.
  destruct (fits l t), (fits r t); reflexivity.
Qed.

Lemma flat_entries_right l r hand :
  List.filter isRight (flat_map (entries l r) hand)
  = map (fun t => mkMove t SideRight) (List.filter (fits r) hand).
Proof.
  induction hand as [|t hand IH]; simpl; [done|].
  rewrite List.filter_app, IH. unfold entries.
  destruct (fits l t), (fits r t); reflexivity.
Qed.

Lemma flat_entries_length l r hand :
  length (flat_map (entries l r) hand)
  = (length (List.filter (fits l) hand) + length (List.filter (fits r) hand))%nat.
Proof.
  induction hand as [|t hand IH]; simpl; [done|].
  rewrite length_app, IH. unfold entries.
  destruct (fits l t), (fits r t); simpl; lia.
Qed.

Lemma flat_entries_nil l r hand :
  flat_map (entries l r) hand = [] <->
  forall t, t ∈ hand -> fits l t = false /\ fits r t = false.
Proof.
  induction hand as [|t hand IH]; simpl.
  - split; [intros _ t Ht; inversion Ht | done].
  - split.
    + intros H. apply app_eq_nil in H as [Ht Hrest].
      intros u Hu. apply elem_of_cons in Hu as [-> | Hu].
      * unfold entries in Ht. destruct (fits l t), (fits r t); done.
      * by apply IH.
    + intros H. destruct (H t) as [Hl Hr]; [left|].
      unfold entries at 1. rewrite Hl, Hr. simpl.
      apply IH. intros u Hu. apply H. by right.
Qed.

Lemma elem_of_getValidMoves hand l r m :
  m ∈ getValidMoves hand (Some l) (Some r) <->
  tile m ∈ hand /\
  match side m with SideLeft => fits l (tile m) | SideRight => fits r (tile m) end = true.
Proof.
  rewrite getValidMoves_flat, list_elem_of_In, in_flat_map.
  split.
  - intros (t & Ht & Hm). apply list_elem_of_In in Ht.
    unfold entries in Hm. apply in_app_or in Hm as [Hm | Hm].
    + destruct (fits l t) eqn:E; [|done]. destruct Hm as [<- | []]. done.
    + destruct (fits r t) eqn:E; [|done]. destruct Hm as [<- | []]. done.
  - intros [Ht Hs]. exists (tile m). split; [by apply list_elem_of_In|].
    destruct m as [t sd]; simpl in *. unfold entries. apply in_or_app.
    destruct sd; rewrite Hs; [left | right]; by left.
Qed.

(** The test of [getValidMoves], on the pips. *)
Lemma fits_decide e (t : Tile) : fits e t = bool_decide (t.1 = e \/ t.2 = e).
Proof.
  unfold fits. destruct (Z.eqb_spec t.1 e), (Z.eqb_spec t.2 e); simpl;
    symmetry; (apply bool_decide_eq_true_2 || apply bool_decide_eq_false_2); tauto.
Qed.

Lemma filter_fits e (hand : list Tile) :
  List.filter (fits e) hand
  = List.filter (fun t => bool_decide (t.1 = e \/ t.2 = e)) hand.
Proof. apply List.filter_ext. intros t. apply fits_decide. Qed.

(** C4. With an end unset, [getValidMoves] gives one left entry per hand
    tile, in hand order. With both ends set, its left entries are one per
    hand tile that has a pip equal to [leftEnd], in hand order, its right
    entries one per hand tile that has a pip equal to [rightEnd], and it
    has no others: a move is returned exactly when its tile is in the hand
    and one of the two pips of the tile is the end of its side. A tile
    with a pip equal to each end has both entries, also when the two ends
    are equal; the result is empty exactly when no pip of any hand tile
    equals either end. *)
Theorem getValidMoves_spec (hand : list Tile) :
  (forall le re, le = None \/ re = None ->
     tile <$> getValidMoves hand le re = hand /\
     length (getValidMoves hand le re) = length hand /\
     forall m, m ∈ getValidMoves hand le re -> side m = SideLeft) /\
  (forall l r,
     let moves := getValidMoves hand (Some l) (Some r) in
     let onLeft := List.filter (fun t => bool_decide (t.1 = l \/ t.2 = l)) hand in
     let onRight := List.filter (fun t => bool_decide (t.1 = r \/ t.2 = r)) hand in
     List.filter isLeft moves = map (fun t => mkMove t SideLeft) onLeft /\
     List.filter isRight moves = map (fun t => mkMove t SideRight) onRight /\
     length moves = (length onLeft + length onRight)%nat /\
     (forall m, m ∈ moves <->
        tile m ∈ hand /\
        match side m with
        | SideLeft => (tile m).1 = l \/ (tile m).2 = l
        | SideRight => (tile m).1 = r \/ (tile m).2 = r
        end) /\
     (forall t, t ∈ hand -> t.1 = l \/ t.2 = l -> t.1 = r \/ t.2 = r ->
        mkMove t SideLeft ∈ moves /\ mkMove t SideRight ∈ moves) /\
     (moves = [] <->
      forall t, t ∈ hand -> t.1 <> l /\ t.2 <> l /\ t.1 <> r /\ t.2 <> r)).
Proof.
  split.
  - intros le re Hnull. rewrite (getValidMoves_null _ _ _ Hnull).
    repeat split.
    + rewrite <- list_fmap_compose. apply list_fmap_id.
    + apply length_map.
    + intros m Hm. apply list_elem_of_fmap in Hm as (t & -> & _). done.
  - intros l r moves onLeft onRight. subst moves onLeft onRight.
    rewrite <- !filter_fits.
    assert (Hmem : forall m, m ∈ getValidMoves hand (Some l) (Some r) <->
              tile m ∈ hand /\
              match side m with
              | SideLeft => (tile m).1 = l \/ (tile m).2 = l
              | SideRight => (tile m).1 = r \/ (tile m).2 = r
              end).
    { intros m. rewrite elem_of_getValidMoves.
      destruct (side m); rewrite fits_decide, bool_decide_eq_true; done. }
    split; [rewrite getValidMoves_flat; apply flat_entries_left|].
    split; [rewrite getValidMoves_flat; apply flat_entries_right|].
    split; [rewrite getValidMoves_flat; apply flat_entries_length|].
    split; [done|]. split.
    + intros t Ht Hl Hr. split; apply Hmem; simpl; done.
    + rewrite getValidMoves_flat, flat_entries_nil.
      split; intros H t Ht; specialize (H t Ht); rewrite !fits_decide in *.
      * destruct H as [Hl Hr]. apply bool_decide_eq_false in Hl, Hr. tauto.
      * split; apply bool_decide_eq_false; tauto.
Qed.

Lemma getValidMoves_spec_witness :
  getValidMoves [(4, 4); (2, 5); (1, 3)] (Some 4) (Some 3)
    = [mkMove (4, 4) SideLeft; mkMove (1, 3) SideRight] /\
  List.filter isLeft (getValidMoves [(4, 4); (2, 5); (1, 3)] (Some 4) (Some 4))
    = [mkMove (4, 4) SideLeft] /\
  List.filter isRight (getValidMoves [(4, 4); (2, 5); (1, 3)] (Some 4) (Some 4))
    = [mkMove (4, 4) SideRight] /\
  length (getValidMoves [(4, 4); (2, 5); (1, 3)] (Some 4) (Some 4)) = 2%nat /\
  mkMove (2, 5) SideLeft ∉ getValidMoves [(4, 4); (2, 5); (1, 3)] (Some 4) (Some 4).
Proof.
  destruct (proj2 (getValidMoves_spec [(4, 4); (2, 5); (1, 3)]) 4 4)
    as (Hleft & Hright & Hlen & Hmem & _).
  split; [reflexivity|].
  split; [rewrite Hleft; reflexivity|].
  split; [rewrite Hright; reflexivity|].
  split; [rewrite Hlen; reflexivity|].
  intros Hin. apply Hmem in Hin as [_ [H | H]]; discriminate H.
Defined.

(** * Bot heuristic: [calculateBotMove] *)

Section StableMax.
Context {A : Type} (key : A -> Z).

(** The comparator [(a, b) => b.score - a.score], for [key] in place of
    [score]. *)
Local Abbreviation desc := (fun a b : A => key b - key a).

Lemma head_insertBy x l :
  head (insertBy desc x l)
  = match head l with
    | None => Some x
    | Some y => if key y <=? key x then Some x else Some y
    end.
Proof.
  destruct l as [|y l]; simpl; [done|].
  destruct (Z.leb_spec (key y - key x) 0), (Z.leb_spec (key y) (key x));
    simpl; done || lia.
Qed.

(** The head of the sorted list is the first entry of greatest key. *)
Lemma head_sortBy_first_max l :
  l <> [] ->
  exists i m,
    l !! i = Some m /\ head (sortBy desc l) = Some m /\
    (forall j m', l !! j = Some m' -> key m' <= key m) /\
    (forall j m', (j < i)%nat -> l !! j = Some m' -> key m' < key m).
Proof.
  induction l as [|x l IH]; [done|]. intros _.
  unfold sortBy in *. simpl. rewrite head_insertBy.
  destruct l as [|y l].
  - exists 0%nat, x. simpl. repeat split; [|intros; lia].
    intros [|j] m' Hj; simpl in Hj; [|done]. injection Hj as <-. lia.
  - destruct IH as (i & m & Hi & Hhd & Hmax & Hfirst); [done|].
    rewrite Hhd. destruct (Z.leb_spec (key m) (key x)) as [Hle | Hlt].
    + exists 0%nat, x. repeat split; [|intros; lia].
      intros [|j] m' Hj; simpl in Hj.
      * injection Hj as <-. lia.
      * specialize (Hmax _ _ Hj). lia.
    + exists (S i), m. repeat split; [done| |].
      * intros [|j] m' Hj; simpl in Hj.
        -- injection Hj as <-. lia.
        -- by eapply Hmax.
      * intros [|j] m' Hlt' Hj; simpl in Hj.
        -- injection Hj as <-. lia.
        -- eapply Hfirst; [|done]. lia.
Qed.
End StableMax.

(** On a legal move the pip the bot tests against the next seat's passes
    is the end [applyMove] would set. *)
Lemma moveScore_legal hand l r ph next m :
  m ∈ getValidMoves hand (Some l) (Some r) ->
  exists x,
    newEnd (tile m) (match side m with SideLeft => Some l | SideRight => Some r end)
      = Some x /\
    moveScore (Some l) (Some r) ph next m
    = getTileSum (tile m)
      + (if includes x (default [] (ph !! next)) then 25 else 0)
      + (if isDouble (tile m) then 10 else 0).
Proof.
  intros Hm. apply elem_of_getValidMoves in Hm as [_ Hfit].
  destruct m as [t sd]. simpl in *.
  unfold moveScore, scoreMove, newEnd. simpl.
  set (e := match sd with SideLeft => l | SideRight => r end).
  assert (Hfit' : fits e t = true) by (subst e; by destruct sd).
  assert (He : match sd with SideLeft => Some l | SideRight => Some r end = Some e)
    by (subst e; by destruct sd).
  rewrite He. simpl. unfold fits in Hfit'.
  exists (if t.1 =? e then t.2 else t.1). split.
  - destruct (t.1 =? e); [done|]. simpl in Hfit'. by rewrite Hfit'.
  - destruct (includes _ _), (isDouble t); lia.
Qed.

(** With an end unset every move is a left move, and the pip the bot
    tests against the next seat's passes is the first pip of the tile as
    it is stored, or its second pip when the first equals [leftEnd]. *)
Lemma moveScore_null hand le re ph next m :
  le = None \/ re = None ->
  m ∈ getValidMoves hand le re ->
  side m = SideLeft /\
  moveScore le re ph next m
  = getTileSum (tile m)
    + (if includes (match le with
                    | Some l => if (tile m).1 =? l then (tile m).2 else (tile m).1
                    | None => (tile m).1
                    end) (default [] (ph !! next)) then 25 else 0)
    + (if isDouble (tile m) then 10 else 0).
Proof.
  intros Hnull Hm. rewrite (getValidMoves_null _ _ _ Hnull) in Hm.
  apply list_elem_of_fmap in Hm as (t & -> & _). split; [done|].
  unfold moveScore, scoreMove. simpl.
  destruct le as [l|]; simpl;
    destruct (includes _ _), (isDouble t); lia.
Qed.

(** C3 as amended. [calculateBotMove] answers [None] when there is no
    legal move and the legal move itself when there is exactly one. With
    two or more it answers the first move, in [getValidMoves] order, of
    greatest score: no move scores higher and every earlier move scores
    strictly lower. A move scores its pip sum, plus 10 when the tile is a
    double, plus 25 when one pip of the tile is among the passes recorded
    for [nextPlayerId]: on a board with both ends set, the pip that
    playing the move would expose, the end [applyMove] would set; with an
    end unset, where every move is a left move, the first pip of the tile
    as it is stored, or the second when the first equals [leftEnd]. *)
Theorem calculateBotMove_spec (hand : list Tile) (le re : option Z)
    (ph : gmap Z (list Z)) (next : Z) :
  let moves := getValidMoves hand le re in
  let best := calculateBotMove hand le re ph next in
  (moves = [] -> best = None) /\
  (forall m, moves = [m] -> best = Some m) /\
  ((2 <= length moves)%nat ->
     exists i m,
       moves !! i = Some m /\ best = Some m /\
       (forall j m', moves !! j = Some m' ->
          moveScore le re ph next m' <= moveScore le re ph next m) /\
       (forall j m', (j < i)%nat -> moves !! j = Some m' ->
          moveScore le re ph next m' < moveScore le re ph next m)) /\
  (forall l r m, le = Some l -> re = Some r -> m ∈ moves ->
     exists x,
       newEnd (tile m) (match side m with SideLeft => le | SideRight => re end)
         = Some x /\
       moveScore le re ph next m
       = getTileSum (tile m)
         + (if includes x (default [] (ph !! next)) then 25 else 0)
         + (if isDouble (tile m) then 10 else 0)) /\
  (forall m, le = None \/ re = None -> m ∈ moves ->
     side m = SideLeft /\
     moveScore le re ph next m
     = getTileSum (tile m)
       + (if includes (match le with
                       | Some l => if (tile m).1 =? l then (tile m).2 else (tile m).1
                       | None => (tile m).1
                       end) (default [] (ph !! next)) then 25 else 0)
       + (if isDouble (tile m) then 10 else 0)).
Proof.
  intros moves best. subst best. unfold calculateBotMove. fold moves.
  split; [by intros ->|]. split; [by intros m ->|]. split; [|split].
  - intros Hlen. destruct moves as [|m1 [|m2 rest]] eqn:E; simpl in Hlen; [lia..|].
    rewrite <- E. clear Hlen.
    set (sm := scoreMove le re ph next).
    destruct (head_sortBy_first_max score (map sm moves))
      as (i & s & Hi & Hhd & Hmax & Hfirst).
    { rewrite E. done. }
    change (map sm moves) with (sm <$> moves) in *.
    rewrite list_lookup_fmap in Hi.
    destruct (moves !! i) as [m|] eqn:Hm; [|done].
    injection Hi as <-. exists i, m. split; [done|].
    split; [by rewrite Hhd|]. split.
    + intros j m' Hj. apply (Hmax j). by rewrite list_lookup_fmap, Hj.
    + intros j m' Hlt Hj. apply (Hfirst j); [done|].
      by rewrite list_lookup_fmap, Hj.
  - intros l r m -> -> Hm.
    destruct (moveScore_legal _ _ _ ph next _ Hm) as (x & Hx & Hs).
    exists x. split; [|done]. by destruct (side m).
  - intros m Hnull Hm. by apply (moveScore_null hand).
Qed.

Lemma calculateBotMove_spec_witness :
  exists i m,
    getValidMoves [(4, 9); (4, 3); (1, 1)] (Some 4) (Some 4) !! i = Some m /\
    calculateBotMove [(4, 9); (4, 3); (1, 1)] (Some 4) (Some 4)
      (<[1 := [3]]> initialPassHistory) 1 = Some m /\
    m = mkMove (4, 3) SideLeft.
Proof.
  destruct (calculateBotMove_spec [(4, 9); (4, 3); (1, 1)] (Some 4) (Some 4)
              (<[1 := [3]]> initialPassHistory) 1)
    as (_ & _ & H & _).
  destruct H as (i & m & Hi & Hb & _); [vm_compute; lia|].
  exists i, m. split; [exact Hi|]. split; [exact Hb|].
  vm_compute in Hb. congruence.
Defined.

(** C3, the claim as written fails: with both ends unset and seat 1
    recorded to have passed on 3, the tile [[3|4]] scores 32 and the same
    tile stored as [[4|3]] scores 7, its pip sum alone, although playing it
    exposes the 3 either way. So from the hand [[3|4]], [[6|6]] the code
    answers [[3|4]], and from [[4|3]], [[6|6]] it answers the double, which
    scores 22, and not the tile that the claim's bonus would bring to 32. *)
Lemma bonus_depends_on_orientation :
  let ph := <[1 := [3]]> initialPassHistory in
  areTilesEqual (3, 4) (4, 3) = true /\
  moveScore None None ph 1 (mkMove (3, 4) SideLeft) = 32 /\
  moveScore None None ph 1 (mkMove (4, 3) SideLeft) = 7 /\
  moveScore None None ph 1 (mkMove (6, 6) SideLeft) = 22 /\
  getValidMoves [(4, 3); (6, 6)] None None
    = [mkMove (4, 3) SideLeft; mkMove (6, 6) SideLeft] /\
  calculateBotMove [(3, 4); (6, 6)] None None ph 1 = Some (mkMove (3, 4) SideLeft) /\
  calculateBotMove [(4, 3); (6, 6)] None None ph 1 = Some (mkMove (6, 6) SideLeft) /\
  getTileSum (4, 3) + 25 <> moveScore None None ph 1 (mkMove (4, 3) SideLeft).
Proof. repeat split; by vm_compute. Qed.

(** * Starter determination: [determineStarter] *)

Lemma areTilesEqual_double t i : areTilesEqual t (i, i) = true <-> t = (i, i).
Proof.
  destruct t as [a b]. unfold areTilesEqual. simpl. split.
  - intros H. apply orb_true_iff in H as [H | H];
      apply andb_true_iff in H as [H1 H2]; f_equal; lia.
  - intros [= -> ->]. rewrite Z.eqb_refl. done.
Qed.

Lemma holds_double h i :
  existsb (fun t => areTilesEqual t (i, i)) h = true <-> (i, i) ∈ h.
Proof.
  rewrite existsb_exists. split.
  - intros (t & Ht & Heq). apply areTilesEqual_double in Heq as ->.
    by apply list_elem_of_In.
  - intros H. exists (i, i). split; [by apply list_elem_of_In|].
    by apply areTilesEqual_double.
Qed.

Lemma find_double h i :
  (i, i) ∈ h -> List.find (fun t => areTilesEqual t (i, i)) h = Some (i, i).
Proof.
  intros H. destruct (List.find _ h) as [t|] eqn:E.
  - apply find_some in E as [_ E]. by apply areTilesEqual_double in E as ->.
  - apply list_elem_of_In in H. eapply find_none in E; [|exact H].
    by rewrite (proj2 (areTilesEqual_double _ _) eq_refl) in E.
Qed.

Lemma findHolder_first i ps1 p ps2 idx :
  (forall q, q ∈ ps1 -> (i, i) ∉ hand q) ->
  (i, i) ∈ hand p ->
  findHolder (i, i) (ps1 ++ p :: ps2) idx
  = Some (mkStarter (idx + Z.of_nat (length ps1)) (i, i)).
Proof.
  revert idx. induction ps1 as [|q ps1 IH]; intros idx Hnone Hp; simpl.
  - rewrite (proj2 (holds_double _ _) Hp), (find_double _ _ Hp). simpl.
    do 2 f_equal. lia.
  - destruct (existsb _ (hand q)) eqn:E.
    + apply holds_double in E. destruct (Hnone q); [left | done].
    + rewrite IH; [|intros; apply Hnone; by right|done].
      do 2 f_equal. lia.
Qed.

Lemma findHolder_none i ps idx :
  (forall q, q ∈ ps -> (i, i) ∉ hand q) -> findHolder (i, i) ps idx = None.
Proof.
  revert idx. induction ps as [|q ps IH]; intros idx Hnone; simpl; [done|].
  destruct (existsb _ (hand q)) eqn:E.
  - apply holds_double in E. destruct (Hnone q); [left | done].
  - apply IH. intros; apply Hnone; by right.
Qed.

Lemma scanDoubles_none n ps :
  (forall i q, 0 <= i < Z.of_nat n -> q ∈ ps -> (i, i) ∉ hand q) ->
  scanDoubles n ps = None.
Proof.
  induction n as [|k IH]; intros Hnone; simpl; [done|].
  rewrite findHolder_none; [|intros; apply Hnone; [lia | done]].
  apply IH. intros; apply Hnone; [lia | done].
Qed.


Lemma fold_highestTile_keep idx h acc :
  (forall t, t ∈ h -> getTileSum t <= highestSum acc) ->
  fold_left (highestTile idx) h acc = acc.
Proof.
  induction h as [|t h IH]; intros Hle; simpl; [done|].
  unfold highestTile at 2.
  destruct (Z.gtb_spec (getTileSum t) (highestSum acc)) as [Hgt | _].
  - specialize (Hle t ltac:(left)). lia.
  - apply IH. intros; apply Hle; by right.
Qed.


Lemma highestScan_keep ps idx acc :
  (forall q t, q ∈ ps -> t ∈ hand q -> getTileSum t <= highestSum acc) ->
  highestScan ps idx acc = acc.
Proof.
  revert idx. induction ps as [|q ps IH]; intros idx Hle; simpl; [done|].
  rewrite fold_highestTile_keep; [|intros; eapply Hle; [left | done]].
  apply IH. intros; eapply Hle; [right|]; done.
Qed.






(** * Scoring: [calculateScores] and the points of [handleRoundEnd] *)

Lemma fold_pips h acc :
  fold_left (fun a t => a + getTileSum t) h acc = acc + sumZ (map getTileSum h).
Proof.
  revert acc. induction h as [|t h IH]; intros acc; simpl; [lia|].
  rewrite IH. lia.
Qed.

Lemma handPips_sum h : handPips h = sumZ (map getTileSum h).
Proof. unfold handPips. rewrite fold_pips. lia. Qed.

Lemma fold_scoreStep ps sc :
  (forall p, p ∈ ps -> team p = 0 \/ team p = 1) ->
  fold_left scoreStep ps sc
  = mkScores (team0 sc + teamPips 0 ps) (team1 sc + teamPips 1 ps).
Proof.
  revert sc. induction ps as [|p ps IH]; intros sc Hteams.
  - destruct sc. unfold teamPips. simpl. f_equal; lia.
  - simpl. rewrite IH by (intros; apply Hteams; by right).
    unfold scoreStep, teamPips. simpl. rewrite handPips_sum.
    destruct (Hteams p ltac:(left)) as [-> | ->]; simpl; f_equal; lia.
Qed.

(** C6. With every player on team 0 or team 1, [calculateScores] gives for
    each team the sum of [getTileSum] over the tiles left in the hands of
    that team's players; the points [handleRoundEnd] stores are team 1's
    total when team 0 wins and team 0's total when team 1 wins. *)
Theorem calculateScores_spec (s : GameState) :
  (forall p, p ∈ players s -> team p = 0 \/ team p = 1) ->
  team0 (calculateScores (players s)) = teamPips 0 (players s) /\
  team1 (calculateScores (players s)) = teamPips 1 (players s) /\
  (forall r, winner (handleRoundEnd r 0 s)
             = Some (mkWinner 0 r (teamPips 1 (players s)))) /\
  (forall r, winner (handleRoundEnd r 1 s)
             = Some (mkWinner 1 r (teamPips 0 (players s)))).
Proof.
  intros Hteams.
  assert (Hsc : calculateScores (players s)
                = mkScores (teamPips 0 (players s)) (teamPips 1 (players s))).
  { unfold calculateScores. rewrite fold_scoreStep by done. reflexivity. }
  unfold handleRoundEnd. simpl. rewrite Hsc. done.
Qed.

Lemma calculateScores_spec_witness :
  team0 (calculateScores
           [mkPlayer 0 "You" false [(1, 2); (6, 6)] 0;
            mkPlayer 1 "Bot 1 (Left)" true [(0, 5)] 1]) = 15 /\
  team1 (calculateScores
           [mkPlayer 0 "You" false [(1, 2); (6, 6)] 0;
            mkPlayer 1 "Bot 1 (Left)" true [(0, 5)] 1]) = 5.
Proof.
  destruct (calculateScores_spec
    {| players := [mkPlayer 0 "You" false [(1, 2); (6, 6)] 0;
                   mkPlayer 1 "Bot 1 (Left)" true [(0, 5)] 1];
       board := [(6, 5)]; boneyard := []; leftEnd := Some 6; rightEnd := Some 5;
       currentPlayerIndex := 0; status := playing; logs := []; winner := None;
       passHistory := initialPassHistory |}) as (H0 & H1 & _).
  - simpl. intros p Hp.
    apply elem_of_cons in Hp as [-> | Hp]; [by left|].
    apply list_elem_of_singleton in Hp as ->. by right.
  - split; (etransitivity; [eassumption | reflexivity]).
Defined.

(** * Passing: [handlePass] *)

Lemma getNextPlayerIndex_mod c :
  0 <= c -> getNextPlayerIndex c = (c - 1 + 4) mod 4.
Proof. intros Hc. unfold getNextPlayerIndex. apply Z.rem_mod_nonneg; lia. Qed.

(** C10. Where the passing player's seat has a pass-history entry [h],
    [handlePass] leaves the players and their hands, the board, both ends,
    the boneyard, the status and the winner as they were; it moves the
    turn pointer to [(seat - 1 + 4) % 4], appends one log entry, and
    replaces the entry of the seat by [h] followed by the left end and, when
    distinct from it, the right end, leaving the other seats' entries
    alone. With both ends null the pass history is unchanged. *)
Theorem handlePass_frame (player : Player) (s : GameState) (h : list Z) :
  passHistory s !! pid player = Some h ->
  exists s',
    handlePass player s = Some s' /\
    players s' = players s /\ board s' = board s /\
    leftEnd s' = leftEnd s /\ rightEnd s' = rightEnd s /\
    boneyard s' = boneyard s /\ status s' = status s /\ winner s' = winner s /\
    currentPlayerIndex s' = getNextPlayerIndex (currentPlayerIndex s) /\
    (0 <= currentPlayerIndex s ->
       currentPlayerIndex s' = (currentPlayerIndex s - 1 + 4) mod 4) /\
    (exists entry, logs s' = logs s ++ [entry]) /\
    (forall k, k <> pid player -> passHistory s' !! k = passHistory s !! k) /\
    (forall l r, leftEnd s = Some l -> rightEnd s = Some r -> l <> r ->
       passHistory s' !! pid player = Some (h ++ [l; r])) /\
    (forall l, leftEnd s = Some l -> rightEnd s = Some l ->
       passHistory s' !! pid player = Some (h ++ [l])) /\
    (forall l, leftEnd s = Some l -> rightEnd s = None ->
       passHistory s' !! pid player = Some (h ++ [l])) /\
    (forall r, leftEnd s = None -> rightEnd s = Some r ->
       passHistory s' !! pid player = Some (h ++ [r])) /\
    (leftEnd s = None -> rightEnd s = None -> passHistory s' = passHistory s).
Proof.
  intros Hh. unfold handlePass. rewrite Hh. eexists. split; [reflexivity|].
  simpl. repeat (split; [reflexivity|]).
  split; [apply getNextPlayerIndex_mod|].
  split; [eexists; reflexivity|].
  split; [intros k Hk; by rewrite lookup_insert_ne|].
  unfold missedEnds.
  split; [intros l r -> -> Hne; rewrite lookup_insert_eq, bool_decide_true by congruence; done|].
  split; [intros l -> ->; rewrite lookup_insert_eq, bool_decide_false by auto; done|].
  split; [intros l -> ->; by rewrite lookup_insert_eq|].
  split; [intros r -> ->; rewrite lookup_insert_eq, bool_decide_true by done; done|].
  intros -> ->. simpl. rewrite app_nil_r. by apply insert_id.
Qed.

Lemma handlePass_frame_witness :
  exists s',
    handlePass (mkPlayer 3 "Bot 3 (Right)" true [(1, 2)] 1)
      {| players := [mkPlayer 3 "Bot 3 (Right)" true [(1, 2)] 1];
         board := [(6, 5)]; boneyard := []; leftEnd := Some 6; rightEnd := Some 5;
         currentPlayerIndex := 3; status := playing; logs := []; winner := None;
         passHistory := initialPassHistory |} = Some s' /\
    currentPlayerIndex s' = 2 /\
    passHistory s' !! 3 = Some [6; 5].
Proof.
  destruct (handlePass_frame (mkPlayer 3 "Bot 3 (Right)" true [(1, 2)] 1)
    {| players := [mkPlayer 3 "Bot 3 (Right)" true [(1, 2)] 1];
       board := [(6, 5)]; boneyard := []; leftEnd := Some 6; rightEnd := Some 5;
       currentPlayerIndex := 3; status := playing; logs := []; winner := None;
       passHistory := initialPassHistory |} [])
    as (s' & Hs & _ & _ & _ & _ & _ & _ & _ & Hcur & _ & _ & _ & Hph & _).
  - reflexivity.
  - exists s'. split; [exact Hs|]. split; [exact Hcur|].
    apply (Hph 6 5); [reflexivity | reflexivity | lia].
Defined.

(** * Invariants of the round *)

Lemma chained_Chain l b r : chained l b r = true <-> Chain l b r.
Proof.
  revert l. induction b as [|[x y] b IH]; intros l; simpl.
  - rewrite Z.eqb_eq. split; [intros ->; constructor | by inversion 1].
  - rewrite orb_true_iff, !andb_true_iff, !Z.eqb_eq, !IH. split.
    + intros [[-> H] | [-> H]]; by constructor.
    + inversion 1; subst; auto.
Qed.

Lemma Chain_snoc l b r x y :
  Chain l b r -> (x = r \/ y = r) ->
  Chain l (b ++ [(x, y)]) (if x =? r then y else x).
Proof.
  intros Hc Hfit. induction Hc as [a | a b ts c _ IH | a b ts c _ IH]; simpl.
  - destruct (Z.eqb_spec x a) as [-> | Hne].
    + apply chain_cons, chain_nil.
    + destruct Hfit as [-> | ->]; [done|]. apply chain_flip, chain_nil.
  - by apply chain_cons, IH.
  - by apply chain_flip, IH.
Qed.

Lemma Chain_cons_fit l b r x y :
  Chain l b r -> (x = l \/ y = l) ->
  Chain (if x =? l then y else x) ((x, y) :: b) r.
Proof.
  intros Hc Hfit. destruct (Z.eqb_spec x l) as [-> | Hne].
  - by apply chain_flip.
  - destruct Hfit as [-> | ->]; [done|]. by apply chain_cons.
Qed.

Lemma fits_iff e t : fits e t = true <-> t.1 = e \/ t.2 = e.
Proof. unfold fits. rewrite orb_true_iff, !Z.eqb_eq. done. Qed.

Lemma newEnd_fits t e :
  fits e t = true -> newEnd t (Some e) = Some (if t.1 =? e then t.2 else t.1).
Proof.
  intros H. unfold newEnd, fits in *. simpl.
  destruct (t.1 =? e); [done|]. simpl in H. by rewrite H.
Qed.

Lemma areTilesEqual_canon t u : areTilesEqual t u = true <-> canon t = canon u.
Proof.
  destruct t as [a b], u as [c d]. unfold areTilesEqual, canon. simpl.
  rewrite orb_true_iff, !andb_true_iff, !Z.eqb_eq. split.
  - intros [[-> ->] | [-> ->]]; f_equal; lia.
  - intros [= H1 H2]. lia.
Qed.

Lemma areTilesEqual_refl t : areTilesEqual t t = true.
Proof. by apply areTilesEqual_canon. Qed.

Lemma filter_sublist {A : Type} (f : A -> bool) l : List.filter f l `sublist_of` l.
Proof.
  induction l as [|x l IH]; simpl; [constructor|].
  destruct (f x); by constructor.
Qed.

Lemma filter_all {A : Type} (f : A -> bool) l :
  (forall x, x ∈ l -> f x = true) -> List.filter f l = l.
Proof.
  induction l as [|x l IH]; intros H; simpl; [done|].
  rewrite (H x) by left. f_equal. apply IH. intros; apply H; by right.
Qed.

Lemma handOk_sublist h1 h2 : h1 `sublist_of` h2 -> handOk h2 -> handOk h1.
Proof.
  intros Hsub [Hnd Hrange Hsize]. constructor.
  - unfold distinctTiles in *. eapply sublist_NoDup; [exact Hnd|].
    by apply fmap_sublist.
  - rewrite Forall_forall in *. intros t Ht. apply Hrange.
    by eapply elem_of_sublist.
  - apply sublist_length in Hsub. lia.
Qed.

Lemma handOk_filter f h : handOk h -> handOk (List.filter f h).
Proof. apply handOk_sublist, filter_sublist. Qed.

(** In a hand of distinct tiles the filter of [applyMove] takes out the
    played tile and nothing else. *)
Lemma filter_played h t :
  distinctTiles h -> t ∈ h ->
  exists h1 h2,
    h = h1 ++ t :: h2 /\
    List.filter (fun u => negb (areTilesEqual u t)) h = h1 ++ h2.
Proof.
  intros Hnd Ht. apply list_elem_of_split in Ht as (h1 & h2 & ->).
  exists h1, h2. split; [done|].
  unfold distinctTiles in Hnd. rewrite fmap_app, fmap_cons in Hnd.
  apply NoDup_app in Hnd as (_ & Hh1 & Hnd).
  apply NoDup_cons in Hnd as [Hh2 _].
  rewrite List.filter_app. simpl. rewrite areTilesEqual_refl. simpl.
  rewrite !filter_all; [done | |].
  - intros u Hu. apply negb_true_iff, not_true_is_false. intros Heq.
    apply areTilesEqual_canon in Heq. apply Hh2. rewrite <- Heq.
    apply list_elem_of_fmap. eauto.
  - intros u Hu. apply negb_true_iff, not_true_is_false. intros Heq.
    apply areTilesEqual_canon in Heq. apply (Hh1 (canon u)).
    + apply list_elem_of_fmap. eauto.
    + rewrite Heq. left.
Qed.

(** The pips of a hand of the double-9 set. *)
Lemma handPips_range h :
  Forall inRange h -> 0 <= handPips h <= 18 * Z.of_nat (length h).
Proof.
  rewrite handPips_sum. induction 1 as [|t h [H1 H2] _ IH]; simpl; [lia|].
  unfold getTileSum at 1 3. lia.
Qed.

Lemma handOk_pips h : handOk h -> 0 <= handPips h <= 180.
Proof.
  intros [_ Hrange Hsize]. pose proof (handPips_range h Hrange). lia.
Qed.

Lemma getNextPlayerIndex_range c :
  0 <= c < 4 -> 0 <= getNextPlayerIndex c < 4.
Proof.
  intros Hc. rewrite getNextPlayerIndex_mod by lia.
  apply Z.mod_pos_bound. lia.
Qed.

Lemma deck_distinct : distinctTiles generateDeck.
Proof. unfold distinctTiles. apply (bool_decide_unpack _). vm_compute. exact I. Qed.

Lemma deck_range : Forall inRange generateDeck.
Proof. apply (bool_decide_unpack _). vm_compute. exact I. Qed.

(** Ten consecutive tiles of a shuffled deck make a hand. *)
Lemma handOk_slice a deck :
  deck ≡ₚ generateDeck -> handOk (slice a (a + 10) deck).
Proof.
  intros Hperm. unfold slice. replace (a + 10 - a)%nat with 10%nat by lia.
  assert (Hsub : take 10 (drop a deck) `sublist_of` deck).
  { etransitivity; [apply sublist_take | apply sublist_drop]. }
  constructor.
  - unfold distinctTiles. eapply sublist_NoDup; [|by apply fmap_sublist].
    rewrite Hperm. apply deck_distinct.
  - rewrite Forall_forall. intros t Ht.
    eapply elem_of_sublist in Ht; [|exact Hsub]. rewrite Hperm in Ht.
    by apply (proj1 (Forall_forall _ _) deck_range).
  - rewrite length_take. lia.
Qed.

Lemma calculateBotMove_valid h le re ph next m :
  calculateBotMove h le re ph next = Some m -> m ∈ getValidMoves h le re.
Proof.
  unfold calculateBotMove.
  destruct (getValidMoves h le re) as [|m1 [|m2 rest]] eqn:E; [done| |].
  - intros [= ->]. left.
  - rewrite <- E. intros Hbest.
    destruct (head_sortBy_first_max score
                (map (scoreMove le re ph next) (getValidMoves h le re)))
      as (i & sm & Hi & Hhd & _).
    { rewrite E. done. }
    rewrite Hhd in Hbest. injection Hbest as <-.
    change (map ?f ?l) with (f <$> l) in Hi.
    rewrite list_lookup_fmap in Hi.
    destruct (getValidMoves h le re !! i) as [m'|] eqn:Hm; [|done].
    injection Hi as <-. simpl. by eapply list_elem_of_lookup_2.
Qed.

Lemma handleRoundEnd_good r w s : good s -> good (handleRoundEnd r w s).
Proof. intros [? ? ? ? ? ? ?]. by constructor. Qed.

Lemma handlePass_good p s s' : good s -> handlePass p s = Some s' -> good s'.
Proof.
  intros [Hids Hteams Hhands Hchain Hboard Hpasses Hturn]. unfold handlePass.
  destruct (passHistory s !! pid p) as [h|] eqn:Hh; [|done].
  intros [= <-]. constructor; simpl; try done.
  - intros k Hk. destruct (decide (pid p = k)) as [-> | Hne].
    + rewrite lookup_insert_eq. eauto.
    + rewrite lookup_insert_ne by done. by apply Hpasses.
  - by apply getNextPlayerIndex_range.
Qed.

(** [applyMove] keeps the invariant when the tile fits the end of the side
    it is played on. *)
Lemma applyMove_good s playerId t sd s' l r :
  good s -> leftEnd s = Some l -> rightEnd s = Some r ->
  fits (match sd with SideLeft => l | SideRight => r end) t = true ->
  applyMove playerId t sd s = Some s' -> good s'.
Proof.
  intros [Hids Hteams Hhands Hchain Hboard Hpasses Hturn] Hl Hr Hfit. unfold applyMove.
  destruct (List.find _ (players s)) as [player|] eqn:Hfind; [|done].
  apply find_some in Hfind as [Hin _]. apply list_elem_of_In in Hin.
  destruct Hchain as (l0 & r0 & Hl0 & Hr0 & Hch).
  rewrite Hl in Hl0. rewrite Hr in Hr0. injection Hl0 as <-. injection Hr0 as <-.
  assert (Hids' : forall nh,
    pid <$> map (fun p => if pid p =? playerId then setHand p nh else p) (players s)
    = [0; 1; 2; 3]).
  { intros nh. rewrite <- Hids, <- list_fmap_compose. apply list_fmap_ext.
    intros i p _. simpl. by destruct (pid p =? playerId). }
  assert (Hteams' : forall nh,
    team <$> map (fun p => if pid p =? playerId then setHand p nh else p) (players s)
    = [0; 1; 0; 1]).
  { intros nh. rewrite <- Hteams, <- list_fmap_compose. apply list_fmap_ext.
    intros i p _. simpl. by destruct (pid p =? playerId). }
  assert (Hhands' : forall p,
    p ∈ map (fun p => if pid p =? playerId
                      then setHand p (List.filter (fun u => negb (areTilesEqual u t))
                                        (hand player))
                      else p) (players s) ->
    handOk (hand p)).
  { intros p Hp. apply list_elem_of_fmap in Hp as (q & -> & Hq).
    destruct (pid q =? playerId); [|by apply Hhands]. simpl.
    by apply handOk_filter, Hhands. }
  pose proof (getNextPlayerIndex_range _ Hturn) as Hturn'.
  destruct t as [x y].
  destruct sd; intros [= <-]; constructor; simpl; try done.
  - rewrite Hl, Hr, (newEnd_fits _ _ Hfit). eexists _, _.
    split; [done|]. split; [done|].
    apply Chain_cons_fit; [done|]. by apply fits_iff in Hfit.
  - rewrite Hl, Hr, (newEnd_fits _ _ Hfit). eexists _, _.
    split; [done|]. split; [done|].
    apply Chain_snoc; [done|]. by apply fits_iff in Hfit.
  - by destruct (board s).
Qed.

Lemma executeBotTurn_good bot s s' :
  good s -> executeBotTurn bot s = Some s' -> good s'.
Proof.
  intros Hgood. unfold executeBotTurn.
  destruct (calculateBotMove _ _ _ _ _) as [m|] eqn:Hm;
    [|by apply handlePass_good].
  destruct (good_chain _ Hgood) as (l & r & Hl & Hr & _).
  apply calculateBotMove_valid in Hm. rewrite Hl, Hr in Hm.
  apply elem_of_getValidMoves in Hm as [_ Hfit].
  apply (applyMove_good _ _ _ _ _ l r); try done. by destruct (side m).
Qed.

Lemma onUserTileClick_good t choice s s' :
  good s -> onUserTileClick t choice s = Some s' -> good s'.
Proof.
  intros Hgood. unfold onUserTileClick.
  destruct (_ || _); [by intros [= <-]|].
  destruct (good_chain _ Hgood) as (l & r & Hl & Hr & _).
  rewrite Hl, Hr, getValidMoves_flat. simpl. rewrite app_nil_r. unfold entries.
  destruct (fits l t) eqn:Hfl, (fits r t) eqn:Hfr; simpl.
  - destruct (bool_decide _); [|destruct choice];
      apply (applyMove_good _ _ _ _ _ l r); done.
  - apply (applyMove_good _ _ _ _ _ l r); done.
  - apply (applyMove_good _ _ _ _ _ l r); done.
  - by intros [= <-].
Qed.

Lemma swapAt_perm d i j : swapAt d i j ≡ₚ d.
Proof.
  unfold swapAt. destruct (d !! i) as [x|] eqn:Hi; [|done].
  destruct (d !! j) as [y|] eqn:Hj; [|done].
  by apply Permutation_insert_swap.
Qed.

Lemma shuffleLoop_perm draw i d : shuffleLoop draw i d ≡ₚ d.
Proof.
  revert d. induction i as [|i IH]; intros d; simpl; [done|].
  by rewrite IH, swapAt_perm.
Qed.

(** Whatever the draws, the shuffled deck holds the tiles of the deck. *)
Lemma shuffleDeck_perm draw deck : shuffleDeck draw deck ≡ₚ deck.
Proof. apply shuffleLoop_perm. Qed.

Lemma exampleDeck_shuffled : shuffleDeck (drawOf exampleDraws) generateDeck = exampleDeck.
Proof. by vm_compute. Qed.

Lemma lockedDeck_shuffled : shuffleDeck (drawOf lockedDraws) generateDeck = lockedDeck.
Proof. by vm_compute. Qed.

Lemma startGame_good draw s' : startGame draw = Some s' -> good s'.
Proof.
  pose proof (shuffleDeck_perm draw generateDeck) as Hperm.
  unfold startGame. set (deck := shuffleDeck draw generateDeck) in *.
  clearbody deck.
  set (ps := [mkPlayer 0 _ _ _ _; _; _; _]).
  set (st := determineStarter ps (drop 40 deck)).
  assert (Hps : forall p, p ∈ ps -> handOk (hand p)).
  { intros p Hp. subst ps. in_cases Hp; simpl.
    - by apply (handOk_slice 0).
    - by apply (handOk_slice 10).
    - by apply (handOk_slice 20).
    - by apply (handOk_slice 30). }
  unfold at_index. destruct (Z.ltb_spec (starterIndex st) 0) as [|Hpos]; [done|].
  destruct (ps !! Z.to_nat (starterIndex st)) as [starter|] eqn:Hst; [|done].
  intros [= <-].
  assert (Hlt : (Z.to_nat (starterIndex st) < 4)%nat).
  { apply lookup_lt_Some in Hst. exact Hst. }
  constructor; simpl.
  - rewrite list_fmap_insert. transitivity (pid <$> ps); [|done].
    apply list_insert_id. rewrite list_lookup_fmap, Hst. done.
  - rewrite list_fmap_insert. transitivity (team <$> ps); [|done].
    apply list_insert_id. rewrite list_lookup_fmap, Hst. done.
  - intros p Hp. apply list_elem_of_lookup in Hp as [i Hi].
    destruct (decide (i = Z.to_nat (starterIndex st))) as [-> | Hne].
    + rewrite list_lookup_insert_eq in Hi by (subst ps; simpl; lia).
      injection Hi as <-. simpl.
      apply handOk_filter, Hps. by eapply list_elem_of_lookup_2.
    + rewrite list_lookup_insert_ne in Hi by done.
      apply Hps. by eapply list_elem_of_lookup_2.
  - eexists _, _. split; [done|]. split; [done|].
    destruct (startTile st) as [x y]. apply chain_cons, chain_nil.
  - done.
  - intros k Hk. assert (k = 0 \/ k = 1 \/ k = 2 \/ k = 3) as [-> | [-> | [-> | ->]]] by lia;
      by eexists.
  - apply getNextPlayerIndex_range. lia.
Qed.

(** Every reachable state is the initial one or satisfies [good]. *)
Lemma reachable_good s : reachable s -> s = initialGameState \/ good s.
Proof.
  induction 1 as [|s s' Hreach IH Hstep]; [by left|].
  destruct Hstep as [s draw s' Hidle Hdraw Hstart | s r w Hloop | s bot s' Hloop Hbot
                    | s p s' Hloop Hpass | s user t choice s' Huser Ht Hclick].
  - right. by eapply startGame_good.
  - destruct IH as [-> | Hgood]; [done|]. right. by apply handleRoundEnd_good.
  - destruct IH as [-> | Hgood]; [done|]. right. by eapply executeBotTurn_good.
  - destruct IH as [-> | Hgood]; [done|]. right. by eapply handlePass_good.
  - destruct IH as [-> | Hgood]; [done|]. right. by eapply onUserTileClick_good.
Qed.

Lemma reachable_playing_good s : reachable s -> status s = playing -> good s.
Proof. intros Hr Hs. by destruct (reachable_good s Hr) as [-> | ?]. Qed.

(** In a reachable state every player is on team 0 or team 1. *)
Lemma reachable_teams s p : reachable s -> p ∈ players s -> team p = 0 \/ team p = 1.
Proof.
  intros Hr Hp. destruct (reachable_good s Hr) as [-> | Hgood].
  - by apply elem_of_nil in Hp.
  - assert (Ht : team p ∈ team <$> players s) by (apply list_elem_of_fmap; eauto).
    rewrite (good_teams _ Hgood) in Ht. in_cases Ht; auto.
Qed.

(** In a reachable state every seat has a pass-history entry, that of a
    player of the round included. *)
Lemma reachable_passes s p :
  reachable s -> p ∈ players s -> is_Some (passHistory s !! pid p).
Proof.
  intros Hr Hp. destruct (reachable_good s Hr) as [-> | Hgood].
  - by apply elem_of_nil in Hp.
  - apply (good_passes _ Hgood).
    assert (Hi : pid p ∈ pid <$> players s) by (apply list_elem_of_fmap; eauto).
    rewrite (good_ids _ Hgood) in Hi. in_cases Hi; lia.
Qed.

(** * Running the application *)

Lemma drawsOk_spec draws i : drawsOk draws = true -> (drawOf draws i <= i)%nat.
Proof.
  intros Hok. unfold drawsOk in Hok. rewrite forallb_forall in Hok.
  destruct (decide (i < length draws)%nat) as [Hlt | Hge].
  - apply Nat.leb_le, Hok, in_seq. lia.
  - unfold drawOf. rewrite lookup_ge_None_2 by lia. simpl. lia.
Qed.

Lemma act_step a s s' : act a s = Some s' -> step s s'.
Proof.
  destruct a as [draws | | t choice]; simpl.
  - case_bool_decide as Hidle; [|done].
    destruct (drawsOk draws) eqn:Hok; [|done]. simpl. apply step_start; [done|].
    intros i. by apply drawsOk_spec.
  - destruct (gameLoop s) as [[| r w | bot | p]|] eqn:Hloop; try done.
    + intros [= <-]. by apply step_round_end.
    + by apply step_bot.
    + by apply step_auto_pass.
  - destruct (at_index (players s) 0) as [user|] eqn:Huser; [|done].
    case_bool_decide as Hin; [|done]. by eapply step_click.
Qed.

Lemma run_reachable acts s s' : reachable s -> run acts s = Some s' -> reachable s'.
Proof.
  revert s. induction acts as [|a acts IH]; intros s Hs; simpl.
  - by intros [= <-].
  - destruct (act a s) as [s1|] eqn:Ha; [|done].
    apply IH. eapply reachable_step; [done|]. by apply (act_step a).
Qed.

(** Names the state a run of actions from the initial state ends in,
    records that it is reachable and replaces it by its value. *)
Ltac run_to acts s Hreach :=
  let E := fresh "E" in
  destruct (run acts initialGameState) as [s|] eqn:E;
  [|vm_compute in E; discriminate];
  assert (Hreach : reachable s)
    by (eapply run_reachable; [apply reachable_init | exact E]);
  vm_compute in E; injection E as <-.

(** * Playing a tile: [applyMove] *)

(** With ids equal to seats, the player found by id is the one at the
    seat, and the [map] of [applyMove] rewrites that seat only. *)
Lemma seat_by_id (ps : list Player) (i : Z) (p : Player) (f : Player -> Player) :
  pid <$> ps = [0; 1; 2; 3] ->
  at_index ps i = Some p ->
  pid p = i /\
  List.find (fun q => pid q =? pid p) ps = Some p /\
  map (fun q => if pid q =? pid p then f q else q) ps = <[Z.to_nat i := f p]> ps.
Proof.
  intros Hids Hat. unfold at_index in Hat.
  destruct (Z.ltb_spec i 0) as [|Hpos]; [done|].
  destruct ps as [|p0 [|p1 [|p2 [|p3 [|]]]]]; try done.
  injection Hids as H0 H1 H2 H3.
  destruct (Z.to_nat i) as [|[|[|[|]]]] eqn:Hi; simpl in Hat; try done;
    injection Hat as <-; simpl; rewrite ?H0, ?H1, ?H2, ?H3; simpl;
    (split; [lia | done]).
Qed.

(** C1 as amended. In a reachable playing state, let the player at the
    active seat play a tile [t] on side [sd], with [(t, sd)] among the
    legal moves of their hand. Then [applyMove] succeeds and: the hand
    loses exactly the tile [t] and every other seat is untouched; the board
    gains [t] in front for the left side, at the back for the right side;
    the end on the played side becomes the other pip [x] of [t], which
    differs from the matched end unless [t] is a double; the opposite end
    and the boneyard stay as they were; and the board is still a chain
    from the new left end to the new right end. *)
Theorem applyMove_frame (s : GameState) (p : Player) (t : Tile) (sd : Side) :
  reachable s ->
  status s = playing ->
  at_index (players s) (currentPlayerIndex s) = Some p ->
  mkMove t sd ∈ getValidMoves (hand p) (leftEnd s) (rightEnd s) ->
  exists s' l r h1 h2 x,
    applyMove (pid p) t sd s = Some s' /\
    leftEnd s = Some l /\ rightEnd s = Some r /\
    hand p = h1 ++ t :: h2 /\
    players s' = <[Z.to_nat (currentPlayerIndex s) := setHand p (h1 ++ h2)]> (players s) /\
    (forall i q, i <> Z.to_nat (currentPlayerIndex s) ->
       players s !! i = Some q -> players s' !! i = Some q) /\
    board s' = match sd with
               | SideLeft => t :: board s
               | SideRight => board s ++ [t]
               end /\
    match sd with
    | SideLeft =>
        (t = (l, x) \/ t = (x, l)) /\ (isDouble t = false -> x <> l) /\
        leftEnd s' = Some x /\ rightEnd s' = Some r
    | SideRight =>
        (t = (r, x) \/ t = (x, r)) /\ (isDouble t = false -> x <> r) /\
        rightEnd s' = Some x /\ leftEnd s' = Some l
    end /\
    boneyard s' = boneyard s /\
    (exists l' r', leftEnd s' = Some l' /\ rightEnd s' = Some r' /\
                   Chain l' (board s') r').
Proof.
  intros Hreach Hplaying Hat Hmove.
  pose proof (reachable_playing_good s Hreach Hplaying) as Hgood.
  destruct (good_chain _ Hgood) as (l & r & Hl & Hr & Hch).
  rewrite Hl, Hr in Hmove. apply elem_of_getValidMoves in Hmove as [Hin Hfit].
  simpl in Hin, Hfit.
  set (e := match sd with SideLeft => l | SideRight => r end).
  assert (Hfit' : fits e t = true) by (subst e; by destruct sd).
  destruct (filter_played (hand p) t) as (h1 & h2 & Hhand & Hfilter); [|done|].
  { apply hand_distinct, (good_hands _ Hgood). unfold at_index in Hat.
    destruct (_ <? _); [done|]. by eapply list_elem_of_lookup_2. }
  destruct (seat_by_id (players s) (currentPlayerIndex s) p
              (fun q => setHand q (h1 ++ h2)) (good_ids _ Hgood) Hat)
    as (Hpid & Hfind & Hmap).
  destruct (applyMove (pid p) t sd s) as [s'|] eqn:Happly;
    [|unfold applyMove in Happly; rewrite Hfind in Happly; by destruct sd].
  pose proof (applyMove_good _ _ _ _ _ l r Hgood Hl Hr Hfit' Happly) as Hgood'.
  unfold applyMove in Happly. rewrite Hfind, Hfilter, Hmap in Happly.
  set (x := if t.1 =? e then t.2 else t.1).
  exists s', l, r, h1, h2, x.
  assert (Hx : (t = (e, x) \/ t = (x, e)) /\ (isDouble t = false -> x <> e)).
  { apply fits_iff in Hfit'. subst x. unfold isDouble.
    destruct t as [a b]. simpl in *. rewrite Z.eqb_neq.
    destruct (Z.eqb_spec a e) as [-> | Hne]; [split; [by left | done]|].
    destruct Hfit' as [-> | ->]; [done|]. split; [by right | done]. }
  assert (Hps : players s' = <[Z.to_nat (currentPlayerIndex s) := setHand p (h1 ++ h2)]>
                               (players s))
    by (destruct sd; by injection Happly as <-).
  split; [done|]. split; [done|]. split; [done|]. split; [done|].
  split; [done|].
  split; [intros i q Hne Hq; by rewrite Hps, list_lookup_insert_ne|].
  split; [destruct sd; by injection Happly as <-|].
  split.
  - destruct Hx as [Hx1 Hx2]. subst e x.
    destruct sd; injection Happly as <-; simpl;
      rewrite ?Hl, ?Hr, (newEnd_fits _ _ Hfit'); done.
  - split; [destruct sd; by injection Happly as <-|].
    apply (good_chain _ Hgood').
Qed.

Lemma applyMove_frame_witness :
  exists s s',
    run [Start exampleDraws] initialGameState = Some s /\
    applyMove 3 (4, 9) SideLeft s = Some s' /\
    board s' = (4, 9) :: board s /\
    leftEnd s' = Some 4 /\ rightEnd s' = Some 9.
Proof.
  run_to [Start exampleDraws] s Hreach.
  edestruct (applyMove_frame _
               (mkPlayer 3 "Bot 3 (Right)" true
                  [(0, 7); (4, 5); (6, 8); (5, 7); (7, 8); (4, 8); (8, 8); (4, 9);
                   (3, 7); (3, 5)] 1)
               (4, 9) SideLeft Hreach)
    as (s' & l & r & h1 & h2 & x & Happly & Hl & Hr & _ & _ & _ & Hboard & Hends & _).
  - reflexivity.
  - reflexivity.
  - apply (bool_decide_unpack _). vm_compute. exact I.
  - eexists _, s'. split; [reflexivity|]. split; [exact Happly|].
    split; [exact Hboard|].
    injection Hl as <-. injection Hr as <-.
    destruct Hends as (Ht & _ & Hl' & Hr').
    split; [|exact Hr']. rewrite Hl'. f_equal.
    destruct Ht as [Ht | Ht]; injection Ht; lia.
Defined.

(** C1, the claim as written fails on a double. After two actions of
    [exampleRound] the ends are 4 and 9 and seat 2 is active; its play of
    [[4|4]] on the left is legal, and afterwards both ends are what they
    were: no end has taken a pip of the tile that differs from the matched
    end, since the tile has none. *)
Lemma double_keeps_both_ends :
  exists s p s',
    run (take 2 exampleRound) initialGameState = Some s /\
    status s = playing /\
    at_index (players s) (currentPlayerIndex s) = Some p /\
    mkMove (4, 4) SideLeft ∈ getValidMoves (hand p) (leftEnd s) (rightEnd s) /\
    leftEnd s = Some 4 /\ rightEnd s = Some 9 /\
    applyMove (pid p) (4, 4) SideLeft s = Some s' /\
    leftEnd s' = Some 4 /\ rightEnd s' = Some 9.
Proof.
  run_to (take 2 exampleRound) s Hreach.
  eexists _, _, _. split; [reflexivity|]. split; [reflexivity|].
  split; [reflexivity|].
  split; [apply (bool_decide_unpack _); vm_compute; exact I|].
  split; [reflexivity|]. split; [reflexivity|].
  split; [vm_compute; reflexivity|]. split; reflexivity.
Qed.

(** * The order of the stored board *)

(** Walking a chain from its left end, [getVisualChain] turns each tile
    so that it shows the pip of its left neighbour first. *)
Lemma orientFrom_Chain l b r :
  Chain l b r -> Oriented l (orientFrom (Some l) b) r.
Proof.
  induction 1 as [a | a b ts c _ IH | a b ts c _ IH]; simpl.
  - constructor.
  - rewrite Z.eqb_refl. by constructor.
  - destruct (Z.eqb_spec b a) as [-> | Hne]; by constructor.
Qed.

(** Each tile of the layout is the stored tile at the same place, as it is
    or turned round. *)
Lemma orientFrom_tiles e b :
  Forall2 (fun v t => v = t \/ v = (t.2, t.1)) (orientFrom e b) b.
Proof.
  revert e. induction b as [|[x y] b IH]; intros e; simpl; [constructor|].
  destruct (eqEnd x e); constructor; auto.
Qed.

(** C7 as amended. From the first deal on, the stored board read from
    its first to its last tile is the chain from the left end to the right
    end, and [getVisualChain] lays it out in that very order, only turning
    tiles round; [applyMove] stores a tile played on the left in front of
    the sequence and a tile played on the right behind it. The board is
    kept in spatial order from left to right. *)
Theorem board_spatial_order (s : GameState) :
  reachable s -> status s <> idle ->
  (exists l r,
     leftEnd s = Some l /\ rightEnd s = Some r /\
     Chain l (board s) r /\
     Oriented l (getVisualChain s) r /\
     Forall2 (fun v t => v = t \/ v = (t.2, t.1)) (getVisualChain s) (board s)) /\
  (forall playerId t sd s',
     applyMove playerId t sd s = Some s' ->
     board s' = match sd with
                | SideLeft => t :: board s
                | SideRight => board s ++ [t]
                end).
Proof.
  intros Hreach Hstatus. split.
  - destruct (reachable_good s Hreach) as [-> | Hgood]; [done|].
    destruct (good_chain _ Hgood) as (l & r & Hl & Hr & Hch).
    exists l, r. split; [done|]. split; [done|]. split; [done|].
    unfold getVisualChain. pose proof (good_board _ Hgood) as Hne.
    destruct (board s) as [|t b] eqn:Hb; [done|]. simpl length. simpl Nat.eqb.
    cbv iota. rewrite Hl. split; [by apply orientFrom_Chain|].
    apply orientFrom_tiles.
  - intros playerId t sd s'. unfold applyMove.
    destruct (List.find _ _); [|done]. by destruct sd; intros [= <-].
Qed.

Lemma board_spatial_order_witness :
  exists s,
    run (take 5 exampleRound) initialGameState = Some s /\
    board s = [(0, 4); (4, 4); (4, 9); (9, 9); (8, 9)] /\
    Chain 0 (board s) 8.
Proof.
  run_to (take 5 exampleRound) s Hreach.
  edestruct (board_spatial_order _ Hreach) as [(l & r & Hl & Hr & Hch & _) _]; [done|].
  eexists. split; [reflexivity|]. split; [reflexivity|].
  injection Hl as <-. injection Hr as <-. exact Hch.
Defined.

(** C7, the claim as written fails: after the deal of [exampleDeck] the
    board holds the start tile [[9|9]]; bot 3 then plays [[4|9]] on the
    left, and the board stores it before the tile played first. *)
Lemma board_not_in_play_order :
  exists s s',
    run (take 1 exampleRound) initialGameState = Some s /\
    act Loop s = Some s' /\
    board s = [(9, 9)] /\
    logs s' = ["Game Started. You leads with [9|9].";
               "Bot 3 (Right) plays [4|9] on the left."] /\
    board s' = [(4, 9); (9, 9)] /\
    board s' <> board s ++ [(4, 9)].
Proof.
  run_to (take 1 exampleRound) s Hreach.
  eexists _, _. split; [reflexivity|]. split; [vm_compute; reflexivity|].
  repeat split; done.
Qed.

(** * The locked round (tranque) *)

Lemma fold_lowest_keep ps acc :
  (forall q, q ∈ ps -> minPips acc < handPips (hand q)) ->
  fold_left lowestStep ps acc = acc.
Proof.
  induction ps as [|q ps IH]; intros Hgt; simpl; [done|].
  assert (Hq : minPips acc < handPips (hand q)) by (apply Hgt; left).
  unfold lowestStep at 2.
  destruct (Z.ltb_spec (handPips (hand q)) (minPips acc)); [lia|].
  destruct (Z.eqb_spec (handPips (hand q)) (minPips acc)); [lia|].
  apply IH. intros; apply Hgt; by right.
Qed.

Lemma fold_lowest_above ps acc M :
  M <= minPips acc ->
  (forall q, q ∈ ps -> M < handPips (hand q)) ->
  M <= minPips (fold_left lowestStep ps acc).
Proof.
  revert acc. induction ps as [|q ps IH]; intros acc Hacc Hgt; simpl; [done|].
  apply IH; [|intros; apply Hgt; by right].
  assert (Hq : M < handPips (hand q)) by (apply Hgt; left).
  unfold lowestStep.
  destruct (_ <? _); simpl; [lia|]. destruct (_ =? _); simpl; lia.
Qed.

(** The scan of the tranque branch names the team of a player whose pip
    total is strictly the lowest, when that total does not exceed the
    starting bound 1000. *)
Lemma fold_lowest_unique ps1 p ps2 :
  handPips (hand p) <= 1000 ->
  (forall q, q ∈ ps1 ++ ps2 -> handPips (hand p) < handPips (hand q)) ->
  winningTeam (fold_left lowestStep (ps1 ++ p :: ps2) (mkLowest 1000 (-1))) = team p.
Proof.
  intros Hbound Hlow. rewrite fold_left_app. simpl.
  pose proof (fold_lowest_above ps1 (mkLowest 1000 (-1)) (handPips (hand p)) Hbound) as H1.
  specialize (H1 ltac:(intros; apply Hlow, elem_of_app; by left)).
  set (acc1 := fold_left lowestStep ps1 _) in *.
  assert (Hstep : lowestStep acc1 p = mkLowest (handPips (hand p)) (team p)).
  { unfold lowestStep.
    destruct (Z.ltb_spec (handPips (hand p)) (minPips acc1)); [done|].
    destruct (Z.eqb_spec (handPips (hand p)) (minPips acc1)) as [-> | ?]; [done | lia]. }
  rewrite Hstep, fold_lowest_keep; [done|].
  intros q Hq. simpl. apply Hlow, elem_of_app. by right.
Qed.

(** C2 as amended. In a reachable playing state whose active player
    still holds a tile, with a non-empty board and no player having a
    legal move, the game loop ends the round with reason tranque; and when
    one player's pip total is strictly lower than every other player's,
    the winner recorded is that player's team. *)
Theorem tranque_spec (s : GameState) (cur : Player) :
  reachable s ->
  status s = playing ->
  at_index (players s) (currentPlayerIndex s) = Some cur ->
  hand cur <> [] ->
  board s <> [] ->
  (forall p, p ∈ players s -> getValidMoves (hand p) (leftEnd s) (rightEnd s) = []) ->
  exists w,
    gameLoop s = Some (RoundEnd tranque w) /\
    status (handleRoundEnd tranque w s) = round_over /\
    (exists pts, winner (handleRoundEnd tranque w s) = Some (mkWinner w tranque pts)) /\
    (forall ps1 p ps2,
       players s = ps1 ++ p :: ps2 ->
       (forall q, q ∈ ps1 ++ ps2 -> handPips (hand p) < handPips (hand q)) ->
       w = team p).
Proof.
  intros Hreach Hstatus Hcur Hhand Hboard Hnone.
  exists (winningTeam (fold_left lowestStep (players s) (mkLowest 1000 (-1)))).
  split; [|split; [done|split; [by eexists|]]].
  - unfold gameLoop. rewrite Hstatus, Hcur.
    destruct (hand cur) as [|t h] eqn:Eh; [done|]. simpl.
    assert (Hany : existsb (fun p =>
              (0 <? length (getValidMoves (hand p) (leftEnd s) (rightEnd s)))%nat)
              (players s) = false).
    { apply not_true_is_false. intros Hex. apply existsb_exists in Hex as (p & Hp & Hlen).
      apply list_elem_of_In in Hp. by rewrite (Hnone p Hp) in Hlen. }
    rewrite Hany. destruct (board s); done.
  - intros ps1 p ps2 Hps Hlow.
    pose proof (reachable_playing_good s Hreach Hstatus) as Hgood.
    rewrite Hps. apply fold_lowest_unique; [|done].
    assert (Hp : p ∈ players s) by (rewrite Hps; apply elem_of_app; right; left).
    pose proof (handOk_pips _ (good_hands _ Hgood p Hp)). lia.
Qed.

Lemma tranque_spec_witness :
  exists s,
    run lockedRound initialGameState = Some s /\
    gameLoop s = Some (RoundEnd tranque 1).
Proof.
  run_to lockedRound s Hreach.
  edestruct (tranque_spec _
               (mkPlayer 0 "You" false
                  [(1, 1); (2, 2); (0, 0); (7, 7); (5, 6); (5, 7); (1, 8); (2, 8)] 0)
               Hreach)
    as (w & Hloop & _ & _ & Hw).
  - reflexivity.
  - reflexivity.
  - discriminate.
  - discriminate.
  - simpl. intros p Hp. in_cases Hp; reflexivity.
  - eexists. split; [reflexivity|]. rewrite Hloop.
    rewrite (Hw [_; _; _] _ [] eq_refl); [reflexivity|].
    simpl. intros q Hq. in_cases Hq; by vm_compute.
Defined.

(** C2, the claim as written fails: at the end of [exampleRound] the
    status is playing, the board is not empty and none of the four hands
    has a legal move, yet the active player's hand is empty and the game
    loop ends the round with reason domino. *)
Lemma locked_round_ends_as_domino :
  exists s,
    run exampleRound initialGameState = Some s /\
    status s = playing /\
    length (board s) = 37%nat /\
    currentPlayerIndex s = 0 /\
    hand <$> players s = [[]; [(2, 4)]; []; [(7, 8); (4, 8)]] /\
    leftEnd s = Some 0 /\ rightEnd s = Some 3 /\
    Forall (fun p => getValidMoves (hand p) (leftEnd s) (rightEnd s) = []) (players s) /\
    gameLoop s = Some (RoundEnd domino 0).
Proof.
  run_to exampleRound s Hreach.
  eexists. split; [reflexivity|].
  repeat split; try reflexivity.
  repeat constructor.
Qed.

(** * The end of the round by domino *)

(** [applyMove] never ends the round: the status and the winner are the
    concern of the game loop, which then looks at the next seat. *)
Lemma applyMove_status playerId t sd s s' :
  applyMove playerId t sd s = Some s' ->
  status s' = status s /\ winner s' = winner s /\
  currentPlayerIndex s' = getNextPlayerIndex (currentPlayerIndex s).
Proof.
  unfold applyMove. destruct (List.find _ _); [|done].
  by destruct sd; intros [= <-].
Qed.

(** C8, the code at the failing input. In [exampleRound] the user plays
    their last tile, [[3|9]], with the 37th action. The state that results
    has the user's hand empty and is still playing with no winner: the
    turn pointer has moved on to seat 3, whose hand is not empty, so the
    game loop schedules bot 3. Three more tiles are played before the loop
    reaches seat 0 again and ends the round by domino. *)
Theorem domino_detected_late :
  exists s0 s1 bot s2 s4,
    run (take 36 exampleRound) initialGameState = Some s0 /\
    hand <$> players s0 = [[(3, 9)]; [(3, 3); (2, 4)]; [(0, 3)]; [(7, 8); (4, 8); (3, 5)]] /\
    currentPlayerIndex s0 = 0 /\
    onUserTileClick (3, 9) false s0 = Some s1 /\
    hand <$> players s1 = [[]; [(3, 3); (2, 4)]; [(0, 3)]; [(7, 8); (4, 8); (3, 5)]] /\
    status s1 = playing /\ winner s1 = None /\ currentPlayerIndex s1 = 3 /\
    gameLoop s1 = Some (BotTurn bot) /\ pid bot = 3 /\
    executeBotTurn bot s1 = Some s2 /\
    status s2 = playing /\ length (board s2) = S (length (board s1)) /\
    run [Loop; Loop] s2 = Some s4 /\
    status s4 = playing /\ length (board s4) = (3 + length (board s1))%nat /\
    gameLoop s4 = Some (RoundEnd domino 0).
Proof.
  run_to (take 36 exampleRound) s0 Hreach.
  eexists _, _, _, _, _.
  split; [reflexivity|]. split; [reflexivity|]. split; [reflexivity|].
  split; [vm_compute; reflexivity|].
  split; [reflexivity|]. split; [reflexivity|]. split; [reflexivity|].
  split; [reflexivity|].
  split; [vm_compute; reflexivity|]. split; [reflexivity|].
  split; [vm_compute; reflexivity|].
  split; [reflexivity|]. split; [reflexivity|].
  split; [vm_compute; reflexivity|].
  split; [reflexivity|]. split; [reflexivity|].
  vm_compute. reflexivity.
Qed.

(** * Illegal commands *)

(** C9 as amended. [onUserTileClick] returns without touching the state
    when seat 0 is not the active seat, when the status is not playing, or
    when the clicked tile fits neither of the two set ends; nothing is
    reported. [applyMove] itself checks nothing: given the id of a player
    it stores the tile on the board, advances the turn pointer and appends
    a log entry, whatever the tile, the side and the seat. *)
Theorem illegal_commands (s : GameState) (t : Tile) :
  (forall choice,
     currentPlayerIndex s <> 0 \/ status s <> playing \/
     (exists l r, leftEnd s = Some l /\ rightEnd s = Some r /\
                  fits l t = false /\ fits r t = false) ->
     onUserTileClick t choice s = Some s) /\
  (forall p sd,
     p ∈ players s ->
     exists s',
       applyMove (pid p) t sd s = Some s' /\
       length (board s') = S (length (board s)) /\
       t ∈ board s' /\
       currentPlayerIndex s' = getNextPlayerIndex (currentPlayerIndex s) /\
       length (logs s') = S (length (logs s))).
Proof.
  split.
  - intros choice H. unfold onUserTileClick.
    destruct (Z.eqb_spec (currentPlayerIndex s) 0) as [Hcur | Hcur]; [|done].
    case_bool_decide as Hst; [|done]. simpl.
    destruct H as [H | [H | (l & r & -> & -> & Hl & Hr)]]; [done..|].
    rewrite getValidMoves_flat. simpl. unfold entries. by rewrite Hl, Hr.
  - intros p sd Hp. unfold applyMove.
    destruct (List.find _ (players s)) as [player|] eqn:Hfind.
    + destruct sd; eexists; (split; [reflexivity|]); simpl;
        rewrite ?length_app; simpl; repeat split; try lia.
      * left.
      * apply elem_of_app. right. left.
    + apply list_elem_of_In in Hp. eapply find_none in Hfind; [|exact Hp].
      simpl in Hfind. lia.
Qed.

Lemma illegal_commands_witness :
  exists s,
    run (take 1 exampleRound) initialGameState = Some s /\
    currentPlayerIndex s = 3 /\
    onUserTileClick (0, 9) true s = Some s.
Proof.
  run_to (take 1 exampleRound) s Hreach.
  eexists. split; [reflexivity|]. split; [reflexivity|].
  apply (proj1 (illegal_commands _ (0, 9)) true). left. simpl. lia.
Defined.

(** C9, the claim as written fails. After the deal of [exampleDeck] the
    active seat is 3 and both ends show 9. [applyMove] accepts for seat 3
    the tile [[0|9]], which is in the user's hand and not in that of
    seat 3; for seat 3 its tile [[0|7]], which fits neither end; and for
    seat 1, out of turn, its tile [[8|9]]. Each time the board, the turn
    pointer and the log change. *)
Lemma illegal_play_applied :
  exists s s1 s2 s3,
    run (take 1 exampleRound) initialGameState = Some s /\
    currentPlayerIndex s = 3 /\ board s = [(9, 9)] /\
    leftEnd s = Some 9 /\ rightEnd s = Some 9 /\
    hand <$> at_index (players s) 3
      = Some [(0, 7); (4, 5); (6, 8); (5, 7); (7, 8); (4, 8); (8, 8); (4, 9); (3, 7); (3, 5)] /\
    applyMove 3 (0, 9) SideLeft s = Some s1 /\
    board s1 = [(0, 9); (9, 9)] /\ leftEnd s1 = Some 0 /\
    currentPlayerIndex s1 = 2 /\ length (logs s1) = S (length (logs s)) /\
    applyMove 3 (0, 7) SideLeft s = Some s2 /\
    board s2 = [(0, 7); (9, 9)] /\ leftEnd s2 = Some 9 /\
    hand <$> at_index (players s2) 3
      = Some [(4, 5); (6, 8); (5, 7); (7, 8); (4, 8); (8, 8); (4, 9); (3, 7); (3, 5)] /\
    currentPlayerIndex s2 = 2 /\ length (logs s2) = S (length (logs s)) /\
    applyMove 1 (8, 9) SideRight s = Some s3 /\
    board s3 = [(9, 9); (8, 9)] /\ rightEnd s3 = Some 8 /\
    currentPlayerIndex s3 = 2 /\ length (logs s3) = S (length (logs s)).
Proof.
  run_to (take 1 exampleRound) s Hreach.
  eexists _, _, _, _. split; [reflexivity|].
  do 5 (split; [reflexivity|]).
  split; [vm_compute; reflexivity|]. do 4 (split; [reflexivity|]).
  split; [vm_compute; reflexivity|]. do 5 (split; [reflexivity|]).
  split; [vm_compute; reflexivity|]. repeat split; reflexivity.
Qed.

(** * Further properties of the program *)

(** ** The deck: [generateDeck], [areTilesEqual], [shuffleDeck] *)

Lemma elem_of_generateDeck t : t ∈ generateDeck <-> 0 <= t.1 <= t.2 /\ t.2 <= 9.
Proof.
  unfold generateDeck. rewrite list_elem_of_In, in_flat_map. split.
  - intros (i & Hi & Ht). apply list_elem_of_In, elem_of_seqZ in Hi.
    apply list_elem_of_In, list_elem_of_fmap in Ht as (j & -> & Hj).
    apply elem_of_seqZ in Hj. simpl. lia.
  - intros [H1 H2]. exists t.1. split.
    + apply list_elem_of_In, elem_of_seqZ. lia.
    + apply list_elem_of_In, list_elem_of_fmap. exists t.2. split.
      * by destruct t.
      * apply elem_of_seqZ. lia.
Qed.

(** X1. [generateDeck] lists, once each, exactly the tiles [[i, j]] with
    [0 <= i <= j <= 9]: 55 tiles, no two of them equal even as unordered
    pairs. *)
Theorem generateDeck_spec :
  length generateDeck = 55%nat /\
  NoDup generateDeck /\
  distinctTiles generateDeck /\
  (forall t, t ∈ generateDeck <-> 0 <= t.1 <= t.2 /\ t.2 <= 9).
Proof.
  split; [reflexivity|]. split; [|split; [apply deck_distinct|]].
  - eapply NoDup_fmap_1. apply deck_distinct.
  - apply elem_of_generateDeck.
Qed.

(** X2. [areTilesEqual] is an equivalence on tiles: it holds of [t] and [u]
    exactly when [u] is [t] or [t] turned round, and equal tiles have the
    same pip sum and are doubles together. *)
Theorem areTilesEqual_equiv (t u v : Tile) :
  areTilesEqual t t = true /\
  areTilesEqual t u = areTilesEqual u t /\
  (areTilesEqual t u = true -> areTilesEqual u v = true -> areTilesEqual t v = true) /\
  (areTilesEqual t u = true <-> u = t \/ u = (t.2, t.1)) /\
  (areTilesEqual t u = true ->
     getTileSum t = getTileSum u /\ isDouble t = isDouble u).
Proof.
  split; [apply areTilesEqual_refl|]. split.
  { apply eq_true_iff_eq. rewrite !areTilesEqual_canon. split; congruence. }
  split.
  { rewrite !areTilesEqual_canon. congruence. }
  destruct t as [a b], u as [c d]. unfold areTilesEqual, getTileSum, isDouble. simpl.
  rewrite orb_true_iff, !andb_true_iff, !Z.eqb_eq. split.
  - split.
    + intros [[-> ->] | [-> ->]]; auto.
    + intros [[= -> ->] | [= -> ->]]; auto.
  - intros [[-> ->] | [-> ->]]; (split; [lia|]); [done | apply Z.eqb_sym].
Qed.

Lemma areTilesEqual_equiv_witness :
  areTilesEqual (3, 5) (5, 3) = true /\ getTileSum (3, 5) = getTileSum (5, 3).
Proof.
  destruct (areTilesEqual_equiv (3, 5) (5, 3) (3, 5)) as (_ & _ & _ & Hiff & Hsum).
  assert (H : areTilesEqual (3, 5) (5, 3) = true) by (apply Hiff; right; reflexivity).
  split; [exact H|]. apply (Hsum H).
Defined.

Lemma swapAt_same d i : swapAt d i i = d.
Proof.
  unfold swapAt. destruct (d !! i) as [x|] eqn:Hi; [|done].
  by rewrite list_insert_insert_eq, list_insert_id.
Qed.

Lemma shuffleLoop_identity draw i d :
  (forall k, draw k = k) -> shuffleLoop draw i d = d.
Proof.
  intros Hid. revert d. induction i as [|i IH]; intros d; simpl; [done|].
  by rewrite Hid, swapAt_same, IH.
Qed.

(** X3. Whatever numbers are drawn, [shuffleDeck] returns a rearrangement
    of the deck it is given: the same tiles, as many of each, hence as many
    in all, and distinct when they were. Drawing the index itself every
    time leaves the deck in its order, and the empty deck stays empty. *)
Theorem shuffleDeck_rearranges (draw : nat -> nat) (deck : list Tile) :
  shuffleDeck draw deck ≡ₚ deck /\
  length (shuffleDeck draw deck) = length deck /\
  (forall t, t ∈ shuffleDeck draw deck <-> t ∈ deck) /\
  (distinctTiles deck -> distinctTiles (shuffleDeck draw deck)) /\
  ((forall k, draw k = k) -> shuffleDeck draw deck = deck) /\
  shuffleDeck draw [] = [].
Proof.
  pose proof (shuffleLoop_perm draw (length deck - 1) deck) as Hperm.
  fold (shuffleDeck draw deck) in Hperm.
  split; [done|]. split; [by rewrite Hperm|]. split; [intros t; by rewrite Hperm|].
  split; [unfold distinctTiles; by rewrite Hperm|].
  split; [|done]. intros Hid. by apply shuffleLoop_identity.
Qed.

Lemma shuffleDeck_rearranges_witness :
  distinctTiles (shuffleDeck (fun i => 0%nat) [(0, 0); (0, 1); (1, 1)]).
Proof.
  apply (shuffleDeck_rearranges (fun i => 0%nat) [(0, 0); (0, 1); (1, 1)]).
  unfold distinctTiles. apply (bool_decide_unpack _). vm_compute. exact I.
Defined.

(** ** Every order of the deck can be shuffled *)

Lemma shuffleLoop_ext draw draw' i d :
  (forall k, (1 <= k <= i)%nat -> draw k = draw' k) ->
  shuffleLoop draw i d = shuffleLoop draw' i d.
Proof.
  revert d. induction i as [|i IH]; intros d Heq; simpl; [done|].
  rewrite (Heq (S i)) by lia. apply IH. intros k Hk. apply Heq. lia.
Qed.

Lemma length_swapAt d i j : length (swapAt d i j) = length d.
Proof.
  unfold swapAt. destruct (d !! i), (d !! j); try done. by rewrite !length_insert.
Qed.

(** The loop from index [i] down can bring the deck to any order of its
    tiles that already agrees with it beyond [i]. *)
Lemma shuffleLoop_reach i d target :
  (i < length d)%nat -> d ≡ₚ target ->
  drop (S i) d = drop (S i) target ->
  exists draw, (forall k, (draw k <= k)%nat) /\ shuffleLoop draw i d = target.
Proof.
  revert d. induction i as [|i IH]; intros d Hlt Hperm Hdrop.
  - exists (fun _ => O). split; [intros; lia|]. simpl.
    pose proof (Permutation_length Hperm) as Hlen.
    destruct d as [|x d], target as [|y target]; simpl in *; try lia.
    rewrite !drop_0 in Hdrop. subst target.
    apply (Permutation_app_inv_r d [x] [y]), Permutation_singleton_l in Hperm.
    congruence.
  - pose proof (Permutation_length Hperm) as Hlen.
    destruct (lookup_lt_is_Some_2 target (S i)) as [x Hx]; [lia|].
    assert (Htake : take (S (S i)) d ≡ₚ take (S (S i)) target).
    { apply (Permutation_app_inv_r (drop (S (S i)) d)).
      rewrite take_drop, Hdrop, take_drop. done. }
    assert (Hin : x ∈ take (S (S i)) d).
    { rewrite Htake. apply (list_elem_of_lookup_2 _ (S i)).
      rewrite lookup_take_lt by lia. done. }
    apply list_elem_of_lookup in Hin as [j Hj].
    pose proof (lookup_lt_Some _ _ _ Hj) as Hjlt. rewrite length_take in Hjlt.
    rewrite lookup_take_lt in Hj by lia.
    destruct (lookup_lt_is_Some_2 d (S i)) as [y Hy]; [lia|].
    set (d' := swapAt d (S i) j).
    assert (Hd' : d' = <[j := y]> (<[S i := x]> d)).
    { unfold d', swapAt. by rewrite Hy, Hj. }
    assert (Hat : d' !! S i = Some x).
    { rewrite Hd'. destruct (decide (j = S i)) as [-> | Hne].
      - rewrite list_lookup_insert_eq by (rewrite length_insert; lia). congruence.
      - rewrite list_lookup_insert_ne by done.
        by rewrite list_lookup_insert_eq by lia. }
    destruct (IH d') as (draw' & Hbound & Hloop).
    + unfold d'. rewrite length_swapAt. lia.
    + unfold d'. by rewrite swapAt_perm.
    + rewrite (drop_S _ _ _ Hat), (drop_S _ _ _ Hx). f_equal.
      rewrite <- Hdrop, Hd'.
      rewrite drop_insert_lt by lia. by rewrite drop_insert_lt by lia.
    + exists (fun k => if decide (k = S i) then j else draw' k). split.
      * intros k. destruct (decide (k = S i)) as [-> | _]; [lia | apply Hbound].
      * simpl. destruct (decide (S i = S i)) as [_ | ?]; [|done].
        fold d'. rewrite <- Hloop. apply shuffleLoop_ext.
        intros k Hk. destruct (decide (k = S i)); [lia | done].
Qed.

(** X4. The shuffle can give every order. For every rearrangement of the
    deck there are draws, the draw at index [i] being one of the numbers
    [0 .. i] that [Math.floor (Math.random () * (i + 1))] can take, with
    which [shuffleDeck] returns that rearrangement. *)
Theorem shuffleDeck_complete (deck target : list Tile) :
  target ≡ₚ deck ->
  exists draw, (forall k, (draw k <= k)%nat) /\ shuffleDeck draw deck = target.
Proof.
  intros Hperm. unfold shuffleDeck.
  destruct deck as [|t deck].
  - apply Permutation_nil_r in Hperm as ->. exists (fun _ => O). split; [intros; lia | done].
  - pose proof (Permutation_length Hperm) as Hlen.
    apply shuffleLoop_reach; [simpl; lia | done |].
    rewrite !drop_ge; [done | simpl in *; lia | simpl in *; lia].
Qed.

Lemma shuffleDeck_complete_witness :
  exists draw,
    (forall k, (draw k <= k)%nat) /\
    shuffleDeck draw [(0, 0); (0, 1); (1, 1)] = [(1, 1); (0, 0); (0, 1)].
Proof.
  apply (shuffleDeck_complete [(0, 0); (0, 1); (1, 1)] [(1, 1); (0, 0); (0, 1)]).
  apply (Permutation_cons_append [(0, 0); (0, 1)] (1, 1)).
Defined.

(** ** Turn order: [getNextPlayerIndex] *)

(** X5. On the four seats [getNextPlayerIndex] is the cycle 0, 3, 2, 1, 0:
    it steps one seat down, wraps from 0 to 3, never stays in place, sends
    distinct seats to distinct seats and comes back after four steps. Any
    non-negative number is sent to a seat. *)
Theorem getNextPlayerIndex_cycle (c : Z) :
  (0 <= c -> 0 <= getNextPlayerIndex c < 4) /\
  (0 <= c < 4 ->
     getNextPlayerIndex c = (if c =? 0 then 3 else c - 1) /\
     getNextPlayerIndex c <> c /\
     getNextPlayerIndex
       (getNextPlayerIndex (getNextPlayerIndex (getNextPlayerIndex c))) = c /\
     forall c', 0 <= c' < 4 -> getNextPlayerIndex c' = getNextPlayerIndex c -> c' = c).
Proof.
  split.
  - intros Hc. rewrite getNextPlayerIndex_mod by done. apply Z.mod_pos_bound. lia.
  - intros Hc.
    assert (c = 0 \/ c = 1 \/ c = 2 \/ c = 3) as [-> | [-> | [-> | ->]]] by lia;
      (split; [reflexivity|]); (split; [done|]); (split; [reflexivity|]);
      intros c' Hc' Heq;
      assert (c' = 0 \/ c' = 1 \/ c' = 2 \/ c' = 3) as [-> | [-> | [-> | ->]]] by lia;
      done.
Qed.

Lemma getNextPlayerIndex_cycle_witness :
  getNextPlayerIndex 0 = 3 /\ 0 <= getNextPlayerIndex 7 < 4.
Proof.
  split.
  - apply (proj2 (getNextPlayerIndex_cycle 0)). lia.
  - apply (proj1 (getNextPlayerIndex_cycle 7)). lia.
Defined.

(** ** Legal moves and the bot: [getValidMoves], [calculateBotMove] *)

Lemma getValidMoves_app_eq h1 h2 le re :
  getValidMoves (h1 ++ h2) le re = getValidMoves h1 le re ++ getValidMoves h2 le re.
Proof.
  destruct le as [l|], re as [r|]; unfold getValidMoves;
    try apply map_app.
  by rewrite !fold_pushMoves, flat_map_app.
Qed.

Lemma getValidMoves_tile hand le re m :
  m ∈ getValidMoves hand le re -> tile m ∈ hand.
Proof.
  destruct le as [l|] eqn:El, re as [r|] eqn:Er.
  - intros Hm. by apply elem_of_getValidMoves in Hm as [? _].
  - rewrite getValidMoves_null by auto.
    intros Hm. apply list_elem_of_fmap in Hm as (t & -> & Ht). done.
  - rewrite getValidMoves_null by auto.
    intros Hm. apply list_elem_of_fmap in Hm as (t & -> & Ht). done.
  - rewrite getValidMoves_null by auto.
    intros Hm. apply list_elem_of_fmap in Hm as (t & -> & Ht). done.
Qed.

(** X6. [getValidMoves] works tile by tile: the moves of a hand made of two
    parts are the moves of the first part followed by those of the second.
    So every move it returns plays a tile of the hand, there are at most
    two moves per tile, and the moves it finds for a single tile of the
    hand, as the click handler asks for them, are moves of the whole
    hand. *)
Theorem getValidMoves_app (h1 h2 : list Tile) (le re : option Z) :
  getValidMoves (h1 ++ h2) le re = getValidMoves h1 le re ++ getValidMoves h2 le re /\
  (forall m, m ∈ getValidMoves (h1 ++ h2) le re -> tile m ∈ h1 ++ h2) /\
  (length (getValidMoves (h1 ++ h2) le re) <= 2 * length (h1 ++ h2))%nat /\
  (forall t m, t ∈ h1 ++ h2 -> m ∈ getValidMoves [t] le re ->
     m ∈ getValidMoves (h1 ++ h2) le re).
Proof.
  split; [apply getValidMoves_app_eq|]. split; [apply getValidMoves_tile|]. split.
  - destruct le as [l|], re as [r|];
      try (rewrite getValidMoves_null by auto; rewrite length_map; lia).
    rewrite getValidMoves_flat, flat_entries_length.
    pose proof (List.filter_length_le (fits l) (h1 ++ h2)).
    pose proof (List.filter_length_le (fits r) (h1 ++ h2)). lia.
  - intros t m Ht Hm. apply list_elem_of_split in Ht as (k1 & k2 & ->).
    change (t :: k2) with ([t] ++ k2).
    rewrite !getValidMoves_app_eq, !elem_of_app. auto.
Qed.

Lemma getValidMoves_app_witness :
  mkMove (2, 5) SideRight ∈ getValidMoves ([(1, 1)] ++ [(2, 5); (3, 3)]) (Some 4) (Some 5).
Proof.
  apply (getValidMoves_app [(1, 1)] [(2, 5); (3, 3)] (Some 4) (Some 5)) with (t := (2, 5)).
  - apply (bool_decide_unpack _). vm_compute. exact I.
  - apply (bool_decide_unpack _). vm_compute. exact I.
Defined.

Lemma calculateBotMove_None h le re ph next :
  calculateBotMove h le re ph next = None <-> getValidMoves h le re = [].
Proof.
  unfold calculateBotMove.
  destruct (getValidMoves h le re) as [|m1 [|m2 rest]] eqn:E; [done | done |].
  split; [|done]. intros Hnone.
  destruct (head_sortBy_first_max score (map (scoreMove le re ph next) (m1 :: m2 :: rest)))
    as (i & sm & _ & Hhd & _); [done|].
  by rewrite Hhd in Hnone.
Qed.

(** X7. [calculateBotMove] answers [null] exactly when the hand has no
    legal move, which on a board with both ends set means that no tile of
    the hand has a pip equal to either end; any move it answers is one of
    the legal moves and plays a tile of the hand. The bot never passes
    with a playable tile and never plays a tile it does not hold. *)
Theorem calculateBotMove_sound (hand : list Tile) (le re : option Z)
    (ph : gmap Z (list Z)) (next : Z) :
  (calculateBotMove hand le re ph next = None <-> getValidMoves hand le re = []) /\
  (forall l r, le = Some l -> re = Some r ->
     (calculateBotMove hand le re ph next = None <->
      forall t, t ∈ hand -> fits l t = false /\ fits r t = false)) /\
  (forall m, calculateBotMove hand le re ph next = Some m ->
     m ∈ getValidMoves hand le re /\ tile m ∈ hand /\
     forall l r, le = Some l -> re = Some r ->
       fits (match side m with SideLeft => l | SideRight => r end) (tile m) = true).
Proof.
  split; [apply calculateBotMove_None|]. split.
  - intros l r -> ->. rewrite calculateBotMove_None, getValidMoves_flat.
    apply flat_entries_nil.
  - intros m Hm. apply calculateBotMove_valid in Hm.
    split; [done|]. split; [by eapply getValidMoves_tile|].
    intros l r -> ->. apply elem_of_getValidMoves in Hm as [_ Hfit].
    by destruct (side m).
Qed.

Lemma calculateBotMove_sound_witness :
  calculateBotMove [(1, 2); (3, 3)] (Some 4) (Some 5) initialPassHistory 3 = None.
Proof.
  apply (proj1 (proj2 (calculateBotMove_sound [(1, 2); (3, 3)] (Some 4) (Some 5)
                         initialPassHistory 3)) 4 5); [reflexivity | reflexivity |].
  intros t Ht. in_cases Ht; split; reflexivity.
Defined.

Lemma blocksNext_score hand l r ph next m :
  m ∈ getValidMoves hand (Some l) (Some r) ->
  moveScore (Some l) (Some r) ph next m
  = getTileSum (tile m)
    + (if blocksNext (Some l) (Some r) ph next m then 25 else 0)
    + (if isDouble (tile m) then 10 else 0).
Proof.
  intros Hm. destruct (moveScore_legal _ _ _ ph next _ Hm) as (x & Hx & ->).
  unfold blocksNext. by rewrite Hx.
Qed.

(** X8. Blocking outweighs pips. On a board with both ends set, let the
    hand hold tiles of the double-9 set and let no legal move play a
    double. If some legal move leaves an end on which the next seat is
    recorded to have passed, then the move [calculateBotMove] answers leaves
    such an end too. *)
Theorem calculateBotMove_blocks (hand : list Tile) (l r : Z)
    (ph : gmap Z (list Z)) (next : Z) (m0 : Move) :
  Forall inRange hand ->
  (forall m, m ∈ getValidMoves hand (Some l) (Some r) -> isDouble (tile m) = false) ->
  m0 ∈ getValidMoves hand (Some l) (Some r) ->
  blocksNext (Some l) (Some r) ph next m0 = true ->
  exists m,
    calculateBotMove hand (Some l) (Some r) ph next = Some m /\
    blocksNext (Some l) (Some r) ph next m = true.
Proof.
  intros Hrange Hnodbl Hm0 Hblock.
  destruct (calculateBotMove hand (Some l) (Some r) ph next) as [m|] eqn:Hbest.
  2: { apply calculateBotMove_None in Hbest. rewrite Hbest in Hm0.
       by apply elem_of_nil in Hm0. }
  exists m. split; [done|].
  pose proof (calculateBotMove_valid _ _ _ _ _ _ Hbest) as Hm.
  assert (Hle : moveScore (Some l) (Some r) ph next m0
                <= moveScore (Some l) (Some r) ph next m).
  { unfold calculateBotMove in Hbest.
    destruct (getValidMoves hand (Some l) (Some r)) as [|m1 [|m2 rest]] eqn:E.
    - by apply elem_of_nil in Hm0.
    - injection Hbest as <-. apply list_elem_of_singleton in Hm0 as ->. lia.
    - destruct (head_sortBy_first_max score
                  (map (scoreMove (Some l) (Some r) ph next) (m1 :: m2 :: rest)))
        as (i & sm & Hi & Hhd & Hmax & _); [done|].
      rewrite Hhd in Hbest. injection Hbest as <-.
      change (map ?f ?k) with (f <$> k) in Hi, Hmax.
      rewrite list_lookup_fmap in Hi.
      destruct ((m1 :: m2 :: rest) !! i) as [mi|]; [|done].
      injection Hi as <-.
      apply list_elem_of_lookup in Hm0 as [j Hj].
      apply (Hmax j (scoreMove (Some l) (Some r) ph next m0)).
      by rewrite list_lookup_fmap, Hj. }
  rewrite (blocksNext_score hand l r ph next m0 Hm0),
    (blocksNext_score hand l r ph next m Hm) in Hle.
  rewrite Hblock, (Hnodbl m0 Hm0), (Hnodbl m Hm) in Hle.
  destruct (blocksNext (Some l) (Some r) ph next m); [done|].
  assert (Hin : forall m', m' ∈ getValidMoves hand (Some l) (Some r) ->
                  0 <= getTileSum (tile m') <= 17).
  { intros m' Hm'. pose proof (Hnodbl m' Hm') as Hd.
    apply getValidMoves_tile in Hm'.
    apply (proj1 (Forall_forall _ _) Hrange) in Hm' as [H1 H2].
    unfold isDouble in Hd. apply Z.eqb_neq in Hd. unfold getTileSum. lia. }
  pose proof (Hin m0 Hm0). pose proof (Hin m Hm). lia.
Qed.

Lemma calculateBotMove_blocks_witness :
  exists m,
    calculateBotMove [(4, 9); (4, 3)] (Some 4) (Some 4) (<[1 := [3]]> initialPassHistory) 1
      = Some m /\
    blocksNext (Some 4) (Some 4) (<[1 := [3]]> initialPassHistory) 1 m = true.
Proof.
  apply (calculateBotMove_blocks [(4, 9); (4, 3)] 4 4 (<[1 := [3]]> initialPassHistory) 1
           (mkMove (4, 3) SideLeft)).
  - apply (bool_decide_unpack _). vm_compute. exact I.
  - intros m Hm. apply getValidMoves_tile in Hm. in_cases Hm; reflexivity.
  - apply (bool_decide_unpack _). vm_compute. exact I.
  - reflexivity.
Defined.

(** ** Scoring: [calculateScores] *)

Lemma fold_scoreStep_total ps sc :
  team0 (fold_left scoreStep ps sc) + team1 (fold_left scoreStep ps sc)
  = team0 sc + team1 sc + sumZ (map (fun p => handPips (hand p)) ps).
Proof.
  revert sc. induction ps as [|p ps IH]; intros sc; simpl; [lia|].
  rewrite IH. unfold scoreStep. destruct (team p =? 0); simpl; lia.
Qed.

Lemma fold_scoreStep_nonneg ps sc :
  (forall p, p ∈ ps -> 0 <= handPips (hand p)) ->
  team0 sc <= team0 (fold_left scoreStep ps sc) /\
  team1 sc <= team1 (fold_left scoreStep ps sc).
Proof.
  revert sc. induction ps as [|p ps IH]; intros sc Hpos; simpl; [lia|].
  destruct (IH (scoreStep sc p)) as [H0 H1]; [intros; apply Hpos; by right|].
  pose proof (Hpos p ltac:(left)).
  unfold scoreStep in *. destruct (team p =? 0); simpl in *; lia.
Qed.

(** X9. Whatever the team numbers of the players, the two totals of
    [calculateScores] add up to the pips left in all hands: every tile of
    every hand is counted once, for team 0 when its holder's team is 0 and
    for team 1 otherwise. With tiles of the double-9 set neither total is
    negative, and with no tile left both are 0. *)
Theorem calculateScores_total (ps : list Player) :
  team0 (calculateScores ps) + team1 (calculateScores ps)
    = sumZ (map (fun p => handPips (hand p)) ps) /\
  ((forall p, p ∈ ps -> Forall inRange (hand p)) ->
     0 <= team0 (calculateScores ps) /\ 0 <= team1 (calculateScores ps)) /\
  ((forall p, p ∈ ps -> hand p = []) ->
     calculateScores ps = mkScores 0 0).
Proof.
  unfold calculateScores. split; [by rewrite fold_scoreStep_total|]. split.
  - intros Hrange. apply (fold_scoreStep_nonneg ps (mkScores 0 0)).
    intros p Hp. by apply handPips_range, Hrange.
  - intros Hempty. induction ps as [|p ps IH]; simpl; [done|].
    unfold scoreStep at 2. rewrite (Hempty p) by left. simpl.
    destruct (team p =? 0); apply IH; intros; apply Hempty; by right.
Qed.

Lemma calculateScores_total_witness :
  0 <= team0 (calculateScores [mkPlayer 0 "You" false [(1, 2)] 0;
                               mkPlayer 1 "Bot 1 (Left)" true [(6, 6)] 7]).
Proof.
  apply (calculateScores_total [mkPlayer 0 "You" false [(1, 2)] 0;
                                mkPlayer 1 "Bot 1 (Left)" true [(6, 6)] 7]).
  intros p Hp. in_cases Hp; apply (bool_decide_unpack _); vm_compute; exact I.
Defined.

(** ** The start of a round: [determineStarter], [startGame] *)

Lemma findHolder_Some target ps idx r :
  findHolder target ps idx = Some r ->
  exists k p,
    ps !! k = Some p /\ starterIndex r = idx + Z.of_nat k /\
    startTile r ∈ hand p /\ areTilesEqual (startTile r) target = true.
Proof.
  revert idx. induction ps as [|q ps IH]; intros idx; simpl; [done|].
  destruct (existsb _ (hand q)) eqn:Hex.
  - intros [= <-]. exists 0%nat, q. simpl. split; [done|]. split; [lia|].
    destruct (List.find _ (hand q)) as [t|] eqn:Hfind; simpl.
    + apply find_some in Hfind as [Hin Heq]. by apply list_elem_of_In in Hin.
    + apply existsb_exists in Hex as (t & Hin & Heq).
      eapply find_none in Hfind; [|exact Hin]. simpl in Hfind. congruence.
  - intros Hr. apply IH in Hr as (k & p & Hk & Hidx & Hin & Heq).
    exists (S k), p. simpl. repeat split; try done. lia.
Qed.

Lemma scanDoubles_Some n ps r :
  scanDoubles n ps = Some r ->
  exists k p j,
    ps !! k = Some p /\ starterIndex r = Z.of_nat k /\
    startTile r = (j, j) /\ (j, j) ∈ hand p /\ 0 <= j < Z.of_nat n.
Proof.
  induction n as [|n IH]; simpl; [done|].
  destruct (findHolder _ ps 0) as [r'|] eqn:Hf.
  - intros [= <-]. apply findHolder_Some in Hf as (k & p & Hk & Hidx & Hin & Heq).
    apply areTilesEqual_double in Heq. rewrite Heq in Hin.
    exists k, p, (Z.of_nat n). repeat split; try done; lia.
  - intros Hr. apply IH in Hr as (k & p & j & ? & ? & ? & ? & ?).
    exists k, p, j. repeat split; try done; lia.
Qed.

(** A double the scan covers and some hand holds makes the scan succeed,
    with a double at least as high. *)
Lemma scanDoubles_held n ps q i :
  q ∈ ps -> (i, i) ∈ hand q -> 0 <= i < Z.of_nat n ->
  exists r j, scanDoubles n ps = Some r /\ startTile r = (j, j) /\ i <= j.
Proof.
  intros Hq Hi. induction n as [|n IH]; intros Hn; [lia|]. simpl.
  destruct (findHolder _ ps 0) as [r|] eqn:Hf.
  - apply findHolder_Some in Hf as Hr. destruct Hr as (k & p & _ & _ & _ & Heq).
    apply areTilesEqual_double in Heq. exists r, (Z.of_nat n). split; [done|].
    split; [done | lia].
  - destruct (decide (i = Z.of_nat n)) as [-> | Hne]; [|apply IH; lia].
    apply list_elem_of_split in Hq as (ps1 & ps2 & ->).
    assert (Hfirst : exists ps1' p' ps2',
               ps1 ++ q :: ps2 = ps1' ++ p' :: ps2' /\
               (Z.of_nat n, Z.of_nat n) ∈ hand p' /\
               forall x, x ∈ ps1' -> (Z.of_nat n, Z.of_nat n) ∉ hand x).
    { clear Hf IH. induction ps1 as [|x ps1 IH]; simpl.
      - exists [], q, ps2. split; [done|]. split; [done|]. intros x Hx.
        by apply elem_of_nil in Hx.
      - destruct (decide ((Z.of_nat n, Z.of_nat n) ∈ hand x)) as [Hx | Hx].
        + exists [], x, (ps1 ++ q :: ps2). split; [done|]. split; [done|].
          intros y Hy. by apply elem_of_nil in Hy.
        + destruct IH as (ps1' & p' & ps2' & Heq & Hp' & Hnone).
          exists (x :: ps1'), p', ps2'. split; [simpl; by rewrite Heq|].
          split; [done|]. intros y Hy. apply elem_of_cons in Hy as [-> | Hy]; auto. }
    destruct Hfirst as (ps1' & p' & ps2' & Heq & Hp' & Hnone).
    rewrite Heq, findHolder_first in Hf by done. done.
Qed.

Lemma fold_highestTile_inv idx h acc :
  let R := fold_left (highestTile idx) h acc in
  (forall t, t ∈ h -> getTileSum t <= highestSum R) /\
  highestSum acc <= highestSum R /\
  (R = acc \/ (hIndex R = idx /\ hTile R ∈ h)).
Proof.
  revert acc. induction h as [|t h IH]; intros acc; simpl.
  - split; [intros t Ht; by apply elem_of_nil in Ht|]. split; [lia | by left].
  - destruct (IH (highestTile idx acc t)) as (Hmax & Hge & Hor).
    assert (Hstep : highestSum acc <= highestSum (highestTile idx acc t) /\
                    getTileSum t <= highestSum (highestTile idx acc t) /\
                    (highestTile idx acc t = acc \/
                     highestTile idx acc t = mkHighest (getTileSum t) idx t)).
    { unfold highestTile. destruct (Z.gtb_spec (getTileSum t) (highestSum acc));
        simpl; repeat split; auto; lia. }
    destruct Hstep as (H1 & H2 & H3). split; [|split; [lia|]].
    + intros u Hu. apply elem_of_cons in Hu as [-> | Hu]; [lia | by apply Hmax].
    + destruct Hor as [-> | [Hi Ht]].
      * destruct H3 as [-> | ->]; [by left | right]. simpl. split; [done | left].
      * right. split; [done | by right].
Qed.

Lemma highestScan_inv ps idx acc :
  let R := highestScan ps idx acc in
  (forall p t, p ∈ ps -> t ∈ hand p -> getTileSum t <= highestSum R) /\
  highestSum acc <= highestSum R /\
  (R = acc \/ exists k p, ps !! k = Some p /\ hIndex R = idx + Z.of_nat k /\
                          hTile R ∈ hand p).
Proof.
  revert idx acc. induction ps as [|q ps IH]; intros idx acc; simpl.
  - split; [intros p t Hp; by apply elem_of_nil in Hp|]. split; [lia | by left].
  - destruct (fold_highestTile_inv idx (hand q) acc) as (Hmax1 & Hge1 & Hor1).
    destruct (IH (idx + 1) (fold_left (highestTile idx) (hand q) acc))
      as (Hmax & Hge & Hor).
    split; [|split; [lia|]].
    + intros p t Hp Ht. apply elem_of_cons in Hp as [-> | Hp].
      * specialize (Hmax1 t Ht). lia.
      * by eapply Hmax.
    + destruct Hor as [-> | (k & p & Hk & Hi & Ht)].
      * destruct Hor1 as [-> | [Hi Ht]]; [by left | right].
        exists 0%nat, q. simpl. split; [done|]. split; [lia | done].
      * right. exists (S k), p. simpl. split; [done|]. split; [lia | done].
Qed.

(** The seat [determineStarter] answers holds the tile it answers, as soon
    as some hand holds a tile of non-negative pip sum. *)
Lemma determineStarter_in_hand ps bone q t :
  q ∈ ps -> t ∈ hand q -> 0 <= getTileSum t ->
  exists k p,
    ps !! k = Some p /\
    starterIndex (determineStarter ps bone) = Z.of_nat k /\
    startTile (determineStarter ps bone) ∈ hand p.
Proof.
  intros Hq Ht Hsum. unfold determineStarter.
  destruct (scanDoubles 10 ps) as [r|] eqn:Hscan.
  - apply scanDoubles_Some in Hscan as (k & p & j & Hk & Hi & Hr & Hin & _).
    exists k, p. rewrite Hr. done.
  - destruct (highestScan_inv ps 0 (mkHighest (-1) 0 (0, 0))) as (Hmax & _ & Hor).
    simpl. destruct Hor as [Heq | (k & p & Hk & Hi & Hin)].
    + specialize (Hmax q t Hq Ht). rewrite Heq in Hmax. simpl in Hmax. lia.
    + exists k, p. split; [done|]. split; [lia | done].
Qed.

(** X10. When some hand holds a tile of non-negative pip sum,
    [determineStarter] answers a seat of the table and a tile which that
    seat holds. If a hand holds one of the doubles [[0|0]] to [[9|9]], the
    tile answered is a double and no hand holds a higher one. With no
    player at all, or only empty hands, it answers seat 0 and the tile
    [[0|0]], which nobody holds. *)
Theorem determineStarter_held (ps : list Player) (boneyard : list Tile) :
  (forall q t, q ∈ ps -> t ∈ hand q -> 0 <= getTileSum t ->
     exists k p,
       ps !! k = Some p /\
       starterIndex (determineStarter ps boneyard) = Z.of_nat k /\
       startTile (determineStarter ps boneyard) ∈ hand p) /\
  (forall q i, q ∈ ps -> (i, i) ∈ hand q -> 0 <= i <= 9 ->
     exists j, startTile (determineStarter ps boneyard) = (j, j) /\ i <= j) /\
  ((forall q, q ∈ ps -> hand q = []) ->
     determineStarter ps boneyard = mkStarter 0 (0, 0)).
Proof.
  split; [intros q t; apply determineStarter_in_hand|]. split.
  - intros q i Hq Hi Hrange.
    destruct (scanDoubles_held 10 ps q i Hq Hi) as (r & j & Hscan & Hr & Hij); [lia|].
    unfold determineStarter. rewrite Hscan. eauto.
  - intros Hempty. unfold determineStarter.
    rewrite scanDoubles_none.
    + rewrite highestScan_keep; [done|]. intros q t Hq Ht.
      rewrite (Hempty q Hq) in Ht. by apply elem_of_nil in Ht.
    + intros i q _ Hq Hin. rewrite (Hempty q Hq) in Hin. by apply elem_of_nil in Hin.
Qed.

Lemma determineStarter_held_witness :
  exists j,
    startTile (determineStarter
                 [mkPlayer 0 "You" false [(1, 2); (3, 3)] 0;
                  mkPlayer 1 "Bot 1 (Left)" true [(5, 5); (0, 9)] 1] []) = (j, j) /\
    3 <= j.
Proof.
  apply (proj1 (proj2 (determineStarter_held
                         [mkPlayer 0 "You" false [(1, 2); (3, 3)] 0;
                          mkPlayer 1 "Bot 1 (Left)" true [(5, 5); (0, 9)] 1] []))
           (mkPlayer 0 "You" false [(1, 2); (3, 3)] 0) 3).
  - left.
  - simpl. right. left.
  - lia.
Defined.

Lemma slices_of_deck (deck : list Tile) :
  slice 0 10 deck ++ slice 10 20 deck ++ slice 20 30 deck ++ slice 30 40 deck
    ++ drop 40 deck = deck.
Proof.
  unfold slice. simpl Nat.sub. rewrite drop_0.
  transitivity (take 10 deck ++ drop 10 deck); [|apply take_drop]. f_equal.
  transitivity (take 10 (drop 10 deck) ++ drop 10 (drop 10 deck)); [|apply take_drop].
  f_equal. rewrite drop_drop. simpl Nat.add.
  transitivity (take 10 (drop 20 deck) ++ drop 10 (drop 20 deck)); [|apply take_drop].
  f_equal. rewrite drop_drop. simpl Nat.add.
  transitivity (take 10 (drop 30 deck) ++ drop 10 (drop 30 deck)); [|apply take_drop].
  f_equal. by rewrite drop_drop.
Qed.

Lemma length_slice a (deck : list Tile) :
  (a + 10 <= length deck)%nat -> length (slice a (a + 10) deck) = 10%nat.
Proof. intros H. unfold slice. rewrite length_take, length_drop. lia. Qed.

(** Taking a tile out of the hand at one seat takes it out of the hands. *)
Lemma flat_hand_insert ps i p h1 t h2 :
  ps !! i = Some p -> hand p = h1 ++ t :: h2 ->
  t :: flat_map hand (<[i := setHand p (h1 ++ h2)]> ps) ≡ₚ flat_map hand ps.
Proof.
  revert i. induction ps as [|q ps IH]; intros [|i] Hi Hhand; simpl in *; try done.
  - injection Hi as ->. rewrite Hhand.
    change (t :: (h1 ++ h2) ++ flat_map hand ps)
      with ((t :: h1 ++ h2) ++ flat_map hand ps).
    apply Permutation_app_tail, Permutation_middle.
  - rewrite <- (IH i Hi Hhand). apply Permutation_middle.
Qed.

(** Tiles in the hands of two seats are different tiles. *)
Lemma distinct_across ps i k q p u t rest :
  distinctTiles (flat_map hand ps ++ rest) ->
  ps !! i = Some q -> ps !! k = Some p -> i <> k ->
  u ∈ hand q -> t ∈ hand p -> canon u <> canon t.
Proof.
  unfold distinctTiles. rewrite fmap_app. intros Hnd%NoDup_app. destruct Hnd as (Hnd & _ & _).
  revert i k Hnd. induction ps as [|a ps IH]; intros i k Hnd Hi Hk Hne Hu Ht; [done|].
  simpl in Hnd. rewrite fmap_app in Hnd. apply NoDup_app in Hnd as (_ & Hsep & Hnd).
  assert (Hin : forall j r x, ps !! j = Some r -> x ∈ hand r ->
                  canon x ∈ canon <$> flat_map hand ps).
  { intros j r x Hj Hx. apply list_elem_of_fmap. exists x. split; [done|].
    apply list_elem_of_In, in_flat_map. exists r. split.
    - apply list_elem_of_In. by eapply list_elem_of_lookup_2.
    - by apply list_elem_of_In. }
  destruct i as [|i], k as [|k]; simpl in Hi, Hk; try done.
  - injection Hi as ->. intros Heq. apply (Hsep (canon u)).
    + by apply list_elem_of_fmap_2.
    + rewrite Heq. by eapply Hin.
  - injection Hk as ->. intros Heq. apply (Hsep (canon t)).
    + by apply list_elem_of_fmap_2.
    + rewrite <- Heq. by eapply Hin.
  - apply (IH i k); auto.
Qed.

(** The four hands of a deal and the boneyard hold different tiles. *)
Lemma dealt_distinct (deck : list Tile) ps :
  deck ≡ₚ generateDeck ->
  ps = [ mkPlayer 0 "You" false (slice 0 10 deck) 0;
         mkPlayer 1 "Bot 1 (Left)" true (slice 10 20 deck) 1;
         mkPlayer 2 "Bot 2 (Partner)" true (slice 20 30 deck) 0;
         mkPlayer 3 "Bot 3 (Right)" true (slice 30 40 deck) 1 ] ->
  distinctTiles (flat_map hand ps ++ drop 40 deck).
Proof.
  intros Hperm Hps.
  rewrite Hps. simpl. rewrite app_nil_r, <- !app_assoc, slices_of_deck.
  unfold distinctTiles. rewrite Hperm. apply deck_distinct.
Qed.

(** What [startGame] returns, in terms of the deal. *)
Lemma startGame_Some draw :
  exists k p h1 h2 t0 ps,
    let deck := shuffleDeck draw generateDeck in
    ps = [ mkPlayer 0 "You" false (slice 0 10 deck) 0;
           mkPlayer 1 "Bot 1 (Left)" true (slice 10 20 deck) 1;
           mkPlayer 2 "Bot 2 (Partner)" true (slice 20 30 deck) 0;
           mkPlayer 3 "Bot 3 (Right)" true (slice 30 40 deck) 1 ] /\
    ps !! k = Some p /\ hand p = h1 ++ t0 :: h2 /\
    (forall u, u ∈ h1 ++ h2 -> areTilesEqual u t0 = false) /\
    startGame draw =
      Some {| players := <[k := setHand p (h1 ++ h2)]> ps;
              board := [t0];
              boneyard := drop 40 deck;
              leftEnd := Some t0.1;
              rightEnd := Some t0.2;
              currentPlayerIndex := getNextPlayerIndex (Z.of_nat k);
              status := playing;
              logs := ["Game Started. " +:+ pname p +:+ " leads with "
                         +:+ showTile t0 +:+ "."];
              winner := None;
              passHistory := initialPassHistory |}.
Proof.
  pose proof (shuffleDeck_perm draw generateDeck) as Hperm.
  unfold startGame. set (deck := shuffleDeck draw generateDeck) in *.
  clearbody deck.
  assert (Hlen : length deck = 55%nat) by (by rewrite Hperm).
  set (ps := [mkPlayer 0 _ _ _ _; _; _; _]).
  set (st := determineStarter ps (drop 40 deck)).
  assert (Hps : forall p, p ∈ ps -> handOk (hand p)).
  { intros p Hp. subst ps. in_cases Hp; simpl.
    - by apply (handOk_slice 0).
    - by apply (handOk_slice 10).
    - by apply (handOk_slice 20).
    - by apply (handOk_slice 30). }
  assert (Hheld : exists k p, ps !! k = Some p /\ starterIndex st = Z.of_nat k /\
                              startTile st ∈ hand p).
  { pose proof (length_slice 0 deck ltac:(lia)) as H0.
    destruct (slice 0 (0 + 10) deck) as [|t rest] eqn:E; [done|].
    apply (determineStarter_in_hand ps (drop 40 deck)
             (mkPlayer 0 "You" false (slice 0 10 deck) 0) t).
    - left.
    - simpl. change (slice 0 10 deck) with (slice 0 (0 + 10) deck). rewrite E. left.
    - assert (Hin : t ∈ slice 0 (0 + 10) deck) by (rewrite E; left).
      pose proof (hand_range _ (handOk_slice 0 deck Hperm)) as Hr.
      apply (proj1 (Forall_forall _ _) Hr) in Hin as [? ?].
      unfold getTileSum. lia. }
  destruct Hheld as (k & p & Hk & Hidx & Hin).
  assert (Hp : p ∈ ps) by (by eapply list_elem_of_lookup_2).
  destruct (filter_played (hand p) (startTile st)) as (h1 & h2 & Hhand & Hfilter);
    [apply hand_distinct, Hps, Hp | done |].
  exists k, p, h1, h2, (startTile st), ps. simpl.
  split; [done|]. split; [done|]. split; [done|]. split.
  { intros u Hu. rewrite <- Hfilter in Hu.
    apply list_elem_of_In, filter_In in Hu as [_ Hu]. by apply negb_true_iff. }
  unfold at_index. rewrite Hidx.
  destruct (Z.ltb_spec (Z.of_nat k) 0) as [|_]; [lia|].
  rewrite Nat2Z.id, Hk, Hfilter. reflexivity.
Qed.

(** X11. Whatever the shuffle draws, [startGame] succeeds and returns a
    playing state with no winner and empty pass histories: four players,
    the board made of the start tile alone with its two pips as ends,
    fifteen tiles in the boneyard, nine tiles in the hand of the seat that
    led and ten in each other hand, no hand holding the start tile any
    more, and the turn at the seat after the one that led. *)
Theorem startGame_deals (draw : nat -> nat) :
  exists s' k t0,
    startGame draw = Some s' /\
    status s' = playing /\ winner s' = None /\
    passHistory s' = initialPassHistory /\
    length (players s') = 4%nat /\
    board s' = [t0] /\ leftEnd s' = Some t0.1 /\ rightEnd s' = Some t0.2 /\
    length (boneyard s') = 15%nat /\
    (k < 4)%nat /\
    currentPlayerIndex s' = getNextPlayerIndex (Z.of_nat k) /\
    (forall i p, players s' !! i = Some p ->
       length (hand p) = if decide (i = k) then 9%nat else 10%nat) /\
    (forall p u, p ∈ players s' -> u ∈ hand p -> areTilesEqual u t0 = false).
Proof.
  destruct (startGame_Some draw) as (k & p & h1 & h2 & t0 & ps & Hps & Hk & Hhand & Hgone & Hs).
  cbv zeta in Hps, Hs.
  pose proof (shuffleDeck_perm draw generateDeck) as Hperm.
  set (deck := shuffleDeck draw generateDeck) in *. clearbody deck.
  assert (Hlen : length deck = 55%nat) by (by rewrite Hperm).
  assert (Hk4 : (k < 4)%nat) by (apply lookup_lt_Some in Hk; by rewrite Hps in Hk).
  assert (Hten : forall i q, ps !! i = Some q -> length (hand q) = 10%nat).
  { intros i q Hq. rewrite Hps in Hq.
    destruct i as [|[|[|[|]]]]; simpl in Hq; try done; injection Hq as <-; simpl.
    - apply (length_slice 0); lia.
    - apply (length_slice 10); lia.
    - apply (length_slice 20); lia.
    - apply (length_slice 30); lia. }
  eexists _, k, t0. split; [exact Hs|]. simpl.
  split; [done|]. split; [done|]. split; [done|].
  split; [by rewrite length_insert, Hps|].
  split; [done|]. split; [done|]. split; [done|].
  split; [rewrite length_drop; lia|]. split; [done|]. split; [done|].
  assert (Hnine : length (h1 ++ h2) = 9%nat).
  { pose proof (Hten k p Hk) as H. rewrite Hhand in H.
    rewrite !length_app in *. simpl in H. lia. }
  split.
  - intros i q Hq. destruct (decide (i = k)) as [-> | Hne].
    + rewrite list_lookup_insert_eq in Hq by (by eapply lookup_lt_Some).
      by injection Hq as <-.
    + rewrite list_lookup_insert_ne in Hq by done. by eapply Hten.
  - intros q u Hq Hu. apply list_elem_of_lookup in Hq as [i Hq].
    destruct (decide (i = k)) as [-> | Hne].
    + rewrite list_lookup_insert_eq in Hq by (by eapply lookup_lt_Some).
      injection Hq as <-. by apply Hgone.
    + rewrite list_lookup_insert_ne in Hq by done.
      pose proof (dealt_distinct deck ps Hperm Hps) as Hdist.
      apply not_true_is_false. intros Heq. apply areTilesEqual_canon in Heq.
      assert (Ht0 : t0 ∈ hand p).
      { rewrite Hhand. apply elem_of_app. right. left. }
      exact (distinct_across ps i k q p u t0 (drop 40 deck) Hdist Hq Hk Hne Hu Ht0 Heq).
Qed.

(** ** What a round keeps: tiles, seats, pass history *)

Lemma initialPassHistory_lookup k h : initialPassHistory !! k = Some h -> h = [].
Proof.
  unfold initialPassHistory. intros H.
  apply lookup_insert_Some in H as [[_ <-] | [_ H1]]; [done|].
  apply lookup_insert_Some in H1 as [[_ <-] | [_ H2]]; [done|].
  apply lookup_insert_Some in H2 as [[_ <-] | [_ H3]]; [done|].
  apply lookup_insert_Some in H3 as [[_ <-] | [_ H4]]; [done|].
  by rewrite lookup_empty in H4.
Qed.

Lemma at_index_lookup {A : Type} (l : list A) i x :
  at_index l i = Some x -> 0 <= i /\ l !! Z.to_nat i = Some x.
Proof.
  unfold at_index. destruct (Z.ltb_spec i 0) as [|Hpos]; [done|].
  intros Hx. split; [lia | done].
Qed.

Lemma at_index_elem_of {A : Type} (l : list A) i x : at_index l i = Some x -> x ∈ l.
Proof. intros [_ H]%at_index_lookup. by eapply list_elem_of_lookup_2. Qed.

(** With ids equal to seats, a player of the round is known by the id. *)
Lemma pid_inj s p q :
  good s -> p ∈ players s -> q ∈ players s -> pid p = pid q -> p = q.
Proof.
  intros Hgood [i Hi]%list_elem_of_lookup [j Hj]%list_elem_of_lookup Heq.
  assert (Hnd : NoDup (pid <$> players s)).
  { rewrite (good_ids _ Hgood). apply (bool_decide_unpack _). by vm_compute. }
  assert (i = j) as ->.
  { eapply (NoDup_lookup _ i j (pid p) Hnd).
    - by rewrite list_lookup_fmap, Hi.
    - by rewrite list_lookup_fmap, Hj, Heq. }
  congruence.
Qed.

(** What [applyMove] returns when the player at seat [i] plays a tile of
    their hand. *)
Lemma applyMove_seat s i p t sd :
  good s -> at_index (players s) i = Some p -> t ∈ hand p ->
  exists h1 h2,
    hand p = h1 ++ t :: h2 /\
    applyMove (pid p) t sd s =
      Some {| players := <[Z.to_nat i := setHand p (h1 ++ h2)]> (players s);
              board := match sd with
                       | SideLeft => t :: board s
                       | SideRight => board s ++ [t]
                       end;
              boneyard := boneyard s;
              leftEnd := match sd with
                         | SideLeft => newEnd t (leftEnd s)
                         | SideRight => leftEnd s
                         end;
              rightEnd := match sd with
                          | SideLeft => rightEnd s
                          | SideRight => newEnd t (rightEnd s)
                          end;
              currentPlayerIndex := getNextPlayerIndex (currentPlayerIndex s);
              status := status s;
              logs := logs s ++
                [pname p +:+ " plays " +:+ showTile t +:+ " on the "
                   +:+ showSide sd +:+ "."];
              winner := winner s;
              passHistory := passHistory s |}.
Proof.
  intros Hgood Hat Ht.
  destruct (filter_played (hand p) t) as (h1 & h2 & Hhand & Hfilter);
    [by apply hand_distinct, (good_hands _ Hgood), (at_index_elem_of _ i) | done |].
  exists h1, h2. split; [done|].
  destruct (seat_by_id (players s) i p (fun q => setHand q (h1 ++ h2))
              (good_ids _ Hgood) Hat) as (_ & Hfind & Hmap).
  unfold applyMove. rewrite Hfind, Hfilter, Hmap. by destruct sd.
Qed.

(** The invariant [settled] through the updaters. *)
Lemma applyMove_settled s i p t sd s' :
  good s -> settled s -> at_index (players s) i = Some p -> t ∈ hand p ->
  applyMove (pid p) t sd s = Some s' -> settled s'.
Proof.
  intros Hgood [Htiles Hbone Hbots Hpasses] Hat Ht.
  destruct (applyMove_seat s i p t sd Hgood Hat Ht) as (h1 & h2 & Hhand & ->).
  apply at_index_lookup in Hat as [_ Hi].
  intros [= <-]. constructor; simpl; [|done|..].
  - unfold allTiles in *. simpl. rewrite <- Htiles.
    rewrite <- (flat_hand_insert (players s) (Z.to_nat i) p h1 t h2 Hi Hhand).
    destruct sd; simpl.
    + by rewrite <- Permutation_middle.
    + rewrite <- !app_assoc. simpl.
      by rewrite <- !Permutation_middle.
  - rewrite list_fmap_insert. simpl. rewrite <- Hbots.
    apply list_insert_id. by rewrite list_lookup_fmap, Hi.
  - intros q h v u [j Hj]%list_elem_of_lookup Hh Hv Hu.
    destruct (decide (j = Z.to_nat i)) as [-> | Hne].
    + rewrite list_lookup_insert_eq in Hj by (by eapply lookup_lt_Some).
      injection Hj as <-. simpl in *.
      apply (Hpasses p h v u); [by eapply list_elem_of_lookup_2 | done | done |].
      rewrite Hhand. apply elem_of_app in Hu as [Hu | Hu]; apply elem_of_app;
        [by left | right; by right].
    + rewrite list_lookup_insert_ne in Hj by done.
      apply (Hpasses q h v u); [by eapply list_elem_of_lookup_2 | done..].
Qed.

Lemma handlePass_settled s p s' :
  good s -> settled s -> p ∈ players s ->
  getValidMoves (hand p) (leftEnd s) (rightEnd s) = [] ->
  handlePass p s = Some s' -> settled s'.
Proof.
  intros Hgood [Htiles Hbone Hbots Hpasses] Hp Hnone. unfold handlePass.
  destruct (passHistory s !! pid p) as [h|] eqn:Hh; [|done].
  intros [= <-]. constructor; simpl; [done | done | done |].
  intros q h' v u Hq Hh' Hv Hu.
  destruct (decide (pid p = pid q)) as [Heq | Hne].
  - assert (q = p) as -> by (symmetry; by eapply pid_inj).
    rewrite lookup_insert_eq in Hh'. injection Hh' as <-.
    apply elem_of_app in Hv as [Hv | Hv]; [by eapply Hpasses|].
    destruct (good_chain _ Hgood) as (l & r & Hl & Hr & _).
    rewrite Hl, Hr, getValidMoves_flat in Hnone.
    destruct (proj1 (flat_entries_nil l r (hand p)) Hnone u Hu) as [Hfl Hfr].
    rewrite Hl, Hr in Hv. unfold missedEnds in Hv. simpl in Hv.
    case_bool_decide; in_cases Hv; done.
  - rewrite lookup_insert_ne in Hh' by done. by eapply Hpasses.
Qed.

(** What the game loop has looked at when it schedules a turn. *)
Lemma gameLoop_BotTurn s bot :
  gameLoop s = Some (BotTurn bot) ->
  status s = playing /\ at_index (players s) (currentPlayerIndex s) = Some bot /\
  isBot bot = true.
Proof.
  unfold gameLoop. destruct (status s); try done.
  destruct (at_index _ _) as [cur|]; [|done].
  destruct (_ =? _)%nat; [done|]. destruct (_ && _); [done|].
  destruct (isBot cur) eqn:Hbot; [by intros [= <-]|].
  by destruct (_ && _).
Qed.

Lemma gameLoop_AutoPass s p :
  gameLoop s = Some (AutoPass p) ->
  status s = playing /\ at_index (players s) (currentPlayerIndex s) = Some p /\
  isBot p = false /\ getValidMoves (hand p) (leftEnd s) (rightEnd s) = [].
Proof.
  unfold gameLoop. destruct (status s); try done.
  destruct (at_index _ _) as [cur|]; [|done].
  destruct (_ =? _)%nat; [done|]. destruct (_ && _); [done|].
  destruct (isBot cur) eqn:Hbot; [done|].
  destruct (getValidMoves _ _ _) as [|m ms] eqn:E; simpl; [|done].
  destruct (0 <? _)%nat; [|done]. by intros [= <-].
Qed.

(** A click either leaves the state as it is or plays the tile for seat 0,
    on a side where it is legal. *)
Lemma onUserTileClick_cases t choice s s' :
  onUserTileClick t choice s = Some s' ->
  s' = s \/
  (currentPlayerIndex s = 0 /\ status s = playing /\
   exists sd, mkMove t sd ∈ getValidMoves [t] (leftEnd s) (rightEnd s) /\
              applyMove 0 t sd s = Some s').
Proof.
  unfold onUserTileClick.
  destruct (Z.eqb_spec (currentPlayerIndex s) 0) as [Hcur|]; simpl; [|intros [= <-]; by left].
  case_bool_decide as Hst; simpl; [|intros [= <-]; by left].
  destruct (leftEnd s) as [l|] eqn:Hl, (rightEnd s) as [r|] eqn:Hr;
    try (rewrite getValidMoves_null by auto; simpl; intros H; right;
         split; [done|]; split; [done|]; exists SideLeft; split; [left | done]).
  rewrite getValidMoves_flat. simpl. rewrite app_nil_r. unfold entries.
  destruct (fits l t), (fits r t); simpl; intros H.
  - right. split; [done|]. split; [done|].
    case_bool_decide; [|destruct choice];
      eexists; (split; [|exact H]); set_solver.
  - right. split; [done|]. split; [done|]. eexists; split; [|exact H]. set_solver.
  - right. split; [done|]. split; [done|]. eexists; split; [|exact H]. set_solver.
  - left. by injection H.
Qed.

Lemma executeBotTurn_settled s bot s' :
  good s -> settled s -> gameLoop s = Some (BotTurn bot) ->
  executeBotTurn bot s = Some s' -> settled s'.
Proof.
  intros Hgood Hset (_ & Hat & _)%gameLoop_BotTurn. unfold executeBotTurn.
  destruct (calculateBotMove _ _ _ _ _) as [m|] eqn:Hm.
  - apply calculateBotMove_valid, getValidMoves_tile in Hm.
    by apply (applyMove_settled s (currentPlayerIndex s)).
  - apply calculateBotMove_None in Hm.
    apply handlePass_settled; try done. by eapply at_index_elem_of.
Qed.

Lemma onUserTileClick_settled s user t choice s' :
  good s -> settled s -> at_index (players s) 0 = Some user -> t ∈ hand user ->
  onUserTileClick t choice s = Some s' -> settled s'.
Proof.
  intros Hgood Hset Hat Ht [-> | (_ & _ & sd & _ & Hmove)]%onUserTileClick_cases; [done|].
  destruct (seat_by_id (players s) 0 user id (good_ids _ Hgood) Hat) as (Hid & _).
  rewrite <- Hid in Hmove. by eapply (applyMove_settled s 0).
Qed.

Lemma startGame_settled draw s' : startGame draw = Some s' -> settled s'.
Proof.
  destruct (startGame_Some draw) as (k & p & h1 & h2 & t0 & ps & Hps & Hk & Hhand & _ & ->).
  cbv zeta in Hps.
  pose proof (shuffleDeck_perm draw generateDeck) as Hperm.
  set (deck := shuffleDeck draw generateDeck) in *. clearbody deck.
  intros [= <-]. constructor; simpl.
  - unfold allTiles. simpl. rewrite <- Permutation_middle.
    change (t0 :: ?a ++ ?b) with ((t0 :: a) ++ b).
    rewrite (flat_hand_insert ps k p h1 t0 h2 Hk Hhand).
    rewrite Hps. simpl. rewrite app_nil_r, <- !app_assoc, slices_of_deck. done.
  - assert (Hlen : length deck = 55%nat) by (by rewrite Hperm).
    rewrite length_drop. lia.
  - rewrite list_fmap_insert. simpl.
    transitivity (isBot <$> ps); [|by rewrite Hps].
    apply list_insert_id. by rewrite list_lookup_fmap, Hk.
  - intros q h v u _ Hh Hv. apply initialPassHistory_lookup in Hh as ->.
    by apply elem_of_nil in Hv.
Qed.

Lemma reachable_settled s : reachable s -> s = initialGameState \/ settled s.
Proof.
  induction 1 as [|s s' Hreach IH Hstep]; [by left|].
  destruct Hstep as [s draw s' Hidle Hdraw Hstart | s r w Hloop | s bot s' Hloop Hbot
                    | s p s' Hloop Hpass | s user t choice s' Huser Ht Hclick].
  - right. by eapply startGame_settled.
  - destruct IH as [-> | [? ? ? ?]]; [done|]. right. by constructor.
  - destruct IH as [-> | Hset]; [done|]. right.
    destruct (reachable_good s Hreach) as [-> | Hgood]; [done|].
    by eapply executeBotTurn_settled.
  - destruct IH as [-> | Hset]; [done|]. right.
    destruct (reachable_good s Hreach) as [-> | Hgood]; [done|].
    apply gameLoop_AutoPass in Hloop as (_ & Hat & _ & Hnone).
    eapply handlePass_settled; try done. by eapply at_index_elem_of.
  - destruct IH as [-> | Hset]; [done|]. right.
    destruct (reachable_good s Hreach) as [-> | Hgood]; [done|].
    by eapply onUserTileClick_settled.
Qed.

(** X12. From the first deal on, the tiles of the players' hands, of the
    board and of the boneyard are together the 55 tiles of the deck, each
    once: no update loses, adds or doubles a tile. The boneyard keeps its
    fifteen tiles, so the hands and the board hold forty. *)
Theorem tiles_conserved (s : GameState) :
  reachable s -> status s <> idle ->
  (allTiles s ≡ₚ generateDeck) /\
  distinctTiles (allTiles s) /\
  length (boneyard s) = 15%nat /\
  (length (flat_map hand (players s)) + length (board s) = 40)%nat.
Proof.
  intros Hreach Hstatus.
  destruct (reachable_settled s Hreach) as [-> | [Htiles Hbone _ _]]; [done|].
  split; [done|]. split.
  - unfold distinctTiles. rewrite Htiles. apply deck_distinct.
  - split; [done|]. apply Permutation_length in Htiles.
    unfold allTiles in Htiles. rewrite !length_app, Hbone in Htiles.
    assert (Hdeck : length generateDeck = 55%nat) by (vm_compute; reflexivity).
    rewrite Hdeck in Htiles. lia.
Qed.

Lemma tiles_conserved_witness :
  exists s,
    run (take 30 exampleRound) initialGameState = Some s /\
    length (board s) = 29%nat /\
    (allTiles s ≡ₚ generateDeck).
Proof.
  run_to (take 30 exampleRound) s Hreach.
  eexists. split; [reflexivity|]. split; [reflexivity|].
  apply (tiles_conserved _ Hreach). done.
Defined.

(** X13. In every reachable state, a pip recorded in the pass history of a
    seat is a pip no tile of that seat's hand shows: the seat passed on it
    and has only lost tiles since. The bot's bonus for leaving the next
    seat an end it has passed on is given only for ends that seat cannot
    play. *)
Theorem passes_sound (s : GameState) (p : Player) (h : list Z) (v : Z) (t : Tile) :
  reachable s ->
  p ∈ players s -> passHistory s !! pid p = Some h -> v ∈ h -> t ∈ hand p ->
  fits v t = false.
Proof.
  intros Hreach Hp Hh Hv Ht.
  destruct (reachable_settled s Hreach) as [-> | [_ _ _ Hpasses]].
  - by apply elem_of_nil in Hp.
  - by eapply Hpasses.
Qed.

Lemma passes_sound_witness :
  exists s p,
    run (take 30 exampleRound) initialGameState = Some s /\
    players s !! 3%nat = Some p /\
    hand p = [(7, 8); (4, 8); (3, 5)] /\
    passHistory s !! 3 = Some [2; 6] /\
    fits 6 (7, 8) = false.
Proof.
  run_to (take 30 exampleRound) s Hreach.
  eexists _, _. split; [reflexivity|]. split; [reflexivity|].
  split; [reflexivity|]. split; [reflexivity|].
  eapply (passes_sound _ _ [2; 6] 6 (7, 8) Hreach).
  - eapply (list_elem_of_lookup_2 _ 3%nat). reflexivity.
  - reflexivity.
  - right. left.
  - left.
Defined.

(** ** The round goes on until it ends *)

Lemma good_seats s :
  good s -> exists p0 p1 p2 p3, players s = [p0; p1; p2; p3].
Proof.
  intros Hgood. pose proof (good_ids _ Hgood) as Hids.
  destruct (players s) as [|p0 [|p1 [|p2 [|p3 [|]]]]]; try done. by eexists _, _, _, _.
Qed.

Lemma good_active s :
  good s -> exists cur, at_index (players s) (currentPlayerIndex s) = Some cur.
Proof.
  intros Hgood. destruct (good_seats s Hgood) as (p0 & p1 & p2 & p3 & Hps).
  pose proof (good_turn _ Hgood) as Hturn. rewrite Hps. unfold at_index.
  destruct (Z.ltb_spec (currentPlayerIndex s) 0) as [|_]; [lia|].
  apply lookup_lt_is_Some_2. simpl. lia.
Qed.

(** The user sits at seat 0 and nowhere else. *)
Lemma user_seat s i p :
  settled s -> at_index (players s) i = Some p -> isBot p = false <-> i = 0.
Proof.
  intros Hset [Hpos Hi]%at_index_lookup.
  assert (Hb : (isBot <$> players s) !! Z.to_nat i = Some (isBot p))
    by (by rewrite list_lookup_fmap, Hi).
  rewrite (settled_bots _ Hset) in Hb.
  destruct (Z.to_nat i) as [|[|[|[|]]]] eqn:E; simpl in Hb; try done;
    injection Hb as <-; split; try done; lia.
Qed.

(** Playing a tile of the hand of the seat succeeds and passes the turn on. *)
Lemma applyMove_total s i p t sd :
  good s -> at_index (players s) i = Some p -> t ∈ hand p ->
  exists s',
    applyMove (pid p) t sd s = Some s' /\
    status s' = status s /\
    currentPlayerIndex s' = getNextPlayerIndex (currentPlayerIndex s) /\
    length (board s') = S (length (board s)) /\
    S (length (flat_map hand (players s'))) = length (flat_map hand (players s)) /\
    passHistory s' = passHistory s.
Proof.
  intros Hgood Hat Ht.
  destruct (applyMove_seat s i p t sd Hgood Hat Ht) as (h1 & h2 & Hhand & ->).
  apply at_index_lookup in Hat as [_ Hi].
  eexists. split; [reflexivity|]. simpl. split; [done|]. split; [done|]. split.
  - destruct sd; simpl; [done|]. rewrite length_app. simpl. lia.
  - split; [|done].
    by rewrite <- (flat_hand_insert (players s) (Z.to_nat i) p h1 t h2 Hi Hhand).
Qed.

Lemma handlePass_total s i p :
  good s -> at_index (players s) i = Some p ->
  exists s',
    handlePass p s = Some s' /\
    status s' = status s /\
    currentPlayerIndex s' = getNextPlayerIndex (currentPlayerIndex s) /\
    players s' = players s /\ board s' = board s /\
    leftEnd s' = leftEnd s /\ rightEnd s' = rightEnd s.
Proof.
  intros Hgood Hat.
  destruct (seat_by_id (players s) i p id (good_ids _ Hgood) Hat) as (Hid & _).
  destruct (at_index_lookup _ _ _ Hat) as [Hpos Hi].
  apply lookup_lt_Some in Hi.
  assert (Hlen : length (players s) = 4%nat).
  { rewrite <- (length_fmap pid), (good_ids _ Hgood). done. }
  destruct (good_passes _ Hgood (pid p)) as [h Hh]; [lia|].
  unfold handlePass. rewrite Hh. eexists. split; [reflexivity|]. done.
Qed.

(** What a turn of a bot comes to. *)
Lemma executeBotTurn_cases s bot :
  good s -> at_index (players s) (currentPlayerIndex s) = Some bot ->
  exists s',
    executeBotTurn bot s = Some s' /\
    status s' = status s /\
    currentPlayerIndex s' = getNextPlayerIndex (currentPlayerIndex s) /\
    ((getValidMoves (hand bot) (leftEnd s) (rightEnd s) <> [] /\
      length (board s') = S (length (board s)) /\
      S (length (flat_map hand (players s'))) = length (flat_map hand (players s)))
     \/
     (getValidMoves (hand bot) (leftEnd s) (rightEnd s) = [] /\
      players s' = players s /\ board s' = board s /\
      leftEnd s' = leftEnd s /\ rightEnd s' = rightEnd s)).
Proof.
  intros Hgood Hat. unfold executeBotTurn.
  destruct (calculateBotMove _ _ _ _ _) as [m|] eqn:Hm.
  - pose proof (calculateBotMove_valid _ _ _ _ _ _ Hm) as Hin.
    destruct (applyMove_total s _ bot (tile m) (side m) Hgood Hat)
      as (s' & -> & Hst & Hcur & Hb & Hh & _); [by eapply getValidMoves_tile|].
    exists s'. split; [done|]. split; [done|]. split; [done|]. left.
    split; [|done]. intros E. rewrite E in Hin. by apply elem_of_nil in Hin.
  - apply calculateBotMove_None in Hm.
    destruct (handlePass_total s _ bot Hgood Hat) as (s' & -> & Hst & Hcur & Hrest).
    exists s'. split; [done|]. split; [done|]. split; [done|]. by right.
Qed.

(** A click on a tile of the user's hand that is legal plays it. *)
Lemma onUserTileClick_plays s user t choice :
  good s -> status s = playing -> currentPlayerIndex s = 0 ->
  at_index (players s) 0 = Some user -> t ∈ hand user ->
  getValidMoves [t] (leftEnd s) (rightEnd s) <> [] ->
  exists s',
    onUserTileClick t choice s = Some s' /\
    status s' = playing /\
    currentPlayerIndex s' = getNextPlayerIndex (currentPlayerIndex s) /\
    length (board s') = S (length (board s)) /\
    S (length (flat_map hand (players s'))) = length (flat_map hand (players s)).
Proof.
  intros Hgood Hst Hcur Hat Ht Hvalid.
  destruct (seat_by_id (players s) 0 user id (good_ids _ Hgood) Hat) as (Hid & _).
  assert (Hplay : forall sd, exists s',
    applyMove 0 t sd s = Some s' /\
    status s' = playing /\
    currentPlayerIndex s' = getNextPlayerIndex (currentPlayerIndex s) /\
    length (board s') = S (length (board s)) /\
    S (length (flat_map hand (players s'))) = length (flat_map hand (players s))).
  { intros sd. destruct (applyMove_total s 0 user t sd Hgood Hat Ht)
      as (s' & Hs' & Hst' & Hrest). rewrite Hid in Hs'. exists s'.
    rewrite Hst' , Hst. split; [done|]. split; [done|]. tauto. }
  unfold onUserTileClick. rewrite Hcur in Hplay |- *. simpl.
  case_bool_decide as Hd; [|done]. simpl.
  destruct (getValidMoves [t] (leftEnd s) (rightEnd s)) as [|m [|m' ms]]; [done| |].
  - apply Hplay.
  - destruct (bool_decide _); apply Hplay.
Qed.

(** When the game loop does nothing in a playing state, the user is to
    play and holds a legal tile. *)
Lemma gameLoop_NoEffect s :
  good s -> settled s -> status s = playing -> gameLoop s = Some NoEffect ->
  currentPlayerIndex s = 0 /\
  exists user, at_index (players s) 0 = Some user /\
               getValidMoves (hand user) (leftEnd s) (rightEnd s) <> [].
Proof.
  intros Hgood Hset Hst. unfold gameLoop. rewrite Hst.
  destruct (at_index _ _) as [cur|] eqn:Hat; [|done].
  destruct (_ =? _)%nat; [done|]. destruct (_ && _); [done|].
  destruct (isBot cur) eqn:Hbot; [done|].
  apply (user_seat s _ cur Hset Hat) in Hbot. rewrite Hbot in *.
  destruct (getValidMoves _ _ _) as [|m ms] eqn:E; simpl.
  - pose proof (good_board _ Hgood). destruct (board s); done.
  - intros _. split; [done|]. exists cur. split; [done|]. by rewrite E.
Qed.

Lemma gameLoop_RoundEnd s r w :
  gameLoop s = Some (RoundEnd r w) ->
  status s = playing /\
  exists cur,
    at_index (players s) (currentPlayerIndex s) = Some cur /\
    ((r = domino /\ hand cur = [] /\ w = team cur) \/
     (r = tranque /\ hand cur <> [] /\
      existsb (canPlay s) (players s) = false /\ board s <> [] /\
      w = winningTeam (fold_left lowestStep (players s) (mkLowest 1000 (-1))))).
Proof.
  unfold gameLoop. destruct (status s); try done.
  destruct (at_index _ _) as [cur|]; [|done].
  destruct (hand cur) as [|t h] eqn:Eh; simpl.
  - intros [= <- <-]. split; [done|]. exists cur. split; [done|]. left. by rewrite Eh.
  - fold (canPlay s). destruct (existsb (canPlay s) (players s)) eqn:Hany; simpl.
    + destruct (isBot cur); [done|]. by destruct (_ && _).
    + destruct (board s) as [|b bs] eqn:Hb; simpl.
      * destruct (isBot cur); [done|]. by destruct (_ =? _)%nat.
      * intros [= <- <-]. split; [done|]. exists cur. split; [done|]. right.
        by rewrite Eh.
Qed.

(** When the game loop schedules a turn or a pass, some seat can play. *)
Lemma gameLoop_some_can_play s e :
  good s -> gameLoop s = Some e ->
  (exists p, e = BotTurn p \/ e = AutoPass p) ->
  existsb (canPlay s) (players s) = true.
Proof.
  intros Hgood. unfold gameLoop. destruct (status s); try (by intros [= <-] (? & [? | ?])).
  destruct (at_index _ _) as [cur|]; [|done].
  destruct (_ =? _)%nat; [by intros [= <-] (? & [? | ?])|].
  fold (canPlay s). destruct (existsb (canPlay s) (players s)); [done|]. simpl.
  pose proof (good_board _ Hgood). destruct (board s); [done|]. simpl.
  by intros [= <-] (? & [? | ?]).
Qed.

(** The seat the tranque scan names is the seat of a player, as soon as
    some player is within the starting bound. *)
Lemma fold_lowest_team ps acc :
  (winningTeam (fold_left lowestStep ps acc) = winningTeam acc /\
   forall q, q ∈ ps -> minPips acc < handPips (hand q)) \/
  exists p, p ∈ ps /\ winningTeam (fold_left lowestStep ps acc) = team p.
Proof.
  revert acc. induction ps as [|q ps IH]; intros acc; simpl.
  - left. split; [done|]. intros q Hq. by apply elem_of_nil in Hq.
  - assert (Hnew : forall m, (exists p, p ∈ q :: ps /\
        winningTeam (fold_left lowestStep ps (mkLowest m (team q))) = team p)).
    { intros m. destruct (IH (mkLowest m (team q))) as [[Hkeep _] | (p & Hp & Hw)].
      - exists q. split; [left | done].
      - exists p. split; [by right | done]. }
    assert (Hcase : (exists m, lowestStep acc q = mkLowest m (team q)) \/
                    (lowestStep acc q = acc /\ minPips acc < handPips (hand q))).
    { unfold lowestStep.
      destruct (Z.ltb_spec (handPips (hand q)) (minPips acc)); [left; by eexists|].
      destruct (Z.eqb_spec (handPips (hand q)) (minPips acc)); [left; by eexists|].
      right. split; [done | lia]. }
    destruct Hcase as [[m ->] | [-> Hq]]; [right; apply Hnew|].
    destruct (IH acc) as [[Hkeep Hall] | (p & Hp & Hw)].
    + left. split; [done|]. intros p [-> | Hp]%elem_of_cons; [lia | by apply Hall].
    + right. exists p. split; [by right | done].
Qed.

(** X14. A round never stops short and the game loop never raises. In
    every reachable playing state the game loop comes to a decision: it
    ends the round for team 0 or team 1; or it schedules the turn of a bot,
    at a seat other than 0, and that turn succeeds and passes the turn to
    the next seat; or it schedules the pass of the user, which succeeds;
    or it does nothing, and then seat 0 is to play and the user holds a
    tile on which a click, whatever is answered to the question of the
    side, puts the tile on the board and passes the turn to seat 3. *)
Theorem round_progress (s : GameState) :
  reachable s -> status s = playing ->
  exists e,
    gameLoop s = Some e /\
    match e with
    | RoundEnd r w => w = 0 \/ w = 1
    | BotTurn bot =>
        currentPlayerIndex s <> 0 /\
        exists s', executeBotTurn bot s = Some s' /\ status s' = playing /\
                   currentPlayerIndex s' = getNextPlayerIndex (currentPlayerIndex s)
    | AutoPass p =>
        currentPlayerIndex s = 0 /\
        exists s', handlePass p s = Some s' /\ status s' = playing /\
                   currentPlayerIndex s' = 3
    | NoEffect =>
        currentPlayerIndex s = 0 /\
        exists user t,
          at_index (players s) 0 = Some user /\ t ∈ hand user /\
          forall choice, exists s',
            onUserTileClick t choice s = Some s' /\ status s' = playing /\
            currentPlayerIndex s' = 3 /\
            length (board s') = S (length (board s))
    end.
Proof.
  intros Hreach Hst.
  pose proof (reachable_playing_good s Hreach Hst) as Hgood.
  destruct (reachable_settled s Hreach) as [-> | Hset]; [done|].
  destruct (good_active s Hgood) as [cur Hcur].
  destruct (gameLoop s) as [e|] eqn:Hloop;
    [|unfold gameLoop in Hloop; rewrite Hst, Hcur in Hloop;
      repeat (destruct (_ : bool) in Hloop; try done)].
  exists e. split; [done|]. destruct e as [| r w | bot | p].
  - destruct (gameLoop_NoEffect s Hgood Hset Hst Hloop) as (Hzero & user & Huser & Hvalid).
    split; [done|].
    destruct (getValidMoves (hand user) (leftEnd s) (rightEnd s)) as [|m ms] eqn:E; [done|].
    assert (Hm : m ∈ getValidMoves (hand user) (leftEnd s) (rightEnd s))
      by (rewrite E; left).
    exists user, (tile m). split; [done|].
    split; [by eapply getValidMoves_tile|]. intros choice.
    destruct (onUserTileClick_plays s user (tile m) choice Hgood Hst Hzero Huser)
      as (s' & Hs' & Hst' & Hcur' & Hboard & _).
    + by eapply getValidMoves_tile.
    + destruct (good_chain _ Hgood) as (l & r & Hl & Hr & _). rewrite Hl, Hr in Hm |- *.
      apply elem_of_getValidMoves in Hm as [_ Hfit].
      assert (Hin : m ∈ getValidMoves [tile m] (Some l) (Some r)).
      { apply elem_of_getValidMoves. split; [left | done]. }
      intros E'. rewrite E' in Hin. by apply elem_of_nil in Hin.
    + exists s'. rewrite Hzero in Hcur'. done.
  - apply gameLoop_RoundEnd in Hloop as (_ & c & Hc & [(_ & _ & ->) | (_ & _ & _ & _ & ->)]).
    + apply (reachable_teams s c Hreach). by eapply at_index_elem_of.
    + destruct (fold_lowest_team (players s) (mkLowest 1000 (-1)))
        as [[_ Hall] | (p & Hp & ->)]; [|by apply (reachable_teams s p Hreach)].
      assert (Hin : cur ∈ players s) by (by eapply at_index_elem_of).
      pose proof (handOk_pips _ (good_hands _ Hgood cur Hin)).
      specialize (Hall cur Hin). simpl in Hall. lia.
  - pose proof (gameLoop_BotTurn s bot Hloop) as (_ & Hat & Hbot).
    split.
    + intros Hzero. apply (user_seat s _ bot Hset Hat) in Hzero. congruence.
    + destruct (executeBotTurn_cases s bot Hgood Hat) as (s' & Hs' & Hst' & Hcur' & _).
      exists s'. by rewrite Hst' , Hst.
  - pose proof (gameLoop_AutoPass s p Hloop) as (_ & Hat & Hbot & _).
    apply (user_seat s _ p Hset Hat) in Hbot. split; [done|].
    destruct (handlePass_total s _ p Hgood Hat) as (s' & Hs' & Hst' & Hcur' & _).
    exists s'. rewrite Hst', Hcur', Hbot. done.
Qed.

Lemma round_progress_witness :
  exists s bot s',
    run (take 1 exampleRound) initialGameState = Some s /\
    gameLoop s = Some (BotTurn bot) /\ pid bot = 3 /\
    executeBotTurn bot s = Some s' /\
    currentPlayerIndex s' = 2.
Proof.
  run_to (take 1 exampleRound) s Hreach.
  destruct (round_progress _ Hreach eq_refl) as (e & He & Hcase).
  vm_compute in He. injection He as <-.
  destruct Hcase as (_ & s' & Hs' & _ & Hcur').
  eexists _, _, s'. split; [reflexivity|]. split; [vm_compute; reflexivity|].
  split; [reflexivity|]. split; [exact Hs'|]. exact Hcur'.
Defined.

Lemma waiting_ext s s' n c :
  players s' = players s -> leftEnd s' = leftEnd s -> rightEnd s' = rightEnd s ->
  waiting s' n c = waiting s n c.
Proof.
  intros Hp Hl Hr. revert c. induction n as [|n IH]; intros c; simpl; [done|].
  unfold canPlay. rewrite Hp, Hl, Hr. destruct (at_index _ _); [|done].
  destruct (_ <? _)%nat; [done|]. by rewrite IH.
Qed.

Lemma waiting_le s n c : (waiting s n c <= n)%nat.
Proof.
  revert c. induction n as [|n IH]; intros c; simpl; [done|].
  destruct (at_index _ _); [|lia]. destruct (canPlay _ _); [lia|].
  specialize (IH (getNextPlayerIndex c)). lia.
Qed.

(** When the active seat cannot play but some seat can, fewer seats are
    left to pass, seen from the next seat. *)
Lemma waiting_pass s p :
  good s -> at_index (players s) (currentPlayerIndex s) = Some p ->
  getValidMoves (hand p) (leftEnd s) (rightEnd s) = [] ->
  existsb (canPlay s) (players s) = true ->
  (waiting s 4 (getNextPlayerIndex (currentPlayerIndex s))
   < waiting s 4 (currentPlayerIndex s))%nat.
Proof.
  intros Hgood Hat Hnone Hany.
  destruct (good_seats s Hgood) as (p0 & p1 & p2 & p3 & Hps).
  pose proof (good_turn _ Hgood) as Hturn.
  assert (Hp : canPlay s p = false) by (unfold canPlay; by rewrite Hnone).
  remember (canPlay s) as can eqn:Hcan.
  assert (currentPlayerIndex s = 0 \/ currentPlayerIndex s = 1 \/
          currentPlayerIndex s = 2 \/ currentPlayerIndex s = 3) as Hc by lia.
  unfold waiting. rewrite <- Hcan. rewrite Hps in *. simpl in Hany.
  destruct Hc as [Hc | [Hc | [Hc | Hc]]]; rewrite Hc in *;
    unfold at_index in Hat; simpl in Hat; injection Hat as <-;
    vm_compute getNextPlayerIndex; unfold at_index; simpl;
    rewrite Hp in *; simpl in *;
    destruct (can p0), (can p1), (can p2), (can p3); simpl in *; try done; lia.
Qed.

(** X15. A round cannot go on for ever. In a reachable playing state,
    every step of the application either leaves the state as it is (a
    click that is ignored), or ends the round, or makes [roundMeasure]
    smaller: a play takes a tile out of a hand, and a pass happens only
    when a seat further on can still play. The measure is at most 204
    at any time. *)
Theorem round_terminates (s s' : GameState) :
  reachable s -> status s = playing -> step s s' ->
  (roundMeasure s <= 204)%nat /\
  (s' = s \/ status s' = round_over \/
   (status s' = playing /\ (roundMeasure s' < roundMeasure s)%nat)).
Proof.
  intros Hreach Hst Hstep.
  pose proof (reachable_playing_good s Hreach Hst) as Hgood.
  destruct (reachable_settled s Hreach) as [-> | Hset]; [done|].
  split.
  { pose proof (settled_tiles _ Hset) as Htiles. apply Permutation_length in Htiles.
    unfold allTiles in Htiles. rewrite !length_app in Htiles.
    assert (Hdeck : length generateDeck = 55%nat) by (vm_compute; reflexivity).
    rewrite Hdeck, (settled_boneyard _ Hset) in Htiles.
    pose proof (waiting_le s 4 (currentPlayerIndex s)). unfold roundMeasure. lia. }
  assert (Hplay : forall s1,
    S (length (flat_map hand (players s1))) = length (flat_map hand (players s)) ->
    (roundMeasure s1 < roundMeasure s)%nat).
  { intros s1 Hless. unfold roundMeasure.
    pose proof (waiting_le s1 4 (currentPlayerIndex s1)). lia. }
  assert (Hpass : forall s1 p,
    at_index (players s) (currentPlayerIndex s) = Some p ->
    getValidMoves (hand p) (leftEnd s) (rightEnd s) = [] ->
    existsb (canPlay s) (players s) = true ->
    currentPlayerIndex s1 = getNextPlayerIndex (currentPlayerIndex s) ->
    players s1 = players s -> leftEnd s1 = leftEnd s -> rightEnd s1 = rightEnd s ->
    (roundMeasure s1 < roundMeasure s)%nat).
  { intros s1 p Hat Hnone Hany Hcur Hp Hl Hr. unfold roundMeasure.
    rewrite (waiting_ext s s1 4 _ Hp Hl Hr), Hp, Hcur.
    pose proof (waiting_pass s p Hgood Hat Hnone Hany). lia. }
  destruct Hstep as [s draw s' Hidle Hdraw Hstart | s r w Hloop | s bot s' Hloop Hbot
                    | s p s' Hloop Hpass' | s user t choice s' Huser Ht Hclick].
  - done.
  - right. by left.
  - right. right.
    pose proof (gameLoop_some_can_play s _ Hgood Hloop ltac:(eauto)) as Hany.
    apply gameLoop_BotTurn in Hloop as (_ & Hat & _).
    destruct (executeBotTurn_cases s bot Hgood Hat)
      as (s1 & Hs1 & Hst1 & Hcur1 & [(_ & _ & Hless) | (Hnone & Hp & _ & Hl & Hr)]);
      rewrite Hbot in Hs1; injection Hs1 as <-; (split; [congruence|]).
    + by apply Hplay.
    + by apply (Hpass s' bot).
  - right. right.
    pose proof (gameLoop_some_can_play s _ Hgood Hloop ltac:(eauto)) as Hany.
    apply gameLoop_AutoPass in Hloop as (_ & Hat & _ & Hnone).
    destruct (handlePass_total s _ p Hgood Hat) as (s1 & Hs1 & Hst1 & Hcur1 & Hp & _ & Hl & Hr).
    rewrite Hpass' in Hs1. injection Hs1 as <-. split; [congruence|].
    by apply (Hpass s' p).
  - apply onUserTileClick_cases in Hclick as [-> | (Hcur & _ & sd & _ & Hmove)]; [by left|].
    right. right.
    destruct (seat_by_id (players s) 0 user id (good_ids _ Hgood) Huser) as (Hid & _).
    destruct (applyMove_total s 0 user t sd Hgood Huser Ht)
      as (s1 & Hs1 & Hst1 & _ & _ & Hless & _).
    rewrite Hid, Hmove in Hs1. injection Hs1 as <-. split; [congruence|].
    by apply Hplay.
Qed.

Lemma round_terminates_witness :
  exists s s',
    run (take 21 exampleRound) initialGameState = Some s /\
    act Loop s = Some s' /\
    players s' = players s /\
    (roundMeasure s' < roundMeasure s)%nat.
Proof.
  run_to (take 21 exampleRound) s Hreach.
  match type of Hreach with
  | reachable ?x =>
      destruct (act Loop x) as [s'|] eqn:E; [|vm_compute in E; discriminate];
      pose proof (round_terminates _ s' Hreach eq_refl (act_step _ _ _ E)) as [_ H]
  end.
  eexists _, s'. split; [reflexivity|]. split; [exact E|].
  vm_compute in E. injection E as <-. split; [reflexivity|].
  destruct H as [H | [H | [_ H]]]; [discriminate H | discriminate H | exact H].
Defined.

(** ** Between rounds *)

Lemma startGame_status draw s' : startGame draw = Some s' -> status s' = playing.
Proof.
  unfold startGame. set (deck := shuffleDeck draw generateDeck). clearbody deck.
  destruct (at_index _ _); [|done]. by intros [= <-].
Qed.

(** X16. While no round is being played, before the first deal and after
    the end of a round, the game loop does nothing, every click on a tile
    is ignored, and the only step that changes the state is a press on the
    start button, which deals a new round. *)
Theorem between_rounds (s s' : GameState) :
  status s <> playing ->
  gameLoop s = Some NoEffect /\
  (forall t choice, onUserTileClick t choice s = Some s /\ tileOnClick t choice s = Some s) /\
  (step s s' ->
   s' = s \/ exists draw, (forall i, (draw i <= i)%nat) /\ startGame draw = Some s' /\
                          status s' = playing).
Proof.
  intros Hst.
  assert (Hloop : gameLoop s = Some NoEffect).
  { unfold gameLoop. by destruct (status s). }
  assert (Hclick : forall t choice, onUserTileClick t choice s = Some s).
  { intros t choice. unfold onUserTileClick.
    rewrite (bool_decide_eq_false_2 _ Hst). simpl. by rewrite orb_true_r. }
  split; [done|]. split.
  - intros t choice. split; [done|]. unfold tileOnClick. by destruct (disabled s t).
  - intros Hstep.
    destruct Hstep as [s draw s' Hidle Hdraw Hstart | s r w Hloop' | s bot s' Hloop' Hbot
                      | s p s' Hloop' Hpass | s user t choice s' Huser Ht Hclick'];
      try congruence.
    + right. exists draw. split; [done|]. split; [done|].
      by apply (startGame_status draw).
    + left. rewrite Hclick in Hclick'. by injection Hclick'.
Qed.

Lemma between_rounds_witness :
  gameLoop initialGameState = Some NoEffect /\
  onUserTileClick (6, 6) true initialGameState = Some initialGameState.
Proof.
  split.
  - apply (between_rounds initialGameState initialGameState). done.
  - apply (between_rounds initialGameState initialGameState). done.
Defined.

(** ** The tiles of the user's hand on the screen *)

Lemma isValid_false_click s t choice :
  isValid s t = false -> onUserTileClick t choice s = Some s.
Proof.
  unfold isValid, onUserTileClick.
  destruct (currentPlayerIndex s =? 0); simpl; [|done].
  destruct (bool_decide (status s = playing)); simpl; [|done].
  by destruct (getValidMoves [t] (leftEnd s) (rightEnd s)).
Qed.

(** X17. The flags the render gives a tile of the user's hand agree with
    what a click does. The guard of the tile component never changes the
    outcome: with it or without it a click gives the same state. A tile
    that is not shown as valid is ignored when clicked. In a reachable
    state a tile is disabled exactly when it is not shown as valid, and
    a click on a tile of the user's hand that is shown as valid plays it:
    the board grows by that tile and the turn goes to seat 3. *)
Theorem tile_flags (s : GameState) (t : Tile) (choice : bool) :
  tileOnClick t choice s = onUserTileClick t choice s /\
  (isValid s t = false -> onUserTileClick t choice s = Some s) /\
  (reachable s -> disabled s t = negb (isValid s t)) /\
  (reachable s -> isValid s t = true ->
   forall user, at_index (players s) 0 = Some user -> t ∈ hand user ->
   exists s', onUserTileClick t choice s = Some s' /\
              length (board s') = S (length (board s)) /\
              currentPlayerIndex s' = 3 /\ status s' = playing).
Proof.
  split; [|split; [apply isValid_false_click|split]].
  - unfold tileOnClick, disabled.
    destruct (currentPlayerIndex s =? 0) eqn:Hcur; simpl;
      [|unfold onUserTileClick; by rewrite Hcur].
    destruct (bool_decide (status s = playing)) eqn:Hst; simpl;
      [|unfold onUserTileClick; by rewrite Hcur, Hst].
    destruct (isValid s t) eqn:Hv; simpl; [done|].
    rewrite (isValid_false_click s t choice Hv). by destruct (0 <? _)%nat.
  - intros Hreach. unfold disabled, isValid.
    destruct (currentPlayerIndex s =? 0); simpl; [|done].
    case_bool_decide as Hst; simpl; [|done].
    pose proof (reachable_playing_good s Hreach Hst) as Hgood.
    pose proof (good_board _ Hgood). destruct (board s); [done|]. simpl.
    by rewrite andb_true_r.
  - intros Hreach Hv user Huser Ht. unfold isValid in Hv.
    apply andb_true_iff in Hv as [Hv Hlen]. apply andb_true_iff in Hv as [Hcur Hst].
    apply Z.eqb_eq in Hcur. apply bool_decide_eq_true in Hst.
    pose proof (reachable_playing_good s Hreach Hst) as Hgood.
    destruct (onUserTileClick_plays s user t choice Hgood Hst Hcur Huser Ht)
      as (s' & Hs' & Hst' & Hcur' & Hb & _).
    + intros E. by rewrite E in Hlen.
    + exists s'. rewrite Hcur in Hcur'. done.
Qed.

Lemma tile_flags_witness :
  exists s,
    run (take 4 exampleRound) initialGameState = Some s /\
    currentPlayerIndex s = 0 /\
    disabled s (8, 9) = false /\ disabled s (3, 9) = true /\
    onUserTileClick (3, 9) true s = Some s.
Proof.
  run_to (take 4 exampleRound) s Hreach.
  eexists. split; [reflexivity|]. split; [reflexivity|].
  split; [|split].
  - rewrite (proj1 (proj2 (proj2 (tile_flags _ (8, 9) true))) Hreach). reflexivity.
  - rewrite (proj1 (proj2 (proj2 (tile_flags _ (3, 9) true))) Hreach). reflexivity.
  - apply (tile_flags _ (3, 9) true). reflexivity.
Defined.

(** X18. [Pips] fills a grid of nine cells; for a number from 0 to 9 it
    draws that many dots, for any other number none; and the drawing looks
    the same when the tile is turned upside down. *)
Theorem Pips_dots (number : Z) :
  length (Pips number) = 9%nat /\
  (0 <= number <= 9 -> dots (Pips number) = Z.to_nat number) /\
  (~ 1 <= number <= 9 -> Pips number = replicate 9 false) /\
  rev (Pips number) = Pips number.
Proof.
  destruct (decide (1 <= number <= 9)) as [Hin | Hout].
  - assert (number = 1 \/ number = 2 \/ number = 3 \/ number = 4 \/ number = 5 \/
            number = 6 \/ number = 7 \/ number = 8 \/ number = 9)
      as [-> | [-> | [-> | [-> | [-> | [-> | [-> | [-> | ->]]]]]]]] by lia;
      (split; [reflexivity|]); (split; [intros _; reflexivity|]);
      (split; [intros H; lia | reflexivity]).
  - assert (Hnone : Pips number = replicate 9 false).
    { unfold Pips.
      repeat match goal with
             | |- context [number =? ?k] =>
                 destruct (Z.eqb_spec number k) as [|_]; [lia|]
             end.
      reflexivity. }
    rewrite Hnone. split; [reflexivity|]. split; [|split; [done | reflexivity]].
    intros Hr. assert (number = 0) as -> by lia. reflexivity.
Qed.

Lemma Pips_dots_witness :
  dots (Pips 6) = 6%nat /\ Pips 12 = replicate 9 false.
Proof.
  split.
  - apply (proj1 (proj2 (Pips_dots 6))). lia.
  - apply (proj1 (proj2 (proj2 (Pips_dots 12)))). lia.
Defined.

(** ** Ties in a locked round *)

Lemma fold_lowest_ge ps acc M :
  M <= minPips acc ->
  (forall q, q ∈ ps -> M <= handPips (hand q)) ->
  M <= minPips (fold_left lowestStep ps acc).
Proof.
  revert acc. induction ps as [|q ps IH]; intros acc Hacc Hge; simpl; [done|].
  apply IH; [|intros; apply Hge; by right].
  assert (Hq : M <= handPips (hand q)) by (apply Hge; left).
  unfold lowestStep.
  destruct (_ <? _); simpl; [lia|]. destruct (_ =? _); simpl; lia.
Qed.

(** The scan names the last player whose total is the lowest. *)
Lemma fold_lowest_last ps1 p ps2 acc :
  handPips (hand p) <= minPips acc ->
  (forall q, q ∈ ps1 -> handPips (hand p) <= handPips (hand q)) ->
  (forall q, q ∈ ps2 -> handPips (hand p) < handPips (hand q)) ->
  fold_left lowestStep (ps1 ++ p :: ps2) acc = mkLowest (handPips (hand p)) (team p).
Proof.
  intros Hacc Hbefore Hafter. rewrite fold_left_app. simpl.
  pose proof (fold_lowest_ge ps1 acc (handPips (hand p)) Hacc Hbefore) as H1.
  set (acc1 := fold_left lowestStep ps1 acc) in *.
  assert (Hstep : lowestStep acc1 p = mkLowest (handPips (hand p)) (team p)).
  { unfold lowestStep.
    destruct (Z.ltb_spec (handPips (hand p)) (minPips acc1)); [done|].
    destruct (Z.eqb_spec (handPips (hand p)) (minPips acc1)) as [-> | ?]; [done | lia]. }
  rewrite Hstep. by apply fold_lowest_keep.
Qed.

(** X19. When a reachable round ends locked, the team recorded as winner
    is the team of the last player, in seat order, among those holding the
    lowest pip total: a tie goes to the higher seat, whoever the active
    player is. *)
Theorem tranque_tie_last (s : GameState) (w : Z)
    (ps1 : list Player) (p : Player) (ps2 : list Player) :
  reachable s ->
  gameLoop s = Some (RoundEnd tranque w) ->
  players s = ps1 ++ p :: ps2 ->
  (forall q, q ∈ ps1 -> handPips (hand p) <= handPips (hand q)) ->
  (forall q, q ∈ ps2 -> handPips (hand p) < handPips (hand q)) ->
  w = team p /\
  winner (handleRoundEnd tranque w s)
    = Some (mkWinner (team p) tranque
              (if team p =? 0 then team1 (calculateScores (players s))
               else team0 (calculateScores (players s)))).
Proof.
  intros Hreach Hloop Hps Hbefore Hafter.
  apply gameLoop_RoundEnd in Hloop as (Hst & c & _ & [(? & _) | (_ & _ & _ & _ & ->)]);
    [done|].
  pose proof (reachable_playing_good s Hreach Hst) as Hgood.
  assert (Hw : winningTeam (fold_left lowestStep (players s) (mkLowest 1000 (-1))) = team p).
  { rewrite Hps, fold_lowest_last; [done | | done | done]. simpl.
    assert (Hp : p ∈ players s) by (rewrite Hps; apply elem_of_app; right; left).
    pose proof (handOk_pips _ (good_hands _ Hgood p Hp)). lia. }
  split; [done|]. unfold handleRoundEnd. simpl. by rewrite Hw.
Qed.

Lemma tranque_tie_last_witness :
  exists s p2 p3,
    run tiedRound initialGameState = Some s /\
    players s !! 2%nat = Some p2 /\ players s !! 3%nat = Some p3 /\
    handPips (hand p2) = 52 /\ handPips (hand p3) = 52 /\
    team p2 = 0 /\ team p3 = 1 /\ currentPlayerIndex s = 0 /\
    gameLoop s = Some (RoundEnd tranque 1) /\
    winner (handleRoundEnd tranque 1 s) = Some (mkWinner 1 tranque 114).
Proof.
  run_to tiedRound s Hreach.
  eexists _, _, _. split; [reflexivity|].
  do 8 (split; [reflexivity|]).
  match type of Hreach with
  | reachable ?x =>
      destruct (tranque_tie_last x 1 [_; _; _] _ [] Hreach eq_refl eq_refl) as [_ Hw]
  end.
  - intros q Hq. in_cases Hq; by vm_compute.
  - intros q Hq. by apply elem_of_nil in Hq.
  - rewrite Hw. reflexivity.
Defined.

(** ** Nothing is taken back during a round *)

Lemma players_later ps :
  Forall2 (fun p p' => pid p' = pid p /\ pname p' = pname p /\ isBot p' = isBot p /\
                       team p' = team p /\ hand p' `sublist_of` hand p) ps ps.
Proof. apply Forall_Forall2_diag, Forall_forall. intros p _. done. Qed.

Lemma later_refl s : later s s.
Proof.
  constructor; try done.
  - apply players_later.
  - intros k h Hh. by exists h.
Qed.

Lemma handleRoundEnd_later r w s : later s (handleRoundEnd r w s).
Proof.
  constructor; simpl; try done.
  - apply players_later.
  - by apply prefix_app_r.
  - intros k h Hh. by exists h.
Qed.

Lemma handlePass_later p s s' : handlePass p s = Some s' -> later s s'.
Proof.
  unfold handlePass. destruct (passHistory s !! pid p) as [h0|] eqn:Hh0; [|done].
  intros [= <-]. constructor; simpl; try done.
  - apply players_later.
  - by apply prefix_app_r.
  - intros k h Hh. destruct (decide (pid p = k)) as [<- | Hne].
    + rewrite lookup_insert_eq. eexists. split; [done|].
      rewrite Hh0 in Hh. injection Hh as <-. by apply prefix_app_r.
    + rewrite lookup_insert_ne by done. by exists h.
Qed.

Lemma applyMove_later s i p t sd s' :
  good s -> at_index (players s) i = Some p -> t ∈ hand p ->
  applyMove (pid p) t sd s = Some s' -> later s s'.
Proof.
  intros Hgood Hat Ht.
  destruct (applyMove_seat s i p t sd Hgood Hat Ht) as (h1 & h2 & Hhand & ->).
  apply at_index_lookup in Hat as [_ Hi].
  intros [= <-]. constructor; simpl; try done.
  - rewrite <- (list_insert_id (players s) (Z.to_nat i) p Hi) at 1.
    apply Forall2_insert; [apply players_later|]. simpl.
    do 4 (split; [done|]). rewrite Hhand.
    apply sublist_app; [done|]. by apply sublist_cons.
  - destruct sd; [by apply sublist_cons | by apply sublist_inserts_r].
  - by apply prefix_app_r.
  - intros k h Hh. by exists h.
Qed.

Lemma applyMove_logs playerId t sd s s' :
  applyMove playerId t sd s = Some s' -> length (logs s') = S (length (logs s)).
Proof.
  unfold applyMove. destruct (List.find _ _); [|done].
  destruct sd; intros [= <-]; simpl; rewrite length_app; simpl; lia.
Qed.

Lemma handlePass_logs p s s' :
  handlePass p s = Some s' -> length (logs s') = S (length (logs s)).
Proof.
  unfold handlePass. destruct (_ !! _); [|done].
  intros [= <-]. simpl. rewrite length_app. simpl. lia.
Qed.

(** X20. Nothing is taken back during a round. For every step taken from
    a reachable playing state, the state after it continues the state
    before it: same players at the same seats, each hand made of tiles it
    already held, in the same order; the board still holding its tiles in
    their order; the boneyard untouched; the log and the pass histories
    only added to, the log by one entry at most. *)
Theorem round_history (s s' : GameState) :
  reachable s -> status s = playing -> step s s' ->
  later s s' /\ (length (logs s') <= S (length (logs s)))%nat.
Proof.
  intros Hreach Hst Hstep.
  pose proof (reachable_playing_good s Hreach Hst) as Hgood.
  destruct Hstep as [s draw s' Hidle Hdraw Hstart | s r w Hloop | s bot s' Hloop Hbot
                    | s p s' Hloop Hpass | s user t choice s' Huser Ht Hclick].
  - done.
  - split; [apply handleRoundEnd_later|]. simpl. rewrite length_app. simpl. lia.
  - apply gameLoop_BotTurn in Hloop as (_ & Hat & _).
    unfold executeBotTurn in Hbot.
    destruct (calculateBotMove _ _ _ _ _) as [m|] eqn:Hm.
    + apply calculateBotMove_valid, getValidMoves_tile in Hm. split.
      * by eapply applyMove_later.
      * apply applyMove_logs in Hbot. lia.
    + split; [by eapply handlePass_later|]. apply handlePass_logs in Hbot. lia.
  - split; [by eapply handlePass_later|]. apply handlePass_logs in Hpass. lia.
  - apply onUserTileClick_cases in Hclick as [-> | (_ & _ & sd & _ & Hmove)].
    + split; [apply later_refl | lia].
    + destruct (seat_by_id (players s) 0 user id (good_ids _ Hgood) Huser) as (Hid & _).
      split.
      * rewrite <- Hid in Hmove. by eapply (applyMove_later s 0).
      * apply applyMove_logs in Hmove. lia.
Qed.

Lemma round_history_witness :
  exists s s',
    run (take 21 exampleRound) initialGameState = Some s /\
    act Loop s = Some s' /\
    passHistory s !! 3 = Some [] /\ passHistory s' !! 3 = Some [2; 6] /\
    later s s'.
Proof.
  run_to (take 21 exampleRound) s Hreach.
  match type of Hreach with
  | reachable ?x =>
      destruct (act Loop x) as [s'|] eqn:E; [|vm_compute in E; discriminate];
      pose proof (round_history _ s' Hreach eq_refl (act_step _ _ _ E)) as [H _]
  end.
  eexists _, s'. split; [reflexivity|]. split; [exact E|].
  split; [reflexivity|]. split; [|exact H].
  vm_compute in E. injection E as <-. reflexivity.
Defined.

(** ** The winner of the round *)

Lemma startGame_winner draw s' : startGame draw = Some s' -> winner s' = None.
Proof.
  unfold startGame. set (deck := shuffleDeck draw generateDeck). clearbody deck.
  destruct (at_index _ _); [|done]. by intros [= <-].
Qed.

Lemma handlePass_status p s s' :
  handlePass p s = Some s' -> status s' = status s /\ winner s' = winner s.
Proof.
  unfold handlePass. destruct (_ !! _); [|done]. by intros [= <-].
Qed.

Lemma executeBotTurn_status bot s s' :
  executeBotTurn bot s = Some s' -> status s' = status s /\ winner s' = winner s.
Proof.
  unfold executeBotTurn. destruct (calculateBotMove _ _ _ _ _).
  - intros (? & ? & _)%applyMove_status. done.
  - apply handlePass_status.
Qed.

(** The team for which the game loop ends a round is team 0 or team 1. *)
Lemma round_end_team s r w :
  good s -> gameLoop s = Some (RoundEnd r w) -> w = 0 \/ w = 1.
Proof.
  intros Hgood Hloop.
  assert (Hteams : forall p, p ∈ players s -> team p = 0 \/ team p = 1).
  { intros p Hp.
    assert (Ht : team p ∈ team <$> players s) by (apply list_elem_of_fmap; eauto).
    rewrite (good_teams _ Hgood) in Ht. in_cases Ht; auto. }
  apply gameLoop_RoundEnd in Hloop as (_ & c & Hc & [(_ & _ & ->) | (_ & _ & _ & _ & ->)]).
  - apply Hteams. by eapply at_index_elem_of.
  - destruct (fold_lowest_team (players s) (mkLowest 1000 (-1)))
      as [[_ Hall] | (p & Hp & ->)]; [|by apply Hteams].
    assert (Hin : c ∈ players s) by (by eapply at_index_elem_of).
    pose proof (handOk_pips _ (good_hands _ Hgood c Hin)).
    specialize (Hall c Hin). simpl in Hall. lia.
Qed.

Lemma handleRoundEnd_recorded s r w :
  good s -> w = 0 \/ w = 1 -> recorded (handleRoundEnd r w s).
Proof.
  intros Hgood Hw. unfold recorded. simpl. eexists. split; [reflexivity|]. simpl.
  split; [done|].
  assert (Hteams : forall p, p ∈ players s -> team p = 0 \/ team p = 1).
  { intros p Hp.
    assert (Ht : team p ∈ team <$> players s) by (apply list_elem_of_fmap; eauto).
    rewrite (good_teams _ Hgood) in Ht. in_cases Ht; auto. }
  assert (Hsc : calculateScores (players s)
                = mkScores (teamPips 0 (players s)) (teamPips 1 (players s))).
  { unfold calculateScores. rewrite fold_scoreStep by done. reflexivity. }
  destruct (fold_scoreStep_nonneg (players s) (mkScores 0 0)) as [H0 H1].
  { intros p Hp. apply handPips_range, hand_range, (good_hands _ Hgood p Hp). }
  fold (calculateScores (players s)) in H0, H1. rewrite Hsc in *. simpl in H0, H1.
  destruct Hw as [-> | ->]; simpl; done.
Qed.

Lemma reachable_recorded s : reachable s -> recorded s.
Proof.
  induction 1 as [|s s' Hreach IH Hstep]; [done|].
  destruct Hstep as [s draw s' Hidle Hdraw Hstart | s r w Hloop | s bot s' Hloop Hbot
                    | s p s' Hloop Hpass | s user t choice s' Huser Ht Hclick].
  - unfold recorded. by rewrite (startGame_status _ _ Hstart), (startGame_winner _ _ Hstart).
  - pose proof (gameLoop_RoundEnd _ _ _ Hloop) as [Hst _].
    pose proof (reachable_playing_good s Hreach Hst) as Hgood.
    apply handleRoundEnd_recorded; [done|]. by eapply round_end_team.
  - pose proof (gameLoop_BotTurn _ _ Hloop) as [Hst _].
    apply executeBotTurn_status in Hbot as [Hst' Hw].
    unfold recorded in *. by rewrite Hst', Hw, Hst in *.
  - pose proof (gameLoop_AutoPass _ _ Hloop) as [Hst _].
    apply handlePass_status in Hpass as [Hst' Hw].
    unfold recorded in *. by rewrite Hst', Hw, Hst in *.
  - apply onUserTileClick_cases in Hclick as [-> | (_ & Hst & sd & _ & Hmove)]; [done|].
    apply applyMove_status in Hmove as (Hst' & Hw & _).
    unfold recorded in *. by rewrite Hst', Hw, Hst in *.
Qed.

(** X21. What every reachable state records of the round. An idle state
    is the initial state; a playing state has no winner; a state whose
    round is over has a winner, team 0 or team 1, and its points are the
    pips left in the hands of the other team, a number that is not
    negative. There is a winner exactly when the round is over, and the
    score board then credits the points to the winning team and shows 0
    for the other; at any other time it shows 0 for both. *)
Theorem winner_recorded (s : GameState) :
  reachable s ->
  (status s = idle -> s = initialGameState) /\
  (status s = playing -> winner s = None) /\
  (status s = round_over ->
   exists w, winner s = Some w /\ (wteam w = 0 \/ wteam w = 1) /\
             points w = teamPips (1 - wteam w) (players s) /\ 0 <= points w /\
             scoreBoard s = if wteam w =? 0 then ("+" +:+ pretty (points w), "0")
                            else ("0", "+" +:+ pretty (points w))) /\
  (is_Some (winner s) <-> status s = round_over) /\
  (status s <> round_over -> scoreBoard s = ("0", "0")).
Proof.
  intros Hrec%reachable_recorded. unfold recorded in Hrec. unfold scoreBoard.
  destruct (status s) eqn:Hst.
  - subst s. split; [done|]. split; [done|]. split; [done|].
    split; [split; [intros [? ?]|]; done|]. done.
  - split; [done|]. split; [done|]. split; [done|]. rewrite Hrec.
    split; [split; [intros [? ?]|]; done|]. done.
  - split; [done|]. split; [done|].
    destruct Hrec as (w & -> & Hteam & Hpts & Hpos). split.
    + intros _. exists w. split; [done|]. split; [done|]. split; [done|].
      split; [done|]. by destruct Hteam as [-> | ->].
    + split; [|done]. split; [done | by eexists].
Qed.

Lemma winner_recorded_witness :
  exists s s',
    run exampleRound initialGameState = Some s /\
    act Loop s = Some s' /\
    winner s = None /\
    winner s' = Some (mkWinner 0 domino 33) /\
    teamPips 1 (players s') = 33 /\
    scoreBoard s' = ("+33", "0").
Proof.
  run_to exampleRound s Hreach.
  destruct (winner_recorded _ Hreach) as (_ & Hplaying & _).
  match type of Hreach with
  | reachable ?x =>
      destruct (act Loop x) as [s'|] eqn:E; [|vm_compute in E; discriminate];
      pose proof (reachable_step _ _ Hreach (act_step _ _ _ E)) as Hreach'
  end.
  destruct (winner_recorded _ Hreach') as (_ & _ & Hover & _).
  eexists _, s'. split; [reflexivity|]. split; [exact E|].
  split; [by apply Hplaying|].
  vm_compute in E. injection E as <-.
  destruct (Hover eq_refl) as (w & Hw & _ & Hpts & _ & Hboard).
  injection Hw as <-. split; [reflexivity|]. split; [symmetry; exact Hpts|].
  rewrite Hboard. reflexivity.
Defined.

(** ** The board on the screen: [getVisualChain] *)

Lemma orientFrom_same e b :
  Forall2 (fun v t => areTilesEqual v t = true /\ isDouble v = isDouble t /\
                      getTileSum v = getTileSum t) (orientFrom e b) b.
Proof.
  revert e. induction b as [|[x y] b IH]; intros e; simpl; [constructor|].
  destruct (eqEnd x e); constructor; try apply IH.
  - split; [apply areTilesEqual_refl | done].
  - unfold areTilesEqual, isDouble, getTileSum. simpl.
    rewrite !Z.eqb_refl, orb_true_r. split; [done|]. split; [apply Z.eqb_sym | lia].
Qed.

Lemma orientFrom_Oriented l b r : Oriented l b r -> orientFrom (Some l) b = b.
Proof.
  induction 1 as [a | a b ts c _ IH]; simpl; [done|].
  by rewrite Z.eqb_refl, IH.
Qed.

(** X22. In any state, reachable or not, [getVisualChain] lays out as many
    tiles as the board stores, and each is the stored tile at its place up
    to a turn: equal as a tile, with the same pip sum, and a double exactly
    when the stored tile is one. The layout is empty exactly when the
    board is empty; and a board whose tiles already run from the left end,
    each showing the pip of its left neighbour first, is laid out as it is
    stored. *)
Theorem visual_board (s : GameState) :
  length (getVisualChain s) = length (board s) /\
  Forall2 (fun v t => areTilesEqual v t = true /\ isDouble v = isDouble t /\
                      getTileSum v = getTileSum t) (getVisualChain s) (board s) /\
  (getVisualChain s = [] <-> board s = []) /\
  (forall l r, leftEnd s = Some l -> Oriented l (board s) r ->
     getVisualChain s = board s).
Proof.
  assert (Hsame : Forall2 (fun v t => areTilesEqual v t = true /\
                             isDouble v = isDouble t /\ getTileSum v = getTileSum t)
                    (getVisualChain s) (board s)).
  { unfold getVisualChain. destruct (board s) as [|t b] eqn:Hb; [constructor|].
    simpl length. simpl Nat.eqb. cbv iota. apply orientFrom_same. }
  pose proof (Forall2_length _ _ _ Hsame) as Hlen.
  split; [done|]. split; [done|]. split.
  - split; intros H; rewrite H in Hlen; simpl in Hlen.
    + by destruct (board s).
    + by destruct (getVisualChain s).
  - intros l r Hl Hor. unfold getVisualChain. rewrite Hl.
    destruct (board s) as [|t b] eqn:Hb; [done|].
    simpl length. simpl Nat.eqb. cbv iota. by eapply orientFrom_Oriented.
Qed.

Lemma visual_board_witness :
  getVisualChain
    {| players := []; board := [(4, 9); (9, 9); (9, 8)]; boneyard := [];
       leftEnd := Some 4; rightEnd := Some 8; currentPlayerIndex := 0;
       status := playing; logs := []; winner := None;
       passHistory := initialPassHistory |}
  = [(4, 9); (9, 9); (9, 8)].
Proof.
  apply (proj2 (proj2 (proj2 (visual_board
           {| players := []; board := [(4, 9); (9, 9); (9, 8)]; boneyard := [];
              leftEnd := Some 4; rightEnd := Some 8; currentPlayerIndex := 0;
              status := playing; logs := []; winner := None;
              passHistory := initialPassHistory |}))) 4 8); [reflexivity|].
  simpl. repeat constructor.
Defined.
